(** * Discogs MCP: the cached Discogs client

    A shallow embedding of [src/clients/cachedDiscogs.ts]: the pure
    statistics pass [computeStatsFromReleases], the page loop behind
    [getCompleteCollection], and the request-coalescing cache the client
    is built on.

    Conventions.
    - A JavaScript [number] holding a count, a page index or a rating is an
      integer of [Z]; the one quotient of the file, [averageRating], is an
      exact rational of [Q] where the code has the nearest double.
    - A breakdown of the statistics is a plain JavaScript object: its own
      properties in insertion order, read through [Object.prototype] as
      the code reads them. The store and the registry of the cache are
      finite maps.
    - An [async] function is a state-passing computation over a [World]
      that records what the client did to its collaborators. Where the
      order of requests and answers is the question, the fetch closure is
      a coroutine under a scheduler ([Scheduling]), and the state-passing
      closure is one of its runs. *)

From Stdlib Require Import ZArith QArith List Lia.
From stdpp Require Import base option list strings pretty gmap fin_maps.

Local Open Scope Z_scope.

(** ** Data model (the shapes imported from [./discogs]) *)

Record DiscogsFormat := { format_name : string }.
Record DiscogsLabel := { label_name : string }.

(** [basic_information] of a collection item. The statistics pass guards
    every tag array with [|| []] and the year with a truthiness test, so
    the fields are optional here. *)
Record BasicInformation := {
  genres : option (list string);
  year : option Z;
  formats : option (list DiscogsFormat);
  labels : option (list DiscogsLabel)
}.

Record DiscogsCollectionItem := {
  basic_information : BasicInformation;
  rating : Z
}.

(** What a property of a breakdown can hold: the count the code means to
    keep, or the string that [+ 1] makes of a value that is not a
    number. *)
Inductive JsValue :=
| JsNumber (n : Z)
| JsString (s : string).

(** A plain object created by [{}]: its own properties, in the order in
    which they were first assigned. (Enumeration lists keys that are
    array indices first; the statistics pass only reads and assigns.) *)
Definition JsObject := list (string * JsValue).

Record DiscogsCollectionStats := {
  totalReleases : Z;
  totalValue : Z;
  genreBreakdown : JsObject;
  decadeBreakdown : JsObject;
  formatBreakdown : JsObject;
  labelBreakdown : JsObject;
  averageRating : Q;
  ratedReleases : Z
}.

Record Pagination := {
  pages : Z;
  page : Z;
  per_page : Z;
  items : Z
}.

Record DiscogsCollectionResponse := {
  pagination : Pagination;
  releases : list DiscogsCollectionItem
}.

(** ** computeStatsFromReleases *)

Module Stats.

(** [xs || []] *)
Definition orEmpty {A} (xs : option (list A)) : list A := default [] xs.

(** The own property [k] of an object, if it has one. *)
Fixpoint ownProperty (o : JsObject) (k : string) : option JsValue :=
  match o with
  | [] => None
  | (k', v) :: o' => if decide (k' = k) then Some v else ownProperty o' k
  end.

(** Assigning an own property: an existing one keeps its place, a new one
    goes last. *)
Fixpoint setProperty (o : JsObject) (k : string) (v : JsValue) : JsObject :=
  match o with
  | [] => [(k, v)]
  | (k', v') :: o' =>
      if decide (k' = k) then (k, v) :: o' else (k', v') :: setProperty o' k v
  end.

(** The function-valued properties of [Object.prototype], each with the
    name its function carries. *)
Definition prototypeFunctions : list (string * string) :=
  [ ("constructor", "Object");
    ("__defineGetter__", "__defineGetter__");
    ("__defineSetter__", "__defineSetter__");
    ("hasOwnProperty", "hasOwnProperty");
    ("__lookupGetter__", "__lookupGetter__");
    ("__lookupSetter__", "__lookupSetter__");
    ("isPrototypeOf", "isPrototypeOf");
    ("propertyIsEnumerable", "propertyIsEnumerable");
    ("toString", "toString");
    ("valueOf", "valueOf");
    ("toLocaleString", "toLocaleString") ]%string.

Fixpoint functionNamed (k : string) (fs : list (string * string)) : option string :=
  match fs with
  | [] => None
  | (k', name) :: fs' => if decide (k' = k) then Some name else functionNamed k fs'
  end.

(** What a key that an object does not own reads as, once turned into a
    string: the source text of a built-in function, or, for the accessor
    [__proto__], the text of [Object.prototype] itself. [None] is
    [undefined]. *)
Definition inheritedText (k : string) : option string :=
  if decide (k = "__proto__") then Some "[object Object]"
  else (fun name => "function " +:+ name +:+ "() { [native code] }")
         <$> functionNamed k prototypeFunctions.

(** [v || 0] for an own value: the number 0 and the empty string are
    falsy. *)
Definition orZero (v : JsValue) : JsValue :=
  match v with
  | JsNumber n => if decide (n = 0) then JsNumber 0 else v
  | JsString s => if decide (s = "") then JsNumber 0 else v
  end.

(** [v + 1]: addition on a number, concatenation on a string. *)
Definition plusOne (v : JsValue) : JsValue :=
  match v with
  | JsNumber n => JsNumber (n + 1)
  | JsString s => JsString (s +:+ "1")
  end.

(** [(o[k] || 0) + 1] *)
Definition bumped (o : JsObject) (k : string) : JsValue :=
  match ownProperty o k with
  | Some v => plusOne (orZero v)
  | None =>
      match inheritedText k with
      | Some text => JsString (text +:+ "1")
      | None => JsNumber 1
      end
  end.

(** [o[k] = (o[k] || 0) + 1]. Assigning to [__proto__] calls the setter of
    [Object.prototype], which ignores a value that is not an object. *)
Definition bump (o : JsObject) (k : string) : JsObject :=
  if decide (k = "__proto__") then o else setProperty o k (bumped o k).

(** What the own property [k] holds after [bump o k], given what it held
    before. *)
Definition afterBump (k : string) (held : option JsValue) : option JsValue :=
  if decide (k = "__proto__") then held
  else Some match held with
            | Some v => plusOne (orZero v)
            | None =>
                match inheritedText k with
                | Some text => JsString (text +:+ "1")
                | None => JsNumber 1
                end
            end.

(** The last character of a string. *)
Fixpoint lastChar (s : string) : option Ascii.ascii :=
  match s with
  | EmptyString => None
  | String c EmptyString => Some c
  | String _ s' => lastChar s'
  end.

(** [if (release.year)]: an absent year and the year 0 are both falsy. *)
Definition truthyYear (y : option Z) : option Z :=
  match y with
  | Some n => if decide (n = 0) then None else Some n
  | None => None
  end.

(** [Math.floor(year / 10) * 10] *)
Definition decadeOf (y : Z) : Z := (y / 10) * 10.

(** [`${Math.floor(release.year / 10) * 10}s`] *)
Definition decadeKey (y : Z) : string := pretty (decadeOf y) +:+ "s".

(** The mutable locals of the pass: the [stats] object and the two
    counters [totalRating] and [ratedCount]. *)
Record Acc := {
  stats : DiscogsCollectionStats;
  totalRating : Z;
  ratedCount : Z
}.

Definition initialStats (rs : list DiscogsCollectionItem) : DiscogsCollectionStats :=
  {| totalReleases := Z.of_nat (length rs);
     totalValue := 0;
     genreBreakdown := [];
     decadeBreakdown := [];
     formatBreakdown := [];
     labelBreakdown := [];
     averageRating := 0%Q;
     ratedReleases := 0 |}.

(** One iteration of [for (const item of releases)]. *)
Definition visit (a : Acc) (item : DiscogsCollectionItem) : Acc :=
  let release := basic_information item in
  let s := stats a in
  let s1 :=
    {| totalReleases := totalReleases s;
       totalValue := totalValue s;
       genreBreakdown := fold_left bump (orEmpty (genres release)) (genreBreakdown s);
       decadeBreakdown :=
         match truthyYear (year release) with
         | Some y => bump (decadeBreakdown s) (decadeKey y)
         | None => decadeBreakdown s
         end;
       formatBreakdown :=
         fold_left bump (map format_name (orEmpty (formats release))) (formatBreakdown s);
       labelBreakdown :=
         fold_left bump (map label_name (orEmpty (labels release))) (labelBreakdown s);
       averageRating := averageRating s;
       ratedReleases := ratedReleases s |} in
  if decide (0 < rating item)
  then {| stats := s1;
          totalRating := totalRating a + rating item;
          ratedCount := ratedCount a + 1 |}
  else {| stats := s1; totalRating := totalRating a; ratedCount := ratedCount a |}.

Definition computeStatsFromReleases (rs : list DiscogsCollectionItem)
  : DiscogsCollectionStats :=
  let a := fold_left visit rs
             {| stats := initialStats rs; totalRating := 0; ratedCount := 0 |} in
  let s := stats a in
  {| totalReleases := totalReleases s;
     totalValue := totalValue s;
     genreBreakdown := genreBreakdown s;
     decadeBreakdown := decadeBreakdown s;
     formatBreakdown := formatBreakdown s;
     labelBreakdown := labelBreakdown s;
     averageRating :=
       if decide (0 < ratedCount a)
       then (inject_Z (totalRating a) / inject_Z (ratedCount a))%Q
       else 0%Q;
     ratedReleases := ratedCount a |}.

(** What the specification calls the tags of a list of items. *)
Definition genreTags (rs : list DiscogsCollectionItem) : list string :=
  concat (map (fun i => orEmpty (genres (basic_information i))) rs).

Definition formatTags (rs : list DiscogsCollectionItem) : list string :=
  concat (map (fun i => map format_name (orEmpty (formats (basic_information i)))) rs).

Definition labelTags (rs : list DiscogsCollectionItem) : list string :=
  concat (map (fun i => map label_name (orEmpty (labels (basic_information i)))) rs).

(** The years that pass the truthiness guard. *)
Definition datedYears (rs : list DiscogsCollectionItem) : list Z :=
  omap (fun i => truthyYear (year (basic_information i))) rs.

(** The ratings that pass [item.rating > 0]. *)
Definition positiveRatings (rs : list DiscogsCollectionItem) : list Z :=
  filter (fun r => 0 < r) (map rating rs).

Definition sumZ (xs : list Z) : Z := fold_right Z.add 0 xs.

(** Number of occurrences of a key in a list of tags. *)
Definition occurrences (k : string) (ks : list string) : Z :=
  Z.of_nat (length (filter (fun x => x = k) ks)).

(** The two items of the specification's worked example. *)
Definition exampleItem (y r : Z) : DiscogsCollectionItem :=
  {| basic_information :=
       {| genres := Some ["Rock"%string];
          year := Some y;
          formats := Some [ {| format_name := "Vinyl" |} ];
          labels := None |};
     rating := r |}.

Definition exampleItems : list DiscogsCollectionItem :=
  [exampleItem 1969 5; exampleItem 1973 4].

(** A release whose year is recorded as 0, the database's way of saying
    that the year is unknown. *)
Definition unknownYearItem : DiscogsCollectionItem := exampleItem 0 3.

End Stats.

(** ** Asynchronous code: outcomes, events and the world *)

(** The value a rejected promise carries. *)
Definition Error := string.

(** How an awaited promise ends. [Unsettled] is the promise that never
    settles: a loop that does not stop, or an [await] on a future nobody
    resolves. *)
Inductive Outcome (A : Type) : Type :=
| Fulfilled (a : A)
| Rejected (e : Error)
| Unsettled.

Arguments Fulfilled {A} a.
Arguments Rejected {A} e.
Arguments Unsettled {A}.

(** Traffic between the page loop and [this.searchCollection], oldest
    event first. A request is recorded when the call is made, the answer
    when the [await] resumes. *)
Inductive Event :=
| PageRequested (username : string) (page per_page : Z)
| PageReceived (page : Z) (r : DiscogsCollectionResponse)
| PageFailed (page : Z) (e : Error).

(** An entry of the persistent store. The store keeps the payload as
    text; [None] is a text that does not parse. *)
Record CacheEntry := {
  payload : option DiscogsCollectionResponse;
  storedAt : Z;
  expiresAt : Z
}.

Section Client.

Context {U : Type}.

(** [this.searchCollection(username, ..., { page, per_page }, ...)] seen
    from the page loop: given the collaborator's own state it answers with
    an error or a page, and moves to a new state. That state stands for
    the remote collection and for the entries the method keeps for single
    pages under its own keys; the method is taken not to touch the
    aggregate's key or its registry entry. Credentials are passed through
    untouched and are left out. *)
Variable searchCollection :
  string -> Z -> Z -> U -> (Error + DiscogsCollectionResponse) * U.

(** Default time-to-live of a category, in seconds ([utils/cache]). *)
Variable defaultTTL : string -> Z.

(** [storeFailures] tells what the coming operations on the store do,
    the next one first: [true] is an operation that fails. Past the end of
    the list the store works. *)
Record World := {
  upstream : U;
  trace : list Event;
  console : list string;
  entries : gmap string CacheEntry;
  pendingRequests : gset string;
  now : Z;
  storeFailures : list bool
}.

Definition M (A : Type) : Type := World -> Outcome A * World.

Definition ret {A} (a : A) : M A := fun w => (Fulfilled a, w).

Definition bind {A B} (c : M A) (k : A -> M B) : M B :=
  fun w =>
    match c w with
    | (Fulfilled a, w') => k a w'
    | (Rejected e, w') => (Rejected e, w')
    | (Unsettled, w') => (Unsettled, w')
    end.

Definition unsettled {A} : M A := fun w => (Unsettled, w).

Notation "'await' x <- c 'in' k" := (bind c (fun x => k))
  (at level 10, x name, c at level 100, k at level 200).
Notation "'perform' c 'in' k" := (bind c (fun _ => k))
  (at level 10, c at level 100, k at level 200).

Definition record (e : Event) (w : World) : World :=
  {| upstream := upstream w; trace := trace w ++ [e]; console := console w;
     entries := entries w; pendingRequests := pendingRequests w; now := now w;
     storeFailures := storeFailures w |}.

Definition setUpstream (u : U) (w : World) : World :=
  {| upstream := u; trace := trace w; console := console w;
     entries := entries w; pendingRequests := pendingRequests w; now := now w;
     storeFailures := storeFailures w |}.

Definition logged (line : string) (w : World) : World :=
  {| upstream := upstream w; trace := trace w; console := console w ++ [line];
     entries := entries w; pendingRequests := pendingRequests w; now := now w;
     storeFailures := storeFailures w |}.

(** [console.log(line)] *)
Definition log (line : string) : M unit := fun w => (Fulfilled tt, logged line w).

(** [await this.searchCollection(username, ..., { page, per_page }, ...)] *)
Definition awaitSearchCollection (username : string) (page per_page : Z)
  : M DiscogsCollectionResponse :=
  fun w =>
    let w1 := record (PageRequested username page per_page) w in
    match searchCollection username page per_page (upstream w1) with
    | (inr r, u) => (Fulfilled r, record (PageReceived page r) (setUpstream u w1))
    | (inl e, u) => (Rejected e, record (PageFailed page e) (setUpstream u w1))
    end.

(** The pages the collaborator hands out when asked for the pages [ps]
    one after the other, 100 items a page, from the state [u]; a refusal
    ends the run. *)
Fixpoint pagesServed (username : string) (ps : list Z) (u : U)
  : list DiscogsCollectionResponse :=
  match ps with
  | [] => []
  | p :: ps' =>
      match searchCollection username p 100 u with
      | (inr r, u') => r :: pagesServed username ps' u'
      | (inl _, _) => []
      end
  end.

(** ** getCompleteCollection: the fetch closure *)

(** The three [let] variables of the closure. *)
Record LoopState := {
  allReleases : list DiscogsCollectionItem;
  currentPage : Z;
  totalPages : Z
}.

Definition initialLoopState : LoopState :=
  {| allReleases := []; currentPage := 1; totalPages := 1 |}.

(** The body of the [do { ... } while] loop. *)
Definition loopBody (username : string) (maxPages : Z) (st : LoopState) : M LoopState :=
  await pageResult <- awaitSearchCollection username (currentPage st) 100 in
  ret {| allReleases := allReleases st ++ releases pageResult;
         currentPage := currentPage st + 1;
         totalPages := Z.min (pages (pagination pageResult)) maxPages |}.

(** The loop variables once the body has run on the page [r]. *)
Definition afterPage (maxPages : Z) (st : LoopState) (r : DiscogsCollectionResponse)
  : LoopState :=
  {| allReleases := allReleases st ++ releases r;
     currentPage := currentPage st + 1;
     totalPages := Z.min (pages (pagination r)) maxPages |}.

(** The world once the collaborator has moved to [u] and the events [evs]
    have been recorded. *)
Definition answered (w : World) (u : U) (evs : list Event) : World :=
  {| upstream := u; trace := trace w ++ evs; console := console w;
     entries := entries w; pendingRequests := pendingRequests w; now := now w;
     storeFailures := storeFailures w |}.

(** [do body while (currentPage <= totalPages)], unrolled at most [fuel]
    times; a loop still running after that is [Unsettled]. *)
Fixpoint doWhile (fuel : nat) (username : string) (maxPages : Z) (st : LoopState)
  : M LoopState :=
  match fuel with
  | O => unsettled
  | S fuel' =>
      await st' <- loopBody username maxPages st in
      if decide (currentPage st' <= totalPages st')
      then doWhile fuel' username maxPages st'
      else ret st'
  end.

(** [Math.ceil(n / 100)] for a length [n]. *)
Definition ceilDiv100 (n : Z) : Z := (n + 99) / 100.

Definition itemCount (st : LoopState) : Z := Z.of_nat (length (allReleases st)).

(** [const wasTruncated = totalPages <
      (allReleases.length > 0 ? Math.ceil(allReleases.length / 100) : 1)] *)
Definition wasTruncated (st : LoopState) : bool :=
  bool_decide
    (totalPages st <
       (if decide (0 < itemCount st) then ceilDiv100 (itemCount st) else 1)).

Definition fetchingLine (username : string) (maxPages : Z) : string :=
  "Fetching complete collection for " +:+ username +:+
  " (max " +:+ pretty maxPages +:+ " pages)".

Definition truncatedLine (maxPages : Z) (n : Z) : string :=
  "Collection truncated at " +:+ pretty maxPages +:+ " pages (" +:+ pretty n +:+
  " items). Actual collection may be larger.".

(** The object the closure returns. *)
Definition aggregateOf (st : LoopState) : DiscogsCollectionResponse :=
  {| pagination :=
       {| pages := totalPages st;
          page := 1;
          per_page := itemCount st;
          items := itemCount st |};
     releases := allReleases st |}.

(** Iterations the loop can need: it goes on only while
    [currentPage <= totalPages <= maxPages]. *)
Definition loopFuel (maxPages : Z) : nat := S (Z.to_nat maxPages).

(** The loop of the closure, from its first line to the exit of the
    [do ... while]. *)
Definition fetchLoop (username : string) (maxPages : Z) : M LoopState :=
  perform log (fetchingLine username maxPages) in
  doWhile (loopFuel maxPages) username maxPages initialLoopState.

(** The closure handed to [getOrFetch]. *)
Definition fetchAllPages (username : string) (maxPages : Z)
  : M DiscogsCollectionResponse :=
  await st <- fetchLoop username maxPages in
  perform (if wasTruncated st then log (truncatedLine maxPages (itemCount st)) else ret tt) in
  ret (aggregateOf st).

(** ** SmartCache.getOrFetch, for one caller at a time *)

(** [category + ":" + key] *)
Definition fullKeyOf (category key : string) : string := category +:+ ":" +:+ key.

(** What the store holds for a key that a caller can use: the payload of
    an entry that has not expired and that parses. *)
Definition lookupFresh (fullKey : string) (w : World) : option DiscogsCollectionResponse :=
  match entries w !! fullKey with
  | Some e => if decide (now w < expiresAt e) then payload e else None
  | None => None
  end.

Definition setPending (p : gset string) (w : World) : World :=
  {| upstream := upstream w; trace := trace w; console := console w;
     entries := entries w; pendingRequests := p; now := now w;
     storeFailures := storeFailures w |}.

Definition setFailures (fs : list bool) (w : World) : World :=
  {| upstream := upstream w; trace := trace w; console := console w;
     entries := entries w; pendingRequests := pendingRequests w; now := now w;
     storeFailures := fs |}.

Definition persist (fullKey : string) (v : DiscogsCollectionResponse) (ttl : Z)
    (w : World) : World :=
  {| upstream := upstream w; trace := trace w; console := console w;
     entries :=
       <[fullKey := {| payload := Some v; storedAt := now w; expiresAt := now w + ttl |}]>
         (entries w);
     pendingRequests := pendingRequests w; now := now w;
     storeFailures := storeFailures w |}.

(** One operation on the store: whether it fails, and the world with that
    operation behind it. *)
Definition storeOperation (w : World) : bool * World :=
  match storeFailures w with
  | [] => (false, w)
  | failed :: rest => (failed, setFailures rest w)
  end.

(** The lines logged when the store fails. The specification asks for a
    line and does not word it. *)
Definition degradedLine (fullKey : string) : string :=
  "Cache read failed for " +:+ fullKey +:+ ", fetching without caching".

Definition unstoredLine (fullKey : string) : string :=
  "Cache write failed for " +:+ fullKey.

(** Modelled from the spec: [get] of the store (section 4.1) as the cache
    uses it. [None] is a failure of the store; an entry that has expired
    or does not parse reads as absent (section 7). *)
Definition storeGet (fullKey : string) (w : World)
  : option (option DiscogsCollectionResponse) * World :=
  let '(failed, w') := storeOperation w in
  if failed then (None, w') else (Some (lookupFresh fullKey w'), w').

(** Modelled from the spec: [put] of the store after a successful fetch;
    a write that fails is logged and leaves the store as it was (sections
    7 and 9). *)
Definition storePut (fullKey : string) (v : DiscogsCollectionResponse) (ttl : Z)
    (w : World) : World :=
  let '(failed, w') := storeOperation w in
  if failed then logged (unstoredLine fullKey) w' else persist fullKey v ttl w'.

(** Removing the pending entry of a key. *)
Definition unregister (fullKey : string) (w : World) : World :=
  setPending (pendingRequests w ∖ {[fullKey]}) w.

(** Modelled from the spec: [SmartCache.getOrFetch] of [utils/cache], which
    is not among the sources; section 4.2, steps 1 to 5, as one caller
    running alone goes through them, with the store failures of sections
    4.1, 7 and 9: a read that fails falls through to a fetch whose result
    is not stored, a write that fails leaves the fetched value to be
    returned. A caller that finds the key in the pending registry awaits a
    future that nothing in a solo run settles. *)
Definition getOrFetch (category key : string)
    (fetchFn : M DiscogsCollectionResponse) (maxAge : option Z)
  : M DiscogsCollectionResponse :=
  fun w =>
    let fullKey := fullKeyOf category key in
    if decide (fullKey ∈ pendingRequests w) then (Unsettled, w)
    else
      let w1 := setPending ({[fullKey]} ∪ pendingRequests w) w in
      match storeGet fullKey w1 with
      | (Some (Some v), w2) => (Fulfilled v, unregister fullKey w2)
      | (Some None, w2) =>
          match fetchFn w2 with
          | (Fulfilled v, w3) =>
              (Fulfilled v,
               unregister fullKey
                 (storePut fullKey v (default (defaultTTL category) maxAge) w3))
          | (Rejected e, w3) => (Rejected e, unregister fullKey w3)
          | (Unsettled, w3) => (Unsettled, w3)
          end
      | (None, w2) =>
          match fetchFn (logged (degradedLine fullKey) w2) with
          | (Fulfilled v, w3) => (Fulfilled v, unregister fullKey w3)
          | (Rejected e, w3) => (Rejected e, unregister fullKey w3)
          | (Unsettled, w3) => (Unsettled, w3)
          end
      end.

(** [const cacheKey = `${username}:complete:${maxPages}`] *)
Definition completeKey (username : string) (maxPages : Z) : string :=
  username +:+ ":complete:" +:+ pretty maxPages.

Definition getCompleteCollection (username : string) (maxPages : Z)
  : M DiscogsCollectionResponse :=
  getOrFetch "collections" (completeKey username maxPages)
    (fetchAllPages username maxPages) (Some (45 * 60)).

(** Time passing between two calls. *)
Definition elapse (dt : Z) (w : World) : World :=
  {| upstream := upstream w; trace := trace w; console := console w;
     entries := entries w; pendingRequests := pendingRequests w; now := now w + dt;
     storeFailures := storeFailures w |}.

(** Readings of a trace. *)
Definition requestedPages (t : list Event) : list Z :=
  omap (fun e => match e with PageRequested _ p _ => Some p | _ => None end) t.

Definition receivedPages (t : list Event) : list DiscogsCollectionResponse :=
  omap (fun e => match e with PageReceived _ r => Some r | _ => None end) t.

(** Requests made and not yet answered after each event of a trace,
    starting from [n] of them. *)
Fixpoint inFlight (n : Z) (t : list Event) : list Z :=
  match t with
  | [] => []
  | PageRequested _ _ _ :: t' => (n + 1) :: inFlight (n + 1) t'
  | PageReceived _ _ :: t' => (n - 1) :: inFlight (n - 1) t'
  | PageFailed _ _ :: t' => (n - 1) :: inFlight (n - 1) t'
  end.

(** A trace in which every request is answered before the next one is
    made: pages [c], [c + 1], ... of one user, 100 items a page, each
    request followed at once by its answer, a refusal being the last
    event. *)
Inductive OneAtATime (username : string) : Z -> list Event -> Prop :=
| oneAtATime_end c : OneAtATime username c []
| oneAtATime_failed c e :
    OneAtATime username c [PageRequested username c 100; PageFailed c e]
| oneAtATime_received c r t :
    OneAtATime username (c + 1) t ->
    OneAtATime username c (PageRequested username c 100 :: PageReceived c r :: t).

End Client.

Arguments World U : clear implicits.
Arguments M U A : clear implicits.

(** ** Sample collaborators *)

Module Samples.

Definition plainItem : DiscogsCollectionItem :=
  {| basic_information :=
       {| genres := None; year := None; formats := None; labels := None |};
     rating := 0 |}.

(** A page of [n] items whose pagination reports [P] pages in total. *)
Definition pageOf (n : nat) (P : Z) (p per : Z) : DiscogsCollectionResponse :=
  {| pagination := {| pages := P; page := p; per_page := per; items := P * per |};
     releases := replicate n plainItem |}.

(** A source that answers every request with [n] items and reports [P]
    pages. *)
Definition steadySource (n : nat) (P : Z)
  : string -> Z -> Z -> unit -> (Error + DiscogsCollectionResponse) * unit :=
  fun _ p per u => (inr (pageOf n P p per), u).

(** A source whose state counts the calls made so far and whose call
    number [k] (from 0) is refused. *)
Definition flakySource (k : nat) (n : nat) (P : Z)
  : string -> Z -> Z -> nat -> (Error + DiscogsCollectionResponse) * nat :=
  fun _ p per calls =>
    if decide (calls = k)
    then (inl "429 Too Many Requests"%string, S calls)
    else (inr (pageOf n P p per), S calls).

(** A source caught while the collection shrinks: the first page still
    reports three pages, every later answer reports one. *)
Definition shrinkingSource
  : string -> Z -> Z -> unit -> (Error + DiscogsCollectionResponse) * unit :=
  fun _ p per u =>
    if decide (p = 1) then (inr (pageOf 100 3 p per), u) else (inr (pageOf 0 1 p per), u).

Definition noTTL : string -> Z := fun _ => 0.

(** A world with an empty store, an empty registry and nothing recorded. *)
Definition freshWorld {U} (u : U) : World U :=
  {| upstream := u; trace := []; console := []; entries := ∅;
     pendingRequests := ∅; now := 0; storeFailures := [] |}.

End Samples.

(** ** The fetch closure under the scheduler *)

Module Scheduling.

(** An [async] function between two of its steps. [Start] is a call of
    [this.searchCollection] whose promise is not awaited yet: the request
    leaves and the caller goes on with the promise in hand. [Await]
    suspends the caller until the promise is settled. [StillRunning] is a
    loop that has used up its fuel. *)
Inductive Coroutine (A : Type) : Type :=
| Return (a : A)
| Throw (e : Error)
| StillRunning
| ConsoleLog (line : string) (k : Coroutine A)
| Start (username : string) (page per_page : Z) (k : nat -> Coroutine A)
| Await (promise : nat) (k : Error + DiscogsCollectionResponse -> Coroutine A).

Arguments Return {A} a.
Arguments Throw {A} e.
Arguments StillRunning {A}.
Arguments ConsoleLog {A} line k.
Arguments Start {A} username page per_page k.
Arguments Await {A} promise k.

(** [do { const pageResult = await this.searchCollection(...); ... }
    while (currentPage <= totalPages)], followed by [k]. *)
Fixpoint pageLoop {A} (fuel : nat) (username : string) (maxPages : Z) (st : LoopState)
    (k : LoopState -> Coroutine A) : Coroutine A :=
  match fuel with
  | O => StillRunning
  | S fuel' =>
      Start username (currentPage st) 100 (fun promise =>
        Await promise (fun answer =>
          match answer with
          | inl e => Throw e
          | inr pageResult =>
              let st' := afterPage maxPages st pageResult in
              if decide (currentPage st' <= totalPages st')
              then pageLoop fuel' username maxPages st' k
              else k st'
          end))
  end.

(** What follows the loop: the truncation test, its line, and the object
    returned. *)
Definition afterLoop (maxPages : Z) (st : LoopState)
  : Coroutine DiscogsCollectionResponse :=
  if wasTruncated st
  then ConsoleLog (truncatedLine maxPages (itemCount st)) (Return (aggregateOf st))
  else Return (aggregateOf st).

(** The closure handed to [getOrFetch]. *)
Definition closure (username : string) (maxPages : Z)
  : Coroutine DiscogsCollectionResponse :=
  ConsoleLog (fetchingLine username maxPages)
    (pageLoop (loopFuel maxPages) username maxPages initialLoopState (afterLoop maxPages)).

(** What the loop is not: the requests for three pages all made before
    the first answer is awaited, in the manner of [Promise.all]. *)
Definition fanOut (username : string) : Coroutine (list DiscogsCollectionItem) :=
  Start username 1 100 (fun p1 =>
  Start username 2 100 (fun p2 =>
  Start username 3 100 (fun p3 =>
  Await p1 (fun a1 =>
  Await p2 (fun a2 =>
  Await p3 (fun a3 =>
    match a1, a2, a3 with
    | inr r1, inr r2, inr r3 => Return (releases r1 ++ releases r2 ++ releases r3)
    | inl e, _, _ | _, inl e, _ | _, _, inl e => Throw e
    end)))))).

(** A promise: the page it was made for, and its answer once it is
    settled. *)
Record Promise := {
  askedPage : Z;
  answer : option (Error + DiscogsCollectionResponse)
}.

(** One coroutine and the promises it holds, with the traffic and the
    console output so far. *)
Record Runtime (A : Type) := {
  coroutine : Coroutine A;
  promises : list Promise;
  traffic : list Event;
  output : list string
}.

Arguments coroutine {A} r.
Arguments promises {A} r.
Arguments traffic {A} r.
Arguments output {A} r.

(** What can happen next: the scheduler resumes the coroutine for one
    step, or the answer to a request arrives and settles its promise. *)
Inductive Move :=
| Resume
| Settle (promise : nat) (a : Error + DiscogsCollectionResponse).

Definition answerEvent (page : Z) (a : Error + DiscogsCollectionResponse) : Event :=
  match a with
  | inr r => PageReceived page r
  | inl e => PageFailed page e
  end.

(** One move. A coroutine that awaits a promise not settled yet stays
    suspended; an answer for a promise that does not exist or is settled
    already is dropped. *)
Definition move {A} (r : Runtime A) (m : Move) : Runtime A :=
  match m with
  | Resume =>
      match coroutine r with
      | ConsoleLog line k =>
          {| coroutine := k; promises := promises r; traffic := traffic r;
             output := output r ++ [line] |}
      | Start username page per_page k =>
          {| coroutine := k (length (promises r));
             promises := promises r ++ [{| askedPage := page; answer := None |}];
             traffic := traffic r ++ [PageRequested username page per_page];
             output := output r |}
      | Await promise k =>
          match promises r !! promise with
          | Some p =>
              match answer p with
              | Some a =>
                  {| coroutine := k a; promises := promises r; traffic := traffic r;
                     output := output r |}
              | None => r
              end
          | None => r
          end
      | _ => r
      end
  | Settle promise a =>
      match promises r !! promise with
      | Some p =>
          match answer p with
          | None =>
              {| coroutine := coroutine r;
                 promises :=
                   <[promise := {| askedPage := askedPage p; answer := Some a |}]>
                     (promises r);
                 traffic := traffic r ++ [answerEvent (askedPage p) a];
                 output := output r |}
          | Some _ => r
          end
      | None => r
      end
  end.

Definition run {A} (r : Runtime A) (schedule : list Move) : Runtime A :=
  fold_left move schedule r.

Definition start {A} (c : Coroutine A) : Runtime A :=
  {| coroutine := c; promises := []; traffic := []; output := [] |}.

(** How a coroutine that has ended shows an outcome. *)
Definition ended {A} (o : Outcome A) : Coroutine A :=
  match o with
  | Fulfilled a => Return a
  | Rejected e => Throw e
  | Unsettled => StillRunning
  end.

(** A coroutine that makes no request. *)
Inductive Quiet {A} : Coroutine A -> Prop :=
| quiet_return a : Quiet (Return a)
| quiet_throw e : Quiet (Throw e)
| quiet_running : Quiet StillRunning
| quiet_log line k : Quiet k -> Quiet (ConsoleLog line k).

(** A coroutine that asks for the pages [c], [c + 1], ... of one user,
    100 items a page, and awaits each answer before it does anything
    else; after a refusal it makes no request. *)
Inductive Paging {A} (username : string) : Z -> Coroutine A -> Prop :=
| paging_quiet c k : Quiet k -> Paging username c k
| paging_log c line k : Paging username c k -> Paging username c (ConsoleLog line k)
| paging_start c k K :
    (forall promise, k promise = Await promise (K promise)) ->
    (forall promise e, Quiet (K promise (inl e))) ->
    (forall promise r, Paging username (c + 1) (K promise (inr r))) ->
    Paging username c (Start username c 100 k).

Definition settled (p : Promise) : Prop := answer p <> None.

(** Traffic that can still grow into a run of requests answered one at a
    time: [Served t c] when every request of [t] is answered and the next
    page to ask for is [c]. *)
Definition Served (username : string) (t : list Event) (c : Z) : Prop :=
  forall rest, OneAtATime username c rest -> OneAtATime username 1 (t ++ rest).

(** Where a runtime can be while the page loop runs: between two
    requests; suspended on the one promise that is not settled; about to
    be resumed with the answer; or past a refusal. *)
Inductive Paced {A} (username : string) (r : Runtime A) : Prop :=
| paced_idle c :
    Forall settled (promises r) ->
    Paging username c (coroutine r) ->
    Served username (traffic r) c ->
    Paced username r
| paced_waiting c ps K t :
    promises r = ps ++ [{| askedPage := c; answer := None |}] ->
    Forall settled ps ->
    coroutine r = Await (length ps) K ->
    (forall e, Quiet (K (inl e))) ->
    (forall resp, Paging username (c + 1) (K (inr resp))) ->
    traffic r = t ++ [PageRequested username c 100] ->
    Served username t c ->
    Paced username r
| paced_answered c ps K t a :
    promises r = ps ++ [{| askedPage := c; answer := Some a |}] ->
    Forall settled ps ->
    coroutine r = Await (length ps) K ->
    (forall e, Quiet (K (inl e))) ->
    (forall resp, Paging username (c + 1) (K (inr resp))) ->
    traffic r = t ++ [PageRequested username c 100; answerEvent c a] ->
    Served username t c ->
    Paced username r
| paced_refused :
    Forall settled (promises r) ->
    Quiet (coroutine r) ->
    OneAtATime username 1 (traffic r) ->
    Paced username r.

End Scheduling.

(** ** SmartCache.getOrFetch under concurrent callers *)

Module SingleFlight.

Definition Caller := nat.

(** Where the owner of a pending future stands: waiting for the store's
    answer (step 3), or waiting for the fetch function it invoked. *)
Inductive Phase := LookingUp | Fetching.

Section Machine.

Context {V : Type}.
Variable defaultTTL : string -> Z.

Record Entry := {
  value : V;
  expires : Z
}.

(** An entry of the pending registry: the future, with the callers that
    await it (the one that created it first), the freshness its result
    will be stored with, and whether the result is to be stored at all: it
    is not after a read of the store that failed. *)
Record PendingRequest := {
  phase : Phase;
  ttl : Z;
  caching : bool;
  awaiting : list Caller
}.

Record State := {
  store : gmap string Entry;
  clock : Z;
  registry : gmap string PendingRequest;
  invocations : list string;
  deliveries : list (Caller * string * (Error + V))
}.

(** What can happen next in one process instance: a caller enters
    [getOrFetch]; the store answers the lookup of a pending key, or fails
    to; the fetch function invoked for a key settles, [written] telling
    whether the write to the store that follows a success goes through;
    time passes. *)
Inductive Step :=
| Call (c : Caller) (category key : string) (maxAge : option Z)
| StoreAnswers (fullKey : string)
| StoreFails (fullKey : string)
| FetchSettles (fullKey : string) (r : Error + V) (written : bool)
| Tick (dt : N).

Definition freshValue (fullKey : string) (s : State) : option V :=
  match store s !! fullKey with
  | Some e => if decide (clock s < expires e) then Some (value e) else None
  | None => None
  end.

Definition settle (fullKey : string) (p : PendingRequest) (r : Error + V)
    (st : gmap string Entry) (s : State) : State :=
  {| store := st;
     clock := clock s;
     registry := delete fullKey (registry s);
     invocations := invocations s;
     deliveries := deliveries s ++ map (fun c => (c, fullKey, r)) (awaiting p) |}.

(** The fetch function is invoked for a key whose lookup is over. *)
Definition invoke (fullKey : string) (p : PendingRequest) (cached : bool) (s : State)
  : State :=
  {| store := store s; clock := clock s;
     registry :=
       <[fullKey := {| phase := Fetching; ttl := ttl p; caching := cached;
                       awaiting := awaiting p |}]> (registry s);
     invocations := invocations s ++ [fullKey];
     deliveries := deliveries s |}.

(** Modelled from the spec: [SmartCache.getOrFetch] of [utils/cache], which
    is not among the sources; section 4.2, steps 1 to 5, cut at its
    suspension points, with the store failures of sections 4.1, 7 and 9.
    An event that is not enabled leaves the state as it is. *)
Definition step (s : State) (ev : Step) : State :=
  match ev with
  | Call c category key maxAge =>
      let fullKey := fullKeyOf category key in
      let p :=
        match registry s !! fullKey with
        | Some p =>
            {| phase := phase p; ttl := ttl p; caching := caching p;
               awaiting := awaiting p ++ [c] |}
        | None =>
            {| phase := LookingUp;
               ttl := default (defaultTTL category) maxAge;
               caching := true;
               awaiting := [c] |}
        end in
      {| store := store s; clock := clock s;
         registry := <[fullKey := p]> (registry s);
         invocations := invocations s; deliveries := deliveries s |}
  | StoreAnswers fullKey =>
      match registry s !! fullKey with
      | Some p =>
          match phase p with
          | LookingUp =>
              match freshValue fullKey s with
              | Some v => settle fullKey p (inr v) (store s) s
              | None => invoke fullKey p true s
              end
          | Fetching => s
          end
      | None => s
      end
  | StoreFails fullKey =>
      match registry s !! fullKey with
      | Some p =>
          match phase p with
          | LookingUp => invoke fullKey p false s
          | Fetching => s
          end
      | None => s
      end
  | FetchSettles fullKey r written =>
      match registry s !! fullKey with
      | Some p =>
          match phase p with
          | Fetching =>
              let st :=
                match r with
                | inr v =>
                    if caching p && written
                    then <[fullKey := {| value := v; expires := clock s + ttl p |}]>
                           (store s)
                    else store s
                | inl _ => store s
                end in
              settle fullKey p r st s
          | LookingUp => s
          end
      | None => s
      end
  | Tick dt =>
      {| store := store s; clock := clock s + Z.of_N dt; registry := registry s;
         invocations := invocations s; deliveries := deliveries s |}
  end.

Definition exec (s : State) (evs : list Step) : State := fold_left step evs s.

(** The full key an event is about. *)
Definition keyOf (ev : Step) : option string :=
  match ev with
  | Call _ category key _ => Some (fullKeyOf category key)
  | StoreAnswers fullKey => Some fullKey
  | StoreFails fullKey => Some fullKey
  | FetchSettles fullKey _ _ => Some fullKey
  | Tick _ => None
  end.

(** The callers that entered [getOrFetch] for a full key, in order. *)
Definition callersOf (fullKey : string) (evs : list Step) : list Caller :=
  omap (fun ev =>
          match ev with
          | Call c category key _ =>
              if decide (fullKeyOf category key = fullKey) then Some c else None
          | _ => None
          end) evs.

(** No fetch for the key settles in the schedule. *)
Definition settleFree (fullKey : string) (evs : list Step) : Prop :=
  Forall (fun ev =>
            match ev with
            | FetchSettles k _ _ => k <> fullKey
            | _ => True
            end) evs.

(** The store neither answers nor fails the lookup of the key in the
    schedule. *)
Definition lookupFree (fullKey : string) (evs : list Step) : Prop :=
  Forall (fun ev =>
            match ev with
            | StoreAnswers k | StoreFails k => k <> fullKey
            | _ => True
            end) evs.

(** The fetch function invoked for the key has not settled yet. *)
Definition fetchInFlight (fullKey : string) (s : State) : Prop :=
  phase <$> registry s !! fullKey = Some Fetching.

(** How often the fetch function was invoked for a key. *)
Definition invokedFor (fullKey : string) (s : State) : nat :=
  length (filter (fun k => k = fullKey) (invocations s)).

(** What was delivered to the callers of a key. *)
Definition deliveredFor (fullKey : string) (s : State)
  : list (Caller * string * (Error + V)) :=
  filter (fun d => d.1.2 = fullKey) (deliveries s).

(** What holds of a key all along a window in which no fetch for it
    settles, when the window opened with the key not pending and [n0]
    invocations on record: the fetch function has been invoked once more
    if a fetch is in flight, and not at all otherwise. *)
Definition windowInv (fullKey : string) (n0 : nat) (s : State) : Prop :=
  match registry s !! fullKey with
  | None => invokedFor fullKey s = n0
  | Some p =>
      match phase p with
      | LookingUp => invokedFor fullKey s = n0
      | Fetching => invokedFor fullKey s = S n0
      end
  end.

(** The same window when the store has no fresh entry for the key:
    nothing is delivered for the key, and the callers [cs] that entered
    are exactly those awaiting the pending future. *)
Definition missWindow (fullKey : string) (n0 : nat)
    (d0 : list (Caller * string * (Error + V))) (cs : list Caller) (s : State) : Prop :=
  freshValue fullKey s = None /\
  deliveredFor fullKey s = d0 /\
  match registry s !! fullKey with
  | None => cs = [] /\ invokedFor fullKey s = n0
  | Some p =>
      awaiting p = cs /\
      match phase p with
      | LookingUp => invokedFor fullKey s = n0
      | Fetching => invokedFor fullKey s = S n0
      end
  end.

(** The window between the arrival of the first caller and the end of
    the lookup: the callers [cs] that entered await the pending future,
    nothing is delivered for the key and the fetch function has not been
    invoked; the entry the store holds for the key is the one it held,
    and the clock has not gone back. *)
Definition lookupWindow (fullKey : string) (s0 : State) (cs : list Caller) (s : State)
  : Prop :=
  store s !! fullKey = store s0 !! fullKey /\
  clock s0 <= clock s /\
  deliveredFor fullKey s = deliveredFor fullKey s0 /\
  invokedFor fullKey s = invokedFor fullKey s0 /\
  match registry s !! fullKey with
  | None => cs = []
  | Some p => awaiting p = cs /\ phase p = LookingUp
  end.

End Machine.

Arguments Entry V : clear implicits.
Arguments State V : clear implicits.
Arguments Step V : clear implicits.

(** A store that already holds a fresh aggregate for one key. *)
Definition warmState : State string :=
  {| store := {[ "collections:alice:complete:25"%string :=
                   {| value := "cached"%string; expires := 2700 |} ]};
     clock := 0;
     registry := ∅;
     invocations := [];
     deliveries := [] |}.

(** Two callers ask for that key before the store has answered the first. *)
Definition twoCallers : list (Step string) :=
  [ Call 0%nat "collections" "alice:complete:25" (Some 2700);
    Call 1%nat "collections" "alice:complete:25" (Some 2700);
    StoreAnswers "collections:alice:complete:25" ].

(** The same two callers, up to the moment the store answers. *)
Definition firstTwoCallers : list (Step string) :=
  [ Call 0%nat "collections" "alice:complete:25" (Some 2700);
    Call 1%nat "collections" "alice:complete:25" (Some 2700) ].

(** An empty store, and three callers for one key: two before the store
    has answered, one while the fetch is in flight. *)
Definition coldState : State string :=
  {| store := ∅; clock := 0; registry := ∅; invocations := []; deliveries := [] |}.

Definition threeCallers : list (Step string) :=
  [ Call 0%nat "collections" "alice:complete:25" (Some 2700);
    Call 1%nat "collections" "alice:complete:25" (Some 2700);
    StoreAnswers "collections:alice:complete:25";
    Call 2%nat "collections" "alice:complete:25" (Some 2700) ].

End SingleFlight.

(** ** Further definitions: what the statistics and the callers add *)

Module StatsMore.

(** The number a property stands for: a string counts for nothing. *)
Definition numberOf (v : JsValue) : Z :=
  match v with
  | JsNumber n => n
  | JsString _ => 0
  end.

(** [o[k] || 0], read as a count. *)
Definition countOf (o : JsObject) (k : string) : Z :=
  match Stats.ownProperty o k with
  | Some v => numberOf v
  | None => 0
  end.

(** The sum of the counts a breakdown holds. *)
Definition sumValues (o : JsObject) : Z :=
  Stats.sumZ (map (fun kv => numberOf kv.2) o).


(** Two objects with the same properties, whatever the order of their
    keys. *)
Definition sameProperties (o o' : JsObject) : Prop :=
  o ≡ₚ o' /\ forall k, Stats.ownProperty o k = Stats.ownProperty o' k.

(** Every property is a count of at least 1. *)
Definition allCounts (o : JsObject) : Prop :=
  Forall (fun kv => exists n, kv.2 = JsNumber n /\ 1 <= n) o.

(** The decade filter of the [get_recommendations] tool,
    [year && year >= decadeNum && year < decadeNum + 10], for the number
    [decadeNum] that [parseInt] made of the [decade] parameter. *)
Definition inDecade (decadeNum : Z) (item : DiscogsCollectionItem) : bool :=
  match Stats.truthyYear (year (basic_information item)) with
  | Some y => bool_decide (decadeNum <= y /\ y < decadeNum + 10)
  | None => false
  end.

Definition filterByDecade (decadeNum : Z) (rs : list DiscogsCollectionItem)
  : list DiscogsCollectionItem :=
  filter (fun item => inDecade decadeNum item = true) rs.

End StatsMore.

(** ** Cache keys built by the client *)

Module Keys.

Import Stdlib.Strings.Ascii.

(** Whether a character occurs in a string. *)
Fixpoint hasChar (c : ascii) (s : string) : bool :=
  match s with
  | EmptyString => false
  | String a s' => if decide (a = c) then true else hasChar c s'
  end.

(** [options.type] of [searchDatabase]. *)
Inductive SearchType := Release | Master | Artist | Label.

Definition searchTypeName (t : SearchType) : string :=
  match t with
  | Release => "release"
  | Master => "master"
  | Artist => "artist"
  | Label => "label"
  end.

(** The [options] of [searchDatabase]. *)
Record DatabaseOptions := {
  db_type : option SearchType;
  db_page : option Z;
  db_per_page : option Z
}.

(** [n || d] for an optional number: an absent number and 0 are falsy. *)
Definition orNumber (n : option Z) (d : Z) : Z :=
  match n with
  | Some x => if decide (x = 0) then d else x
  | None => d
  end.

(** [options.type || 'all'] *)
Definition effectiveType (o : DatabaseOptions) : string :=
  match db_type o with
  | Some t => searchTypeName t
  | None => "all"
  end.

(** [`${query}:${options.type || 'all'}:${options.page || 1}:${options.per_page || 50}`] *)
Definition searchDatabaseKey (query : string) (o : DatabaseOptions) : string :=
  query +:+ ":" +:+ effectiveType o +:+ ":" +:+
  pretty (orNumber (db_page o) 1) +:+ ":" +:+ pretty (orNumber (db_per_page o) 50).

End Keys.

(** ** The other methods of the cached client *)

(** [options.sort] and [options.sort_order] of [searchCollection]. *)
Inductive SortKey := SortAdded | SortArtist | SortTitle | SortYear.
Inductive SortOrder := Ascending | Descending.

(** The [options] of [searchCollection]. *)
Record CollectionOptions := {
  o_query : option string;
  o_page : option Z;
  o_per_page : option Z;
  o_sort : option SortKey;
  o_sort_order : option SortOrder
}.

(** What [getUserProfile] resolves to. *)
Record UserProfile := {
  profile_username : string;
  profile_id : Z
}.

Section ClientMore.

Context {U : Type}.

(** [this.client.searchCollection(username, ..., options, ...)], the
    uncached client behind the wrapper. *)
Variable clientSearchCollection :
  string -> CollectionOptions -> U -> (Error + DiscogsCollectionResponse) * U.

(** [CacheKeys.collectionSearch(username, query, page)] and
    [CacheKeys.collection(username, page, sort)] of [utils/cache]: the
    arguments are those the wrapper passes. *)
Variable collectionSearchKey : string -> string -> option Z -> string.
Variable collectionKey : string -> option Z -> string -> string.

Variable defaultTTL : string -> Z.

(** [this.searchCollection] and [this.getUserProfile] as
    [warmUserCache] calls them. *)
Variable searchCollection :
  string -> Z -> Z -> U -> (Error + DiscogsCollectionResponse) * U.
Variable getUserProfile : U -> (Error + UserProfile) * U.

Local Notation "'await' x <- c 'in' k" := (bind c (fun x => k))
  (at level 10, x name, c at level 100, k at level 200).
Local Notation "'perform' c 'in' k" := (bind c (fun _ => k))
  (at level 10, c at level 100, k at level 200).

(** Awaiting a collaborator that works on its own state. *)
Definition awaitUpstream {A} (f : U -> (Error + A) * U) : M U A :=
  fun w =>
    match f (upstream w) with
    | (inr a, u) => (Fulfilled a, setUpstream u w)
    | (inl e, u) => (Rejected e, setUpstream u w)
    end.

(** [if (options.query)]: an absent query and the empty string are falsy. *)
Definition truthyQuery (q : option string) : option string :=
  match q with
  | Some s => if decide (s = "") then None else Some s
  | None => None
  end.

Definition sortName (s : option SortKey) : string :=
  match s with
  | Some SortAdded => "added"
  | Some SortArtist => "artist"
  | Some SortTitle => "title"
  | Some SortYear => "year"
  | None => "default"
  end.

Definition sortOrderName (s : option SortOrder) : string :=
  match s with
  | Some Ascending => "asc"
  | Some Descending => "desc"
  | None => "desc"
  end.

(** [`${options.sort || 'default'}:${options.sort_order || 'desc'}`] *)
Definition sortLabel (o : CollectionOptions) : string :=
  sortName (o_sort o) +:+ ":" +:+ sortOrderName (o_sort_order o).

(** [CachedDiscogsClient.searchCollection]: a query goes to the
    [searches] category with its default freshness, browsing goes to
    [collections] with 20 minutes. *)
Definition cachedSearchCollection (username : string) (options : CollectionOptions)
  : M U DiscogsCollectionResponse :=
  match truthyQuery (o_query options) with
  | Some q =>
      getOrFetch defaultTTL "searches"
        (collectionSearchKey username q (o_page options))
        (awaitUpstream (clientSearchCollection username options)) None
  | None =>
      getOrFetch defaultTTL "collections"
        (collectionKey username (o_page options) (sortLabel options))
        (awaitUpstream (clientSearchCollection username options)) (Some (20 * 60))
  end.

Definition setEntries (es : gmap string CacheEntry) (w : World U) : World U :=
  {| upstream := upstream w; trace := trace w; console := console w;
     entries := es; pendingRequests := pendingRequests w; now := now w;
     storeFailures := storeFailures w |}.

(** Modelled from the spec: [SmartCache.invalidate] of [utils/cache], which
    is not among the sources; it deletes every entry of the store whose
    key starts with the prefix and leaves the pending registry alone. *)
Definition invalidate (prefix : string) : M U unit :=
  fun w =>
    (Fulfilled tt,
     setEntries (filter (fun kv => String.prefix prefix kv.1 = false) (entries w)) w).

(** [invalidateUserCache]: the three deletions of the [Promise.all], which
    commute, in the order they are listed. *)
Definition invalidateUserCache (username : string) : M U unit :=
  perform invalidate ("collections:" +:+ username) in
  perform invalidate ("searches:" +:+ username) in
  invalidate ("stats:" +:+ username).

(** [warmUserCache]: the [try] block, and the [catch] that logs the error
    and swallows it. *)
Definition warmUserCache (username : string) : M U unit :=
  fun w =>
    let attempt :=
      perform awaitSearchCollection searchCollection username 1 50 in
      perform awaitUpstream getUserProfile in
      log ("Cache warming completed for user: " +:+ username) in
    match attempt (logged ("Warming cache for user: " +:+ username) w) with
    | (Fulfilled _, w1) => (Fulfilled tt, w1)
    | (Rejected e, w1) =>
        (Fulfilled tt,
         logged ("Cache warming failed for user: " +:+ username +:+ ": " +:+ e) w1)
    | (Unsettled, w1) => (Unsettled, w1)
    end.

(** [getCompleteCollectionReleases]: the releases of the aggregate for the
    default cap of 25 pages. *)
Definition getCompleteCollectionReleases (username : string)
  : M U (list DiscogsCollectionItem) :=
  await collection <- getCompleteCollection searchCollection defaultTTL username 25 in
  ret (releases collection).

End ClientMore.

(** ** The singleton of the module *)

Module Singleton.

Section Instance.

(** The namespace a client is built over. *)
Context {KV : Type}.

(** A [CachedDiscogsClient]: its cache and the throttling of its inner
    client are both bound to the namespace given to the constructor. *)
Record CachedDiscogsClient := { boundTo : KV }.

Definition createCachedDiscogsClient (kv : KV) : CachedDiscogsClient :=
  {| boundTo := kv |}.

(** [getCachedDiscogsClient], with the module variable
    [cachedClientInstance] passed in and out. *)
Definition getCachedDiscogsClient (kv : KV) (cachedClientInstance : option CachedDiscogsClient)
  : CachedDiscogsClient * option CachedDiscogsClient :=
  match cachedClientInstance with
  | Some c => (c, Some c)
  | None => let c := createCachedDiscogsClient kv in (c, Some c)
  end.

(** The clients a run of calls returns, one call per namespace given. *)
Fixpoint callsReturn (kvs : list KV) (cachedClientInstance : option CachedDiscogsClient)
  : list CachedDiscogsClient :=
  match kvs with
  | [] => []
  | kv :: kvs' =>
      let '(c, inst) := getCachedDiscogsClient kv cachedClientInstance in
      c :: callsReturn kvs' inst
  end.

End Instance.

Arguments CachedDiscogsClient KV : clear implicits.

End Singleton.

(** ** What the tools and resources do with a collection *)

Module Tools.

Record DiscogsArtist := { artist_name : string }.

(** A collection item as the tools read it: [core] holds the rating and
    the fields of [basic_information] that the statistics use, the other
    fields are those the tools read besides. *)
Record CollectionRelease := {
  release_id : Z;
  instance_id : Z;
  date_added : string;
  title : string;
  artists : option (list DiscogsArtist);
  styles : option (list string);
  core : DiscogsCollectionItem
}.

(** [`${release.id}-${release.instance_id}`] *)
Definition releaseKey (r : CollectionRelease) : string :=
  pretty (release_id r) +:+ "-" +:+ pretty (instance_id r).

(** The two accumulators of the [search_collection] tool. *)
Record Merge := {
  seenReleaseIds : gset string;
  allResults : list CollectionRelease
}.

(** The body of the inner loop: a release whose key was not seen is
    remembered and pushed. *)
Definition addUnique (acc : Merge) (r : CollectionRelease) : Merge :=
  if decide (releaseKey r ∈ seenReleaseIds acc) then acc
  else {| seenReleaseIds := {[releaseKey r]} ∪ seenReleaseIds acc;
          allResults := allResults acc ++ [r] |}.

(** The two nested loops over the results of the search queries. *)
Definition mergeSearchResults (results : list (list CollectionRelease))
  : list CollectionRelease :=
  allResults
    (fold_left (fun acc rs => fold_left addUnique rs acc) results
       {| seenReleaseIds := ∅; allResults := [] |}).

(** What the merge keeps true: the set of seen keys is the set of keys
    of the results so far, and no key occurs twice among them. *)
Definition mergeInv (acc : Merge) : Prop :=
  (forall k, k ∈ seenReleaseIds acc <-> k ∈ map releaseKey (allResults acc)) /\
  NoDup (map releaseKey (allResults acc)).

End Tools.

(** ** Paging through the collection in the recommendations tool *)

Section Recommendations.

Context {U : Type}.

(** [client.searchCollection(username, ..., options, ...)] as the tools
    call it; with a cached client this is the method the page loop of
    [getCompleteCollection] calls too. *)
Variable searchWith :
  string -> CollectionOptions -> U -> (Error + DiscogsCollectionResponse) * U.

(** [{ page, per_page }], the page being left out in the first request. *)
Definition pageOptions (page : option Z) (per_page : Z) : CollectionOptions :=
  {| o_query := None; o_page := page; o_per_page := Some per_page;
     o_sort := None; o_sort_order := None |}.

(** The collaborator of the page loop, when its [searchCollection] is the
    one the tools call. *)
Definition pagesOf (username : string) (page per_page : Z)
  : U -> (Error + DiscogsCollectionResponse) * U :=
  searchWith username (pageOptions (Some page) per_page).

Local Notation "'await' x <- c 'in' k" := (bind c (fun x => k))
  (at level 10, x name, c at level 100, k at level 200).

(** [for (let page = 2; page <= fullCollection.pagination.pages; page++)],
    with [k] iterations left. *)
Fixpoint fetchRemaining (username : string) (k : nat) (page : Z)
    (allReleases : list DiscogsCollectionItem) : M U (list DiscogsCollectionItem) :=
  match k with
  | O => ret allReleases
  | S k' =>
      await pageResults <-
        awaitUpstream (searchWith username (pageOptions (Some page) 100)) in
      fetchRemaining username k' (page + 1) (allReleases ++ releases pageResults)
  end.

(** The pagination of [get_recommendations]: the first request names no
    page, its answer fixes the number of pages, and no cap applies. *)
Definition fetchWholeCollection (username : string) : M U (list DiscogsCollectionItem) :=
  await fullCollection <- awaitUpstream (searchWith username (pageOptions None 100)) in
  fetchRemaining username (Z.to_nat (pages (pagination fullCollection) - 1)) 2
    (releases fullCollection).

End Recommendations.

(** ** More samples *)

Module MoreSamples.

(** A release of the collection with the given identifiers. *)
Definition releaseWith (rid iid : Z) (name : string) : Tools.CollectionRelease :=
  {| Tools.release_id := rid;
     Tools.instance_id := iid;
     Tools.date_added := "2024-01-01T00:00:00-08:00";
     Tools.title := name;
     Tools.artists := Some [ {| Tools.artist_name := "Miles Davis" |} ];
     Tools.styles := None;
     Tools.core := Stats.exampleItem 1959 5 |}.

(** A source without state that holds [P] pages of [n] items and answers
    a request that names no page with page 1. *)
Definition bookSource (n : nat) (P : Z)
  : string -> CollectionOptions -> unit -> (Error + DiscogsCollectionResponse) * unit :=
  fun _ o u =>
    (inr (Samples.pageOf n P (default 1 (o_page o)) (default 50 (o_per_page o))), u).

(** A world with nothing recorded and a store about to fail as [fs]
    tells. *)
Definition worldWithFailures {U} (u : U) (fs : list bool) : World U :=
  setFailures fs (Samples.freshWorld u).

(** A profile collaborator that always answers. *)
Definition someProfile : nat -> (Error + UserProfile) * nat :=
  fun calls => (inr {| profile_username := "alice"; profile_id := 7 |}, S calls).

Definition browse (per : Z) : CollectionOptions :=
  {| o_query := None; o_page := Some 1; o_per_page := Some per;
     o_sort := None; o_sort_order := None |}.

(** An uncached client that answers with as many items as asked for. *)
Definition obligingClient
  : string -> CollectionOptions -> unit -> (Error + DiscogsCollectionResponse) * unit :=
  fun _ o u =>
    (inr (Samples.pageOf (Z.to_nat (default 50 (o_per_page o))) 3
            (default 1 (o_page o)) (default 50 (o_per_page o))), u).

(** A client that is down. *)
Definition deadClient
  : string -> CollectionOptions -> unit -> (Error + DiscogsCollectionResponse) * unit :=
  fun _ _ u => (inl "503 Service Unavailable"%string, u).

Definition plainKeys : string -> option Z -> string -> string :=
  fun username p sortLabel =>
    username +:+ ":" +:+ pretty (default 1 p) +:+ ":" +:+ sortLabel.

Definition plainSearchKeys : string -> string -> option Z -> string :=
  fun username q p => username +:+ ":" +:+ q +:+ ":" +:+ pretty (default 1 p).

End MoreSamples.

(** * Properties *)

(** ** The statistics pass *)

Section StatsFacts.

Import Stats.

Implicit Types (o : JsObject) (k : string) (ks : list string) (v : JsValue).
Implicit Types (rs : list DiscogsCollectionItem) (a : Acc).

Lemma occurrences_nil k : occurrences k [] = 0.
Proof. reflexivity. Qed.

Lemma occurrences_cons k k' ks :
  occurrences k (k' :: ks) = (if decide (k' = k) then 1 else 0) + occurrences k ks.
Proof.
  unfold occurrences. rewrite filter_cons.
  destruct (decide (k' = k)); simpl; lia.
Qed.


Lemma occurrences_nonneg k ks : 0 <= occurrences k ks.
Proof. unfold occurrences. lia. Qed.

Lemma occurrences_pos k ks : k ∈ ks -> 0 < occurrences k ks.
Proof.
  induction 1 as [k ks|k k' ks _ IH]; rewrite occurrences_cons.
  - pose proof (occurrences_nonneg k ks). case_decide; [lia|done].
  - destruct (decide (k' = k)); lia.
Qed.

Lemma occurrences_absent k ks : k ∉ ks -> occurrences k ks = 0.
Proof.
  induction ks as [|k' ks IH]; intros Hk; [done|].
  apply not_elem_of_cons in Hk as [Hne Hk].
  rewrite occurrences_cons, IH by done. case_decide; [congruence|lia].
Qed.

(** Reading back an assignment. *)
Lemma ownProperty_set o k' k v :
  ownProperty (setProperty o k' v) k =
    if decide (k' = k) then Some v else ownProperty o k.
Proof.
  induction o as [|[k0 v0] o IH]; cbn [setProperty ownProperty].
  - by destruct (decide (k' = k)).
  - destruct (decide (k0 = k')) as [->|Hne]; cbn [ownProperty].
    + by destruct (decide (k' = k)).
    + rewrite IH. destruct (decide (k0 = k)) as [->|]; [|done].
      destruct (decide (k' = k)); [congruence|done].
Qed.

(** The keys of an object after an assignment: a new key goes last. *)
Lemma keys_set o k v :
  map fst (setProperty o k v) =
    if decide (k ∈ map fst o) then map fst o else map fst o ++ [k].
Proof.
  induction o as [|[k0 v0] o IH]; cbn [setProperty map fst].
  - destruct (decide (k ∈ [])) as [Hin|_]; [by apply elem_of_nil in Hin|done].
  - destruct (decide (k0 = k)) as [->|Hne]; cbn [map fst].
    + destruct (decide (k ∈ k :: map fst o)) as [_|Hn]; [done|].
      destruct Hn. apply list_elem_of_here.
    + rewrite IH.
      destruct (decide (k ∈ map fst o)) as [Hin|Hnin];
        destruct (decide (k ∈ k0 :: map fst o)) as [Hin'|Hnin']; try done.
      * destruct Hnin'. by apply list_elem_of_further.
      * apply elem_of_cons in Hin' as [?|?]; congruence.
Qed.

Lemma ownProperty_bump o k' k :
  ownProperty (bump o k') k =
    if decide (k' = k) then afterBump k (ownProperty o k) else ownProperty o k.
Proof.
  unfold bump, afterBump, bumped.
  destruct (decide (k' = k)) as [->|Hne].
  - destruct (decide (k = "__proto__")); [done|].
    rewrite ownProperty_set. by destruct (decide (k = k)).
  - destruct (decide (k' = "__proto__")); [done|].
    rewrite ownProperty_set. by destruct (decide (k' = k)).
Qed.

Lemma keys_bump o k :
  map fst (bump o k) =
    if decide (k = "__proto__" \/ k ∈ map fst o) then map fst o else map fst o ++ [k].
Proof.
  unfold bump. destruct (decide (k = "__proto__")) as [->|Hne].
  - destruct (decide _) as [_|Hn]; [done|]. destruct Hn. by left.
  - rewrite keys_set.
    destruct (decide (k ∈ map fst o)) as [Hin|Hnin];
      destruct (decide (k = "__proto__" \/ k ∈ map fst o)) as [Hor|Hnor]; try done.
    + destruct Hnor. by right.
    + by destruct Hor.
Qed.

Lemma iter_shift {A} (f : A -> A) (n : nat) (x : A) :
  Nat.iter n f (f x) = f (Nat.iter n f x).
Proof.
  induction n as [|n IH]; [done|].
  change (f (Nat.iter n f (f x)) = f (f (Nat.iter n f x))). by rewrite IH.
Qed.

(** Counting a run of tags into an object moves the property of each key
    once for every time the key occurs in the run. *)
Lemma fold_bump_own ks o k :
  ownProperty (fold_left bump ks o) k =
    Nat.iter (length (filter (fun x => x = k) ks)) (afterBump k) (ownProperty o k).
Proof.
  revert o. induction ks as [|k' ks IH]; intros o; [done|].
  cbn [fold_left]. rewrite IH, ownProperty_bump, filter_cons.
  destruct (decide (k' = k)); [|done].
  cbn [length]. by rewrite iter_shift.
Qed.

(** For a key that [Object.prototype] does not know, the property is the
    count. *)
Lemma afterBump_plain k (n : nat) :
  inheritedText k = None ->
  Nat.iter n (afterBump k) None =
    match n with O => None | S _ => Some (JsNumber (Z.of_nat n)) end.
Proof.
  intros Hk.
  assert (Hne : k <> "__proto__"%string).
  { intros ->. by vm_compute in Hk. }
  induction n as [|n IH]; [done|].
  change (Nat.iter (S n) (afterBump k) None)
    with (afterBump k (Nat.iter n (afterBump k) None)).
  rewrite IH. unfold afterBump.
  destruct (decide (k = "__proto__")); [done|].
  destruct n as [|n].
  - by rewrite Hk.
  - cbn [plusOne orZero].
    destruct (decide (Z.of_nat (S n) = 0)); [lia|].
    cbn [plusOne]. do 2 f_equal. lia.
Qed.

Lemma fold_bump_empty ks k :
  inheritedText k = None ->
  ownProperty (fold_left bump ks []) k =
    if decide (k ∈ ks) then Some (JsNumber (occurrences k ks)) else None.
Proof.
  intros Hk. rewrite fold_bump_own. cbn [ownProperty].
  rewrite afterBump_plain by done. unfold occurrences.
  destruct (decide (k ∈ ks)) as [Hin|Hnin].
  - destruct (filter (fun x => x = k) ks) as [|x l] eqn:Hf; [|done].
    assert (k ∈ filter (fun x => x = k) ks) as Hin' by (by apply list_elem_of_filter).
    rewrite Hf in Hin'. by apply elem_of_nil in Hin'.
  - destruct (filter (fun x => x = k) ks) as [|x l] eqn:Hf; [done|].
    assert (x ∈ filter (fun x => x = k) ks) as Hin' by (rewrite Hf; apply list_elem_of_here).
    apply list_elem_of_filter in Hin' as [-> Hin']. done.
Qed.

(** The pass, field by field. *)
Lemma visit_all_genres rs a :
  genreBreakdown (stats (fold_left visit rs a)) =
    fold_left bump (genreTags rs) (genreBreakdown (stats a)).
Proof.
  revert a. induction rs as [|r rs IH]; intros a; [done|].
  simpl. rewrite IH. unfold genreTags. simpl. rewrite fold_left_app.
  unfold visit. by destruct (decide (0 < rating r)).
Qed.

Lemma visit_all_formats rs a :
  formatBreakdown (stats (fold_left visit rs a)) =
    fold_left bump (formatTags rs) (formatBreakdown (stats a)).
Proof.
  revert a. induction rs as [|r rs IH]; intros a; [done|].
  simpl. rewrite IH. unfold formatTags. simpl. rewrite fold_left_app.
  unfold visit. by destruct (decide (0 < rating r)).
Qed.

Lemma visit_all_labels rs a :
  labelBreakdown (stats (fold_left visit rs a)) =
    fold_left bump (labelTags rs) (labelBreakdown (stats a)).
Proof.
  revert a. induction rs as [|r rs IH]; intros a; [done|].
  simpl. rewrite IH. unfold labelTags. simpl. rewrite fold_left_app.
  unfold visit. by destruct (decide (0 < rating r)).
Qed.

Lemma visit_all_decades rs a :
  decadeBreakdown (stats (fold_left visit rs a)) =
    fold_left bump (map decadeKey (datedYears rs)) (decadeBreakdown (stats a)).
Proof.
  revert a. induction rs as [|r rs IH]; intros a; [done|].
  simpl. rewrite IH. unfold datedYears. simpl.
  unfold visit.
  destruct (decide (0 < rating r));
    destruct (truthyYear (year (basic_information r))); reflexivity.
Qed.

Lemma visit_all_fixed rs a :
  totalReleases (stats (fold_left visit rs a)) = totalReleases (stats a) /\
  totalValue (stats (fold_left visit rs a)) = totalValue (stats a).
Proof.
  revert a. induction rs as [|r rs IH]; intros a; [done|].
  simpl. destruct (IH (visit a r)) as [-> ->].
  unfold visit. by destruct (decide (0 < rating r)).
Qed.

Lemma visit_all_ratings rs a :
  totalRating (fold_left visit rs a) = totalRating a + sumZ (positiveRatings rs) /\
  ratedCount (fold_left visit rs a) =
    ratedCount a + Z.of_nat (length (positiveRatings rs)).
Proof.
  revert a. induction rs as [|r rs IH]; intros a.
  - simpl. unfold positiveRatings, sumZ. simpl. lia.
  - simpl. destruct (IH (visit a r)) as [-> ->].
    unfold positiveRatings. simpl. rewrite filter_cons.
    unfold visit. destruct (decide (0 < rating r)); simpl; lia.
Qed.

Lemma app_s_inj (s1 s2 : string) : s1 +:+ "s" = s2 +:+ "s" -> s1 = s2.
Proof.
  revert s2. induction s1 as [|c s1 IH]; intros [|d s2]; simpl; intros H.
  - done.
  - injection H as _ H. by destruct s2.
  - injection H as _ H. by destruct s1.
  - injection H as -> H. f_equal. by apply IH.
Qed.

Lemma decadeKey_eq y1 y2 : decadeKey y1 = decadeKey y2 <-> decadeOf y1 = decadeOf y2.
Proof.
  unfold decadeKey. split; [|by intros ->].
  intros H%app_s_inj. by apply (inj pretty) in H.
Qed.

Lemma occurrences_decadeKey y ys :
  occurrences (decadeKey y) (map decadeKey ys) =
    Z.of_nat (length (filter (fun y' => decadeOf y' = decadeOf y) ys)).
Proof.
  induction ys as [|y' ys IH]; [done|].
  simpl map. rewrite occurrences_cons, IH, filter_cons.
  destruct (decide (decadeKey y' = decadeKey y)) as [He|Hne].
  - destruct (decide (decadeOf y' = decadeOf y)) as [_|Hd]; [simpl; lia|].
    by apply decadeKey_eq in He.
  - destruct (decide (decadeOf y' = decadeOf y)) as [Hd|_]; [|lia].
    by apply decadeKey_eq in Hd.
Qed.

Lemma lastChar_s (s : string) : lastChar (s +:+ "s") = lastChar "s".
Proof.
  induction s as [|c s IH]; [done|].
  change (String c s +:+ "s") with (String c (s +:+ "s")).
  cbn [lastChar]. rewrite IH. by destruct (s +:+ "s").
Qed.

(** No member of [Object.prototype] has a name that ends in "s": a decade
    key never reads as one. *)
Lemma inheritedText_s (s : string) : inheritedText (s +:+ "s") = None.
Proof.
  pose proof (lastChar_s s) as Hlast.
  unfold inheritedText.
  destruct (decide (s +:+ "s" = "__proto__")) as [He|_].
  { rewrite He in Hlast. by vm_compute in Hlast. }
  cbn [prototypeFunctions functionNamed].
  repeat (destruct (decide _) as [He|_];
          [rewrite <- He in Hlast; by vm_compute in Hlast|]).
  done.
Qed.

Lemma inheritedText_decadeKey y : inheritedText (decadeKey y) = None.
Proof. apply inheritedText_s. Qed.

(** C7. For every item list, computeStats returns totalItems equal to the
    length of the list, ratedItemCount equal to the number of items whose
    rating is strictly positive, and averageRating equal to the sum of those
    positive ratings divided by their count, 0 when no item has a positive
    rating. On the two items of the worked example (ratings 5 and 4) it
    returns totalItems 2, averageRating 9/2 = 4.5 and ratedItemCount 2. *)
Theorem computeStats_totals_and_average rs :
  let s := computeStatsFromReleases rs in
  let rated := positiveRatings rs in
  totalReleases s = Z.of_nat (length rs) /\
  ratedReleases s = Z.of_nat (length rated) /\
  Forall (fun r => 0 < r) rated /\
  averageRating s =
    (if decide (rated = [])
     then 0%Q
     else (inject_Z (sumZ rated) / inject_Z (Z.of_nat (length rated)))%Q) /\
  (let e := computeStatsFromReleases exampleItems in
   totalReleases e = 2 /\ averageRating e = (9 # 2)%Q /\ ratedReleases e = 2).
Proof.
  intros s rated. subst s rated. unfold computeStatsFromReleases. cbn [totalReleases ratedReleases averageRating].
  destruct (visit_all_fixed rs {| stats := initialStats rs; totalRating := 0; ratedCount := 0 |})
    as [-> _].
  destruct (visit_all_ratings rs {| stats := initialStats rs; totalRating := 0; ratedCount := 0 |})
    as [-> ->].
  cbn [stats totalRating ratedCount initialStats totalReleases].
  split; [done|]. split; [lia|]. split; [|split; [|by vm_compute]].
  - unfold positiveRatings. apply Forall_forall. intros r Hr.
    by apply list_elem_of_filter in Hr as [? _].
  - destruct (positiveRatings rs) as [|r rated] eqn:E.
    + simpl. by destruct (decide (@nil Z = [])).
    + destruct (decide (r :: rated = [])) as [?|_]; [done|].
      destruct (decide (0 < 0 + Z.of_nat (length (r :: rated)))) as [_|Hn];
        [|simpl in Hn; lia].
      by rewrite !Z.add_0_l.
Qed.

(** C10. For every input item list, the statistics returned by
    computeStats have totalValue equal to 0: the field is initialised to
    zero and no step of the pass writes it. *)
Theorem computeStats_totalValue_zero rs :
  totalValue (computeStatsFromReleases rs) = 0.
Proof.
  unfold computeStatsFromReleases. cbn [totalValue].
  by destruct (visit_all_fixed rs
                 {| stats := initialStats rs; totalRating := 0; ratedCount := 0 |})
    as [_ ->].
Qed.

(** C8, as stated, fails: a release whose year is 0 passes through the
    pass without any decade bucket being incremented; the bucket its year
    would name, "0s", is absent and the decade breakdown stays empty. *)
Lemma unknown_year_has_no_decade :
  truthyYear (year (basic_information unknownYearItem)) = None /\
  decadeKey 0 = "0s"%string /\
  ownProperty (decadeBreakdown (computeStatsFromReleases [unknownYearItem])) "0s" = None /\
  decadeBreakdown (computeStatsFromReleases [unknownYearItem]) = [].
Proof. repeat split; vm_compute; reflexivity. Qed.

(** A tag that names a member of [Object.prototype] is not counted: the
    inherited function is read in place of a count, so that two releases
    tagged "constructor" leave a string behind, and a tag "__proto__"
    leaves nothing at all. *)
Lemma prototype_names_are_not_counted :
  fold_left bump ["constructor"; "constructor"]%string [] =
    [("constructor", JsString "function Object() { [native code] }11")]%string /\
  fold_left bump ["__proto__"; "Rock"; "__proto__"]%string [] =
    [("Rock", JsNumber 1)]%string.
Proof. split; vm_compute; reflexivity. Qed.

(** C8, amended. For every item list, each genre, format-name and
    label-name count, for a value that does not name a member of
    Object.prototype, equals the number of tag occurrences of that value
    across all items (such a key is a property of the mapping exactly when
    it occurs as a tag), and every item whose year is present and non-zero
    increments the decade bucket named after floor(year/10)*10 followed by
    "s": the count of that bucket is the number of such items in the same
    decade. Items without a year, or with year 0, touch no decade
    bucket. *)
Theorem computeStats_breakdowns rs :
  let s := computeStatsFromReleases rs in
  (forall k,
     inheritedText k = None ->
     ownProperty (genreBreakdown s) k =
       if decide (k ∈ genreTags rs)
       then Some (JsNumber (occurrences k (genreTags rs))) else None) /\
  (forall k,
     inheritedText k = None ->
     ownProperty (formatBreakdown s) k =
       if decide (k ∈ formatTags rs)
       then Some (JsNumber (occurrences k (formatTags rs))) else None) /\
  (forall k,
     inheritedText k = None ->
     ownProperty (labelBreakdown s) k =
       if decide (k ∈ labelTags rs)
       then Some (JsNumber (occurrences k (labelTags rs))) else None) /\
  (forall y,
     y ∈ datedYears rs ->
     ownProperty (decadeBreakdown s) (decadeKey y) =
       Some (JsNumber
               (Z.of_nat (length (filter (fun y' => decadeOf y' = decadeOf y)
                                    (datedYears rs)))))) /\
  (forall k,
     k ∉ map decadeKey (datedYears rs) -> ownProperty (decadeBreakdown s) k = None).
Proof.
  intros s. subst s. unfold computeStatsFromReleases.
  cbn [genreBreakdown formatBreakdown labelBreakdown decadeBreakdown].
  rewrite visit_all_genres, visit_all_formats, visit_all_labels, visit_all_decades.
  cbn [stats initialStats genreBreakdown formatBreakdown labelBreakdown decadeBreakdown].
  split; [intros k Hk; by apply fold_bump_empty|].
  split; [intros k Hk; by apply fold_bump_empty|].
  split; [intros k Hk; by apply fold_bump_empty|].
  split.
  - intros y Hy. rewrite fold_bump_empty by apply inheritedText_decadeKey.
    destruct (decide (decadeKey y ∈ map decadeKey (datedYears rs))) as [_|Hn].
    + by rewrite occurrences_decadeKey.
    + exfalso. apply Hn. by apply list_elem_of_fmap_2.
  - intros k Hk. rewrite fold_bump_own. cbn [ownProperty].
    destruct (filter (fun x => x = k) (map decadeKey (datedYears rs))) as [|x l] eqn:Hf;
      [done|].
    assert (x ∈ filter (fun x => x = k) (map decadeKey (datedYears rs))) as Hin
      by (rewrite Hf; apply list_elem_of_here).
    apply list_elem_of_filter in Hin as [-> Hin]. done.
Qed.

Lemma computeStats_breakdowns_witness :
  ownProperty (genreBreakdown (computeStatsFromReleases exampleItems)) "Rock" =
    Some (JsNumber 2) /\
  ownProperty (formatBreakdown (computeStatsFromReleases exampleItems)) "Vinyl" =
    Some (JsNumber 2) /\
  ownProperty (labelBreakdown (computeStatsFromReleases exampleItems)) "Vinyl" = None /\
  ownProperty (decadeBreakdown (computeStatsFromReleases exampleItems)) "1960s" =
    Some (JsNumber 1) /\
  ownProperty (decadeBreakdown (computeStatsFromReleases exampleItems)) "1980s" = None.
Proof.
  destruct (computeStats_breakdowns exampleItems) as (Hg & Hf & Hl & Hd & Hn).
  split; [exact (Hg "Rock"%string eq_refl)|].
  split; [exact (Hf "Vinyl"%string eq_refl)|].
  split; [exact (Hl "Vinyl"%string eq_refl)|].
  split.
  - apply (Hd 1969). apply list_elem_of_here.
  - apply (Hn "1980s"%string).
    apply (bool_decide_unpack _). vm_compute. exact I.
Defined.

End StatsFacts.

(** ** The page loop *)

Section LoopFacts.

Context {U : Type}.
Variable searchCollection :
  string -> Z -> Z -> U -> (Error + DiscogsCollectionResponse) * U.
Variable username : string.
Variable maxPages : Z.

Implicit Types (w : World U) (st : LoopState) (t : list Event).

Local Abbreviation body := (loopBody searchCollection username maxPages) (only parsing).
Local Abbreviation loop :=
  (fun fuel => doWhile searchCollection fuel username maxPages) (only parsing).
Local Abbreviation afterPage := (afterPage maxPages) (only parsing).

Lemma loopBody_unfold st w :
  body st w =
    match searchCollection username (currentPage st) 100 (upstream w) with
    | (inr r, u) =>
        (Fulfilled (afterPage st r),
         answered w u [PageRequested username (currentPage st) 100;
                       PageReceived (currentPage st) r])
    | (inl e, u) =>
        (Rejected e,
         answered w u [PageRequested username (currentPage st) 100;
                       PageFailed (currentPage st) e])
    end.
Proof.
  unfold loopBody, bind, awaitSearchCollection, ret, answered, record, setUpstream.
  cbn [upstream trace console entries pendingRequests now storeFailures].
  destruct (searchCollection username (currentPage st) 100 (upstream w)) as [[e|r] u];
    cbn [upstream trace console entries pendingRequests now storeFailures];
    by rewrite <- app_assoc.
Qed.

Lemma doWhile_unfold fuel st w :
  loop (S fuel) st w =
    match body st w with
    | (Fulfilled st', w') =>
        if decide (currentPage st' <= totalPages st')
        then loop fuel st' w'
        else (Fulfilled st', w')
    | (Rejected e, w') => (Rejected e, w')
    | (Unsettled, w') => (Unsettled, w')
    end.
Proof.
  cbn [doWhile]. unfold bind at 1.
  destruct (body st w) as [[st'| |] w']; try reflexivity.
  by destruct (decide (currentPage st' <= totalPages st')).
Qed.

(** The loop touches nothing but the collaborator and the trace, and what
    it adds to the trace is one request at a time. *)
Lemma doWhile_frame fuel st w :
  exists t,
    trace (loop fuel st w).2 = trace w ++ t /\
    OneAtATime username (currentPage st) t /\
    console (loop fuel st w).2 = console w /\
    entries (loop fuel st w).2 = entries w /\
    pendingRequests (loop fuel st w).2 = pendingRequests w /\
    now (loop fuel st w).2 = now w.
Proof.
  revert st w. induction fuel as [|fuel IH]; intros st w.
  - exists []. cbn. rewrite app_nil_r. repeat split. constructor.
  - rewrite doWhile_unfold, loopBody_unfold.
    destruct (searchCollection username (currentPage st) 100 (upstream w))
      as [[e|r] u].
    + eexists. cbn. repeat split. constructor.
    + destruct (decide (currentPage (afterPage st r) <= totalPages (afterPage st r))).
      * destruct (IH (afterPage st r)
                    (answered w u [PageRequested username (currentPage st) 100;
                                   PageReceived (currentPage st) r]))
          as (t & Ht & Hone & Hc & He & Hp & Hn).
        exists (PageRequested username (currentPage st) 100 ::
                PageReceived (currentPage st) r :: t).
        rewrite Ht, Hc, He, Hp, Hn. cbn. rewrite <- app_assoc.
        repeat split. by constructor.
      * eexists. cbn. repeat split. constructor. constructor.
Qed.

Lemma seqZ_step (m n : Z) : 0 <= n -> seqZ m (n + 1) = m :: seqZ (m + 1) n.
Proof.
  intros Hn. rewrite seqZ_cons by lia.
  by replace (Z.succ m) with (m + 1) by lia; replace (Z.pred (n + 1)) with n by lia.
Qed.

(** The loop does not use the store. *)
Lemma doWhile_storeFailures fuel st w :
  storeFailures (loop fuel st w).2 = storeFailures w.
Proof.
  revert st w. induction fuel as [|fuel IH]; intros st w; [done|].
  rewrite doWhile_unfold, loopBody_unfold.
  destruct (searchCollection username (currentPage st) 100 (upstream w))
    as [[e|r] u]; [done|].
  destruct (decide (currentPage (afterPage st r) <= totalPages (afterPage st r)));
    [|done].
  by rewrite IH.
Qed.

(** The pages the loop received are those the collaborator handed out,
    asked page after page from the state it was in. *)
Lemma doWhile_served fuel st w st' w' :
  loop fuel st w = (Fulfilled st', w') ->
  exists t,
    trace w' = trace w ++ t /\
    receivedPages t =
      pagesServed searchCollection username
        (seqZ (currentPage st) (Z.of_nat (length (receivedPages t)))) (upstream w).
Proof.
  revert st w. induction fuel as [|fuel IH]; intros st w; [done|].
  rewrite doWhile_unfold, loopBody_unfold.
  destruct (searchCollection username (currentPage st) 100 (upstream w))
    as [[e|r] u] eqn:Hans; [done|].
  destruct (decide (currentPage (afterPage st r) <= totalPages (afterPage st r)))
    as [Hgo|Hstop].
  - intros Hrun. apply IH in Hrun as (t & Ht & Hgot).
    exists (PageRequested username (currentPage st) 100 ::
            PageReceived (currentPage st) r :: t).
    cbn [answered trace upstream afterPage currentPage] in *.
    rewrite Ht, <- !app_assoc. split; [done|].
    cbn [receivedPages omap list_omap length]. fold (receivedPages t).
    rewrite Nat2Z.inj_succ, <- Z.add_1_r, seqZ_step by lia.
    cbn [pagesServed]. rewrite Hans. by rewrite <- Hgot.
  - intros [= <- <-].
    exists [PageRequested username (currentPage st) 100;
            PageReceived (currentPage st) r].
    cbn [answered trace]. split; [done|].
    cbn [receivedPages omap list_omap length].
    change (Z.of_nat 1) with (0 + 1). rewrite seqZ_step by lia.
    cbn [pagesServed]. by rewrite Hans.
Qed.

(** A refusal recorded by the loop is the loop's own outcome. *)
Lemma doWhile_failure fuel st w t p e :
  trace (loop fuel st w).2 = trace w ++ t ->
  PageFailed p e ∈ t ->
  (loop fuel st w).1 = Rejected e.
Proof.
  revert st w t. induction fuel as [|fuel IH]; intros st w t.
  - cbn. intros Ht Hin.
    rewrite <- (app_nil_r (trace w)) in Ht at 1.
    apply app_inv_head in Ht. subst t. by apply elem_of_nil in Hin.
  - rewrite doWhile_unfold, loopBody_unfold.
    destruct (searchCollection username (currentPage st) 100 (upstream w))
      as [[e'|r] u].
    + cbn. intros Ht%app_inv_head Hin. subst t.
      apply elem_of_cons in Hin as [?|Hin]; [done|].
      apply elem_of_cons in Hin as [Heq|Hin]; [by injection Heq as _ ->|].
      by apply elem_of_nil in Hin.
    + destruct (decide (currentPage (afterPage st r) <= totalPages (afterPage st r))).
      * intros Ht Hin.
        destruct (doWhile_frame fuel (afterPage st r)
                    (answered w u [PageRequested username (currentPage st) 100;
                                   PageReceived (currentPage st) r]))
          as (t' & Ht' & _).
        apply (IH _ _ t'); [done|].
        rewrite Ht' in Ht. cbn in Ht. rewrite <- app_assoc in Ht.
        apply app_inv_head in Ht. subst t. cbn in Hin.
        apply elem_of_cons in Hin as [?|Hin]; [done|].
        apply elem_of_cons in Hin as [?|Hin]; [done|]. done.
      * cbn. intros Ht%app_inv_head Hin. subst t.
        apply elem_of_cons in Hin as [?|Hin]; [done|].
        apply elem_of_cons in Hin as [?|Hin]; [done|].
        by apply elem_of_nil in Hin.
Qed.

(** What a loop that ran to its end has done: it received one page after
    the other from [currentPage] on, kept their items in that order, went
    on after a page exactly when the page's capped total allowed it, and
    left in [totalPages] the capped total of the last page. *)
Lemma doWhile_fulfilled fuel st w st' w' :
  loop fuel st w = (Fulfilled st', w') ->
  exists t r,
    let got := receivedPages t in
    trace w' = trace w ++ t /\
    last got = Some r /\
    totalPages st' = Z.min (pages (pagination r)) maxPages /\
    allReleases st' = allReleases st ++ concat (map releases got) /\
    requestedPages t = seqZ (currentPage st) (Z.of_nat (length got)) /\
    length (requestedPages t) = length got /\
    currentPage st' = currentPage st + Z.of_nat (length got) /\
    ~ currentPage st' <= totalPages st' /\
    (forall (i : nat) ri,
       got !! i = Some ri -> (S i < length got)%nat ->
       currentPage st + Z.of_nat i + 1 <= Z.min (pages (pagination ri)) maxPages) /\
    Forall (fun ri => exists p u u', searchCollection username p 100 u = (inr ri, u')) got.
Proof.
  revert st w. induction fuel as [|fuel IH]; intros st w; [done|].
  rewrite doWhile_unfold, loopBody_unfold.
  destruct (searchCollection username (currentPage st) 100 (upstream w))
    as [[e|r] u] eqn:Hans; [done|].
  destruct (decide (currentPage (afterPage st r) <= totalPages (afterPage st r)))
    as [Hgo|Hstop].
  - intros Hrun. apply IH in Hrun as (t & r' & Ht & Hlast & Htot & Hall & Hreq & Hlen & Hcur & Hend & Hmid & Hans').
    exists (PageRequested username (currentPage st) 100 ::
            PageReceived (currentPage st) r :: t), r'.
    cbn [receivedPages requestedPages omap list_omap] in *.
    fold (receivedPages t) in *. fold (requestedPages t) in *.
    cbn [afterPage currentPage allReleases totalPages trace answered] in *.
    rewrite Ht, <- !app_assoc. split; [done|].
    split. { destruct (receivedPages t); [done|exact Hlast]. }
    split; [done|].
    split. { rewrite Hall. cbn. by rewrite <- app_assoc. }
    split. { rewrite Hreq. cbn [length]. rewrite Nat2Z.inj_succ, <- Z.add_1_r.
             by rewrite seqZ_step by lia. }
    split. { cbn [length]. by rewrite Hlen. }
    split. { rewrite Hcur. cbn [length]. lia. }
    split; [done|].
    split; [|constructor; eauto].
    intros [|i] ri Hi Hlt; cbn in Hi.
    + injection Hi as <-. lia.
    + cbn [length] in Hlt. specialize (Hmid i ri Hi ltac:(lia)). lia.
  - intros [= <- <-].
    exists [PageRequested username (currentPage st) 100;
            PageReceived (currentPage st) r], r.
    cbn. rewrite app_nil_r. repeat split; try done; try lia.
    repeat constructor. eauto.
Qed.

(** The loop always leaves: whatever the collaborator answers,
    [loopFuel maxPages] iterations are more than it can use. *)
Lemma doWhile_settles fuel st w :
  maxPages - currentPage st < Z.of_nat fuel -> (0 < fuel)%nat ->
  (loop fuel st w).1 <> Unsettled.
Proof.
  revert st w. induction fuel as [|fuel IH]; intros st w Hfuel Hpos; [lia|].
  rewrite doWhile_unfold, loopBody_unfold.
  destruct (searchCollection username (currentPage st) 100 (upstream w))
    as [[e|r] u]; [done|].
  destruct (decide (currentPage (afterPage st r) <= totalPages (afterPage st r)))
    as [Hgo|Hstop]; [|done].
  cbn [afterPage currentPage totalPages] in Hgo.
  apply IH; cbn [afterPage currentPage]; lia.
Qed.

(** A collaborator that never refuses lets the loop run to its end. *)
Lemma doWhile_answered fuel st w :
  (forall p u, exists r u', searchCollection username p 100 u = (inr r, u')) ->
  maxPages - currentPage st < Z.of_nat fuel -> (0 < fuel)%nat ->
  exists st' w', loop fuel st w = (Fulfilled st', w').
Proof.
  intros Hok. revert st w. induction fuel as [|fuel IH]; intros st w Hfuel Hpos; [lia|].
  rewrite doWhile_unfold, loopBody_unfold.
  destruct (Hok (currentPage st) (upstream w)) as (r & u & ->).
  destruct (decide (currentPage (afterPage st r) <= totalPages (afterPage st r)))
    as [Hgo|Hstop]; [|by eauto].
  cbn [afterPage currentPage totalPages] in Hgo.
  apply IH; cbn [afterPage currentPage]; lia.
Qed.

Lemma fetchLoop_unfold w :
  fetchLoop searchCollection username maxPages w =
    loop (loopFuel maxPages) initialLoopState (logged (fetchingLine username maxPages) w).
Proof. reflexivity. Qed.

Lemma fetchAllPages_unfold w :
  fetchAllPages searchCollection username maxPages w =
    match fetchLoop searchCollection username maxPages w with
    | (Fulfilled st, w1) =>
        (Fulfilled (aggregateOf st),
         if wasTruncated st
         then logged (truncatedLine maxPages (itemCount st)) w1
         else w1)
    | (Rejected e, w1) => (Rejected e, w1)
    | (Unsettled, w1) => (Unsettled, w1)
    end.
Proof.
  unfold fetchAllPages. unfold bind at 1.
  destruct (fetchLoop searchCollection username maxPages w) as [[st| |] w1];
    try reflexivity.
  unfold bind. by destruct (wasTruncated st).
Qed.

(** If every page the loop received reports the same total, the loop
    received exactly that many pages, capped. *)
Lemma steady_count P st st' (got : list DiscogsCollectionResponse) :
  1 <= maxPages -> 1 <= P ->
  currentPage st = 1 ->
  got <> [] ->
  Forall (fun r => pages (pagination r) = P) got ->
  totalPages st' = Z.min P maxPages ->
  currentPage st' = currentPage st + Z.of_nat (length got) ->
  ~ currentPage st' <= totalPages st' ->
  (forall (i : nat) ri,
     got !! i = Some ri -> (S i < length got)%nat ->
     currentPage st + Z.of_nat i + 1 <= Z.min (pages (pagination ri)) maxPages) ->
  Z.of_nat (length got) = Z.min P maxPages.
Proof.
  intros Hmax HP Hc Hne HallP Htot Hcur Hend Hmid.
  destruct (length got) as [|[|n]] eqn:Hn.
  - by destruct got.
  - lia.
  - destruct (lookup_lt_is_Some_2 got n) as [ri Hri]; [lia|].
    specialize (Hmid n ri Hri ltac:(lia)).
    rewrite Forall_lookup in HallP. rewrite (HallP _ _ Hri) in Hmid. lia.
Qed.

(** The closure on a source that never refuses and reports [P] pages on
    every answer: which pages it asks for, and what it hands back. *)
Lemma fetchLoop_steady P w :
  1 <= maxPages -> 1 <= P ->
  (forall p u, exists r u',
     searchCollection username p 100 u = (inr r, u') /\ pages (pagination r) = P) ->
  exists st w1 t,
    fetchLoop searchCollection username maxPages w = (Fulfilled st, w1) /\
    trace w1 = trace w ++ t /\
    requestedPages t = seqZ 1 (Z.min P maxPages) /\
    length (requestedPages t) = Z.to_nat (Z.min P maxPages) /\
    length (receivedPages t) = Z.to_nat (Z.min P maxPages) /\
    Forall (fun r => exists p u u', searchCollection username p 100 u = (inr r, u'))
      (receivedPages t) /\
    allReleases st = concat (map releases (receivedPages t)) /\
    totalPages st = Z.min P maxPages.
Proof.
  intros Hmax HP Hsteady. rewrite fetchLoop_unfold.
  set (w0 := logged (fetchingLine username maxPages) w).
  destruct (doWhile_answered (loopFuel maxPages) initialLoopState w0)
    as (st & w1 & Hrun).
  { intros p u. destruct (Hsteady p u) as (r & u' & ? & _). eauto. }
  { unfold loopFuel. cbn [initialLoopState currentPage]. lia. }
  { unfold loopFuel. lia. }
  destruct (doWhile_fulfilled _ _ _ _ _ Hrun)
    as (t & r & Ht & Hlast & Htot & Hall & Hreq & Hlen & Hcur & Hend & Hmid & Hans).
  cbn zeta in *. cbn [initialLoopState currentPage allReleases] in *.
  assert (HallP : Forall (fun r => pages (pagination r) = P) (receivedPages t)).
  { eapply Forall_impl; [exact Hans|]. cbn. intros ri (p & u & u' & Hri).
    destruct (Hsteady p u) as (r0 & u0 & Hr0 & HP0). congruence. }
  assert (Hr : pages (pagination r) = P).
  { rewrite Forall_forall in HallP. apply HallP.
    rewrite last_Some in Hlast. destruct Hlast as (l' & ->). set_solver. }
  rewrite Hr in Htot.
  assert (Hcount : Z.of_nat (length (receivedPages t)) = Z.min P maxPages).
  { apply (steady_count P initialLoopState st); try done.
    intros Hnil. by rewrite Hnil in Hlast. }
  exists st, w1, t.
  split; [done|]. split; [done|].
  split; [by rewrite Hreq, Hcount|].
  split; [lia|]. split; [lia|]. done.
Qed.


(** The closure always settles: it is fulfilled or rejected, whatever the
    collaborator answers and whatever the cap. *)
Lemma fetchAllPages_settles w :
  (fetchAllPages searchCollection username maxPages w).1 <> Unsettled.
Proof.
  rewrite fetchAllPages_unfold, fetchLoop_unfold.
  pose proof (doWhile_settles (loopFuel maxPages) initialLoopState
                (logged (fetchingLine username maxPages) w)) as Hsettles.
  destruct (doWhile searchCollection (loopFuel maxPages) username maxPages
              initialLoopState (logged (fetchingLine username maxPages) w))
    as [[st| |] w1]; cbn [fst] in *; try done.
  intros _. apply Hsettles; [| |done].
  - unfold loopFuel. cbn [initialLoopState currentPage]. lia.
  - unfold loopFuel. lia.
Qed.

Lemma fetchAllPages_frame w :
  exists t,
    trace (fetchAllPages searchCollection username maxPages w).2 = trace w ++ t /\
    OneAtATime username 1 t /\
    entries (fetchAllPages searchCollection username maxPages w).2 = entries w /\
    pendingRequests (fetchAllPages searchCollection username maxPages w).2 =
      pendingRequests w /\
    now (fetchAllPages searchCollection username maxPages w).2 = now w.
Proof.
  rewrite fetchAllPages_unfold, fetchLoop_unfold.
  destruct (doWhile_frame (loopFuel maxPages) initialLoopState
              (logged (fetchingLine username maxPages) w))
    as (t & Ht & Hone & _ & He & Hp & Hn).
  exists t.
  destruct (doWhile searchCollection (loopFuel maxPages) username maxPages
              initialLoopState (logged (fetchingLine username maxPages) w))
    as [[st| |] w1]; cbn [snd] in *; try done.
  by destruct (wasTruncated st).
Qed.

Lemma fetchAllPages_storeFailures w :
  storeFailures (fetchAllPages searchCollection username maxPages w).2 = storeFailures w.
Proof.
  rewrite fetchAllPages_unfold, fetchLoop_unfold.
  pose proof (doWhile_storeFailures (loopFuel maxPages) initialLoopState
                (logged (fetchingLine username maxPages) w)) as Hf.
  destruct (doWhile searchCollection (loopFuel maxPages) username maxPages
              initialLoopState (logged (fetchingLine username maxPages) w))
    as [[st| |] w1]; cbn [snd] in *; try done.
  by destruct (wasTruncated st).
Qed.

(** A closed run of requests and answers never has two requests
    outstanding, and a request follows the answer to the page before. *)
Lemma oneAtATime_inFlight c t :
  OneAtATime username c t -> Forall (fun n => n = 0 \/ n = 1) (inFlight 0 t).
Proof.
  induction 1 as [c|c e|c r t _ IH]; cbn.
  - constructor.
  - repeat constructor; lia.
  - constructor; [lia|]. constructor; [lia|]. exact IH.
Qed.

Lemma oneAtATime_request c t pre u p pp post :
  OneAtATime username c t ->
  t = pre ++ PageRequested u p pp :: post ->
  (pre = [] /\ p = c) \/ exists pre' r, pre = pre' ++ [PageReceived (p - 1) r].
Proof.
  intros Hone. revert pre. induction Hone as [c|c e|c r t _ IH]; intros pre Ht.
  - by destruct pre.
  - destruct pre as [|x [|y pre]]; cbn in Ht.
    + injection Ht as _ <- _ _. by left.
    + by injection Ht.
    + injection Ht as _ _ Ht. by destruct pre.
  - destruct pre as [|x [|y pre]]; cbn in Ht.
    + injection Ht as _ <- _ _. by left.
    + by injection Ht.
    + injection Ht as <- <- Ht. right.
      destruct (IH _ Ht) as [[-> ->]|(pre' & r' & ->)].
      * exists [PageRequested username c 100], r.
        by replace (c + 1 - 1) with c by lia.
      * by exists (PageRequested username c 100 :: PageReceived c r :: pre'), r'.
Qed.

End LoopFacts.

(** ** getCompleteCollection *)

(** Registering a key and removing it again restores the registry. *)
Lemma registry_restored (k : string) (X : gset string) :
  k ∉ X -> ({[k]} ∪ X) ∖ {[k]} = X.
Proof.
  intros Hk. rewrite difference_union_distr_l_L, difference_diag_L, (left_id_L ∅ (∪)).
  apply difference_disjoint_L. by apply disjoint_singleton_r.
Qed.

Section Aggregate.

Context {U : Type}.
Variable searchCollection :
  string -> Z -> Z -> U -> (Error + DiscogsCollectionResponse) * U.
Variable username : string.
Variable maxPages : Z.

Implicit Types (w : World U) (t : list Event).

(** C3. For every identity, every maxPages >= 1 and every source that
    answers each request and reports P >= 1 total pages, the fetch closure
    of getCompleteCollection performs exactly min(P, maxPages) page
    fetches, for the pages 1, 2, ..., min(P, maxPages) in increasing order;
    the pages it receives are the pages the source hands out for those
    requests, and the items of the aggregate it returns are the
    concatenation of their item lists, in page order. *)
Theorem closure_fetches_capped_pages_in_order P w :
  1 <= maxPages -> 1 <= P ->
  (forall p u, exists r u',
     searchCollection username p 100 u = (inr r, u') /\ pages (pagination r) = P) ->
  exists agg w' t,
    let served :=
      pagesServed searchCollection username (seqZ 1 (Z.min P maxPages)) (upstream w) in
    fetchAllPages searchCollection username maxPages w = (Fulfilled agg, w') /\
    trace w' = trace w ++ t /\
    requestedPages t = seqZ 1 (Z.min P maxPages) /\
    length (requestedPages t) = Z.to_nat (Z.min P maxPages) /\
    length (receivedPages t) = Z.to_nat (Z.min P maxPages) /\
    receivedPages t = served /\
    length served = Z.to_nat (Z.min P maxPages) /\
    releases agg = concat (map releases served).
Proof.
  intros Hmax HP Hsteady.
  destruct (fetchLoop_steady searchCollection username maxPages P w Hmax HP Hsteady)
    as (st & w1 & t & Hrun & Ht & Hreq & Hlen & Hgot & _ & Hall & _).
  assert (Hserved :
    receivedPages t =
      pagesServed searchCollection username (seqZ 1 (Z.min P maxPages)) (upstream w)).
  { pose proof Hrun as Hrun'. rewrite fetchLoop_unfold in Hrun'.
    apply doWhile_served in Hrun' as (t' & Ht' & Hserved).
    cbn [logged trace upstream initialLoopState currentPage] in Ht', Hserved.
    rewrite Ht in Ht'. apply app_inv_head in Ht'. subst t'.
    rewrite Hserved at 1. rewrite Hgot. by rewrite Z2Nat.id by lia. }
  rewrite fetchAllPages_unfold, Hrun.
  eexists _, _, t. cbn zeta. split; [reflexivity|].
  split; [by destruct (wasTruncated st)|].
  split; [done|]. split; [done|]. split; [done|]. split; [done|].
  split; [by rewrite <- Hserved|].
  cbn [aggregateOf releases]. by rewrite <- Hserved.
Qed.

(** C6, amended. The closure always settles, and for every aggregate it
    returns, page is 1 and
    per_page and items both equal the number of concatenated items; pages
    is the total reported by the last page received, capped at maxPages.
    That number never exceeds the number of pages fetched, and equals it
    whenever maxPages >= 1 and every page received reported one and the
    same total P >= 1. *)
Theorem aggregate_pagination_rewritten w :
  (fetchAllPages searchCollection username maxPages w).1 <> Unsettled /\
  forall agg w',
  fetchAllPages searchCollection username maxPages w = (Fulfilled agg, w') ->
  exists t rl,
    let fetched := Z.of_nat (length (requestedPages t)) in
    trace w' = trace w ++ t /\
    last (receivedPages t) = Some rl /\
    length (receivedPages t) = length (requestedPages t) /\
    releases agg = concat (map releases (receivedPages t)) /\
    page (pagination agg) = 1 /\
    per_page (pagination agg) = Z.of_nat (length (releases agg)) /\
    items (pagination agg) = Z.of_nat (length (releases agg)) /\
    pages (pagination agg) = Z.min (pages (pagination rl)) maxPages /\
    pages (pagination agg) <= fetched /\
    (forall P,
       1 <= maxPages -> 1 <= P ->
       Forall (fun r => pages (pagination r) = P) (receivedPages t) ->
       pages (pagination agg) = fetched).
Proof.
  split; [apply fetchAllPages_settles|]. intros agg w'.
  rewrite fetchAllPages_unfold, fetchLoop_unfold.
  destruct (doWhile searchCollection (loopFuel maxPages) username maxPages
              initialLoopState (logged (fetchingLine username maxPages) w))
    as [[st| |] w1] eqn:Hrun; [|done|done].
  intros [= <- <-].
  destruct (doWhile_fulfilled _ _ _ _ _ _ _ _ Hrun)
    as (t & rl & Ht & Hlast & Htot & Hall & Hreq & Hlen & Hcur & Hend & Hmid & _).
  cbn zeta in *. cbn [initialLoopState currentPage allReleases] in *.
  exists t, rl. cbn zeta. rewrite Hlen.
  split; [by destruct (wasTruncated st)|].
  split; [done|]. split; [done|]. split; [done|]. split; [done|].
  split; [done|]. split; [done|]. split; [done|].
  cbn [aggregateOf pagination pages]. split; [lia|].
  intros P Hmax HP HallP.
  assert (Hrl : pages (pagination rl) = P).
  { rewrite Forall_forall in HallP. apply HallP.
    rewrite last_Some in Hlast. destruct Hlast as (l' & ->). set_solver. }
  rewrite Htot, Hrl. symmetry.
  eapply (steady_count maxPages P initialLoopState st (receivedPages t)); try done.
  - intros Hnil. by rewrite Hnil in Hlast.
  - by rewrite Hrl in Htot.
Qed.


Variable defaultTTL : string -> Z.

(** On a miss with no pending entry the fetch function runs under the
    registered key, and whatever the store does the call ends as the fetch
    function ends; when the fetch function is rejected nothing is written
    and the key is no longer pending. *)
Lemma getOrFetch_miss category key (fetchFn : M U DiscogsCollectionResponse) maxAge w :
  let fullKey := fullKeyOf category key in
  let call := getOrFetch defaultTTL category key fetchFn maxAge in
  fullKey ∉ pendingRequests w ->
  lookupFresh fullKey w = None ->
  exists w1,
    upstream w1 = upstream w /\ trace w1 = trace w /\ entries w1 = entries w /\
    now w1 = now w /\ pendingRequests w1 = {[fullKey]} ∪ pendingRequests w /\
    (call w).1 = (fetchFn w1).1 /\
    trace (call w).2 = trace (fetchFn w1).2 /\
    upstream (call w).2 = upstream (fetchFn w1).2 /\
    now (call w).2 = now (fetchFn w1).2 /\
    (forall e, (fetchFn w1).1 = Rejected e ->
       entries (call w).2 = entries (fetchFn w1).2 /\
       pendingRequests (call w).2 = pendingRequests (fetchFn w1).2 ∖ {[fullKey]}).
Proof.
  intros fullKey call Hpending Hmiss. subst call. unfold getOrFetch. fold fullKey.
  destruct (decide (fullKey ∈ pendingRequests w)) as [?|_]; [done|].
  unfold storeGet, storeOperation. cbn [setPending storeFailures].
  set (w0 := setPending ({[fullKey]} ∪ pendingRequests w) w).
  destruct (storeFailures w) as [|[|] fs].
  - change (lookupFresh fullKey w0) with (lookupFresh fullKey w).
    rewrite Hmiss. exists w0. do 5 (split; [reflexivity|]).
    destruct (fetchFn w0) as [[v| |] w2]; cbn [fst snd]; repeat split; try done.
    all: unfold storePut, storeOperation;
      destruct (storeFailures w2) as [|[|] fs2]; done.
  - exists (logged (degradedLine fullKey) (setFailures fs w0)).
    do 5 (split; [reflexivity|]).
    destruct (fetchFn _) as [[v| |] w2]; cbn [fst snd]; repeat split; done.
  - change (lookupFresh fullKey (setFailures fs w0)) with (lookupFresh fullKey w).
    rewrite Hmiss. exists (setFailures fs w0). do 5 (split; [reflexivity|]).
    destruct (fetchFn _) as [[v| |] w2]; cbn [fst snd]; repeat split; try done.
    all: unfold storePut, storeOperation;
      destruct (storeFailures w2) as [|[|] fs2]; done.
Qed.

(** The closure always begins by asking for page 1. *)
Lemma fetchAllPages_first_request w :
  exists rest,
    trace (fetchAllPages searchCollection username maxPages w).2 =
      trace w ++ PageRequested username 1 100 :: rest.
Proof.
  rewrite fetchAllPages_unfold, fetchLoop_unfold. unfold loopFuel.
  rewrite doWhile_unfold, loopBody_unfold.
  cbn [initialLoopState currentPage logged upstream].
  destruct (searchCollection username 1 100 (upstream w)) as [[e|r] u].
  - by eexists.
  - match goal with
    | |- context [doWhile ?f ?n ?u ?m ?st ?w0] =>
        destruct (doWhile_frame f u m n st w0) as (t & Ht & _);
        destruct (doWhile f n u m st w0) as [[st'| |] w'] eqn:Hrun
    end; cbn [snd] in Ht.
    all: destruct (decide _); cbn [snd].
    all: try (destruct (wasTruncated _)); cbn [logged trace answered] in *.
    all: try rewrite Ht; cbn [logged trace answered]; rewrite <- ?app_assoc;
      by eexists.
Qed.

(** A miss stays a miss as time goes by. *)
Lemma lookupFresh_elapse fullKey dt w :
  0 <= dt -> lookupFresh fullKey w = None -> lookupFresh fullKey (elapse dt w) = None.
Proof.
  unfold lookupFresh. cbn [elapse entries now]. intros Hdt.
  destruct (entries w !! fullKey) as [e|]; [|done].
  destruct (decide (now w < expiresAt e)).
  - intros ->. by destruct (decide (now w + dt < expiresAt e)).
  - intros _. destruct (decide (now w + dt < expiresAt e)); [lia|done].
Qed.

(** C4. On a miss, if the fetch of any page the loop asks for is refused,
    getCompleteCollection is rejected with that very error, nothing is
    written to the store (no partial aggregate under the aggregate's key,
    nor anything else by the cache), the registry entry is removed, and a
    later call for the same identity and maxPages asks for page 1 again
    instead of replaying the error. *)
Theorem refused_page_rejects_aggregate w t p e :
  let fullKey := fullKeyOf "collections" (completeKey username maxPages) in
  let call := getCompleteCollection searchCollection defaultTTL username maxPages in
  fullKey ∉ pendingRequests w ->
  lookupFresh fullKey w = None ->
  trace (call w).2 = trace w ++ t ->
  PageFailed p e ∈ t ->
  (call w).1 = Rejected e /\
  entries (call w).2 = entries w /\
  pendingRequests (call w).2 = pendingRequests w /\
  forall dt, 0 <= dt ->
    exists rest,
      trace (call (elapse dt (call w).2)).2 =
        trace (call w).2 ++ PageRequested username 1 100 :: rest.
Proof.
  intros fullKey call Hpending Hmiss Ht Hin. subst call. cbn beta in *.
  unfold getCompleteCollection in *.
  destruct (getOrFetch_miss "collections" (completeKey username maxPages)
              (fetchAllPages searchCollection username maxPages) (Some (45 * 60))
              w Hpending Hmiss)
    as (w1 & _ & Htr1 & Hen1 & Hnow1 & Hreg1 & Hout & Htr & _ & Hnow & Hrej).
  fold fullKey in Hreg1, Hrej.
  set (call := getOrFetch defaultTTL "collections" (completeKey username maxPages)
                 (fetchAllPages searchCollection username maxPages) (Some (45 * 60))) in *.
  destruct (fetchAllPages_frame searchCollection username maxPages w1)
    as (t1 & Ht1 & _ & He & Hp & Hn).
  assert (Hfail : (fetchAllPages searchCollection username maxPages w1).1 = Rejected e).
  { assert (Ht' : trace (fetchAllPages searchCollection username maxPages w1).2 =
                    trace w1 ++ t) by (by rewrite <- Htr, Htr1).
    revert Ht'. rewrite fetchAllPages_unfold, fetchLoop_unfold.
    pose proof (doWhile_failure searchCollection username maxPages (loopFuel maxPages)
                  initialLoopState (logged (fetchingLine username maxPages) w1) t p e)
      as Hfail.
    destruct (doWhile searchCollection (loopFuel maxPages) username maxPages
                initialLoopState (logged (fetchingLine username maxPages) w1))
      as [[st| |] w2]; cbn [fst snd] in *.
    - intros Ht'. enough (Fulfilled st = Rejected e) by done.
      apply Hfail; [|done]. by destruct (wasTruncated st).
    - intros Ht'. specialize (Hfail Ht' Hin). by injection Hfail as ->.
    - intros Ht'. by specialize (Hfail Ht' Hin). }
  destruct (Hrej e Hfail) as [Hen Hreg].
  assert (Hback : pendingRequests (call w).2 = pendingRequests w).
  { rewrite Hreg, Hp, Hreg1. by apply registry_restored. }
  split; [by rewrite Hout|]. split; [by rewrite Hen, He|]. split; [done|].
  intros dt Hdt.
  set (w3 := elapse dt (call w).2).
  assert (Hpending3 : fullKey ∉ pendingRequests w3).
  { cbn [w3 elapse pendingRequests]. by rewrite Hback. }
  assert (Hmiss3 : lookupFresh fullKey w3 = None).
  { apply lookupFresh_elapse; [done|].
    unfold lookupFresh in *. by rewrite Hen, He, Hen1, Hnow, Hn, Hnow1. }
  destruct (getOrFetch_miss "collections" (completeKey username maxPages)
              (fetchAllPages searchCollection username maxPages) (Some (45 * 60))
              w3 Hpending3 Hmiss3)
    as (w4 & _ & Htr4 & _ & _ & _ & _ & Htr' & _).
  fold call in Htr'.
  destruct (fetchAllPages_first_request w4) as (rest & Hrest).
  exists rest. by rewrite Htr', Hrest, Htr4.
Qed.

End Aggregate.

(** ** Concrete runs *)

Section Runs.

Import Samples.

(** When every page holds at most the 100 items asked for, the loop's
    truncation test is false however many pages the source reports. *)
Lemma truncation_test_never_fires {U}
    (searchCollection : string -> Z -> Z -> U -> (Error + DiscogsCollectionResponse) * U)
    username maxPages P (w : World U) :
  1 <= maxPages -> 1 <= P ->
  (forall p u, exists r u',
     searchCollection username p 100 u = (inr r, u') /\ pages (pagination r) = P /\
     (length (releases r) <= 100)%nat) ->
  exists st w1,
    fetchLoop searchCollection username maxPages w = (Fulfilled st, w1) /\
    wasTruncated st = false.
Proof.
  intros Hmax HP Hsteady.
  destruct (fetchLoop_steady searchCollection username maxPages P w Hmax HP)
    as (st & w1 & t & Hrun & _ & _ & _ & Hgot & Hans & Hall & Htot).
  { intros p u. destruct (Hsteady p u) as (r & u' & ? & ? & _). eauto. }
  exists st, w1. split; [done|].
  assert (Hsmall : Forall (fun r => (length (releases r) <= 100)%nat) (receivedPages t)).
  { eapply Forall_impl; [exact Hans|]. cbn. intros ri (p & u & u' & Hri).
    destruct (Hsteady p u) as (r0 & u0 & Hr0 & _ & Hlen). congruence. }
  assert (Hsum : forall l : list DiscogsCollectionResponse,
             Forall (fun r => (length (releases r) <= 100)%nat) l ->
             (length (concat (map releases l)) <= 100 * length l)%nat).
  { induction 1 as [|r l Hr _ IH]; cbn; [lia|]. rewrite length_app. lia. }
  specialize (Hsum _ Hsmall). rewrite <- Hall, Hgot in Hsum.
  unfold wasTruncated, itemCount, ceilDiv100. apply bool_decide_eq_false.
  rewrite Htot.
  destruct (decide (0 < Z.of_nat (length (allReleases st)))); [|lia].
  assert ((Z.of_nat (length (allReleases st)) + 99) / 100 <= Z.min P maxPages); [|lia].
  apply Z.lt_succ_r, Z.div_lt_upper_bound; lia.
Qed.

(** C2, at the input of the specification: a cap of 2 pages against a
    source that reports 5 pages of 100 items. The loop fetches pages 1 and
    2 and stops with [totalPages = 2]; the truncation test compares that
    with the 2 pages' worth of items received, so it is false although
    5 > 2, and no truncation line is logged; the object returned has the
    pagination fields alone. *)
Theorem two_of_five_pages_not_flagged :
  exists st w1 agg w',
    fetchLoop (steadySource 100 5) "alice" 2 (freshWorld tt) = (Fulfilled st, w1) /\
    requestedPages (trace w1) = [1; 2] /\
    totalPages st = 2 /\
    itemCount st = 200 /\
    wasTruncated st = false /\
    fetchAllPages (steadySource 100 5) "alice" 2 (freshWorld tt) = (Fulfilled agg, w') /\
    pagination agg = {| pages := 2; page := 1; per_page := 200; items := 200 |} /\
    console w' = [fetchingLine "alice" 2].
Proof.
  eexists _, _, _, _.
  split; [vm_compute; reflexivity|].
  split; [vm_compute; reflexivity|].
  split; [vm_compute; reflexivity|].
  split; [vm_compute; reflexivity|].
  split; [vm_compute; reflexivity|].
  split; [vm_compute; reflexivity|].
  split; vm_compute; reflexivity.
Qed.

(** C6, as stated, fails. Against a source that reports 0 total pages
    for an empty collection the closure fetches one page and returns
    pages = 0; against a source whose total drops from 3 to 1 while the
    loop runs it fetches two pages and returns pages = 1. *)
Lemma pages_field_is_not_the_fetch_count :
  (exists agg w',
     fetchAllPages (steadySource 0 0) "alice" 25 (freshWorld tt) = (Fulfilled agg, w') /\
     requestedPages (trace w') = [1] /\
     pages (pagination agg) = 0) /\
  (exists agg w',
     fetchAllPages shrinkingSource "alice" 25 (freshWorld tt) = (Fulfilled agg, w') /\
     requestedPages (trace w') = [1; 2] /\
     pages (pagination agg) = 1).
Proof.
  split; eexists _, _; (split; [vm_compute; reflexivity|]);
    split; vm_compute; reflexivity.
Qed.

Lemma closure_fetches_capped_pages_in_order_witness :
  exists agg w' t,
    fetchAllPages (steadySource 100 5) "alice" 2 (freshWorld tt) = (Fulfilled agg, w') /\
    trace w' = trace (freshWorld tt) ++ t /\
    requestedPages t = [1; 2] /\
    receivedPages t = [pageOf 100 5 1 100; pageOf 100 5 2 100] /\
    releases agg = releases (pageOf 100 5 1 100) ++ releases (pageOf 100 5 2 100).
Proof.
  destruct (closure_fetches_capped_pages_in_order (steadySource 100 5) "alice" 2 5
              (freshWorld tt))
    as (agg & w' & t & Hrun & Ht & Hreq & _ & _ & Hgot & _ & Hrel); [lia|lia| |].
  - intros p u. eexists _, _. split; reflexivity.
  - exists agg, w', t. split; [exact Hrun|]. split; [exact Ht|].
    split; [exact Hreq|]. split; [exact Hgot|].
    rewrite Hrel. vm_compute. reflexivity.
Defined.

Lemma aggregate_pagination_rewritten_witness :
  let agg := aggregateOf {| allReleases := replicate 300 plainItem;
                            currentPage := 4; totalPages := 3 |} in
  (fetchAllPages (steadySource 100 3) "alice" 25 (freshWorld tt)).1 = Fulfilled agg /\
  exists t rl,
    trace (fetchAllPages (steadySource 100 3) "alice" 25 (freshWorld tt)).2 = [] ++ t /\
    last (receivedPages t) = Some rl /\
    pages (pagination agg) = Z.min (pages (pagination rl)) 25 /\
    pages (pagination agg) = Z.of_nat (length (requestedPages t)).
Proof.
  cbn zeta. split; [vm_compute; reflexivity|].
  destruct (aggregate_pagination_rewritten (steadySource 100 3) "alice" 25 (freshWorld tt))
    as [_ Hagg].
  destruct (Hagg (aggregateOf {| allReleases := replicate 300 plainItem;
                                 currentPage := 4; totalPages := 3 |})
              (fetchAllPages (steadySource 100 3) "alice" 25 (freshWorld tt)).2)
    as (t & rl & Ht & Hlast & _ & _ & _ & _ & _ & Hpages & _ & Hsame).
  { vm_compute. reflexivity. }
  exists t, rl. split; [exact Ht|]. split; [exact Hlast|]. split; [exact Hpages|].
  apply (Hsame 3); [lia|lia|].
  assert (Hrun : trace (fetchAllPages (steadySource 100 3) "alice" 25 (freshWorld tt)).2 =
                   [] ++ [PageRequested "alice" 1 100; PageReceived 1 (pageOf 100 3 1 100);
                          PageRequested "alice" 2 100; PageReceived 2 (pageOf 100 3 2 100);
                          PageRequested "alice" 3 100; PageReceived 3 (pageOf 100 3 3 100)])
    by (vm_compute; reflexivity).
  rewrite Ht in Hrun. apply app_inv_head in Hrun. subst t.
  repeat constructor.
Defined.


Lemma refused_page_rejects_aggregate_witness :
  let call := getCompleteCollection (flakySource 1 100 3) noTTL "alice" 25 in
  (call (freshWorld 0%nat)).1 = Rejected "429 Too Many Requests"%string /\
  entries (call (freshWorld 0%nat)).2 = ∅ /\
  pendingRequests (call (freshWorld 0%nat)).2 = ∅ /\
  (call (call (freshWorld 0%nat)).2).1 =
    Fulfilled (aggregateOf {| allReleases := replicate 300 plainItem;
                              currentPage := 4; totalPages := 3 |}).
Proof.
  destruct (refused_page_rejects_aggregate (flakySource 1 100 3) "alice" 25 noTTL
              (freshWorld 0%nat)
              [PageRequested "alice" 1 100; PageReceived 1 (pageOf 100 3 1 100);
               PageRequested "alice" 2 100; PageFailed 2 "429 Too Many Requests"%string]
              2 "429 Too Many Requests"%string)
    as (Hout & Hent & Hpend & _).
  - cbn [freshWorld pendingRequests]. apply not_elem_of_empty.
  - reflexivity.
  - vm_compute. reflexivity.
  - do 3 apply list_elem_of_further. apply list_elem_of_here.
  - split; [exact Hout|]. split; [exact Hent|]. split; [exact Hpend|].
    vm_compute. reflexivity.
Defined.

End Runs.

(** ** The fetch closure under the scheduler *)

Section SchedulingFacts.

Import Scheduling.

Context {A : Type}.
Variable username : string.

Implicit Types (r : Runtime A) (m : Move) (c : Z) (t : list Event).

Lemma inFlight_app n t t' :
  exists n', inFlight n (t ++ t') = inFlight n t ++ inFlight n' t'.
Proof.
  revert n. induction t as [|ev t IH]; intros n; [by exists n|].
  destruct ev; cbn [app inFlight];
    match goal with |- context [inFlight ?k (t ++ t')] => destruct (IH k) as (n' & ->) end;
    by exists n'.
Qed.

Lemma served_nil : Served username [] 1.
Proof. by intros rest Hrest. Qed.

Lemma served_received t c resp :
  Served username t c ->
  Served username (t ++ [PageRequested username c 100; PageReceived c resp]) (c + 1).
Proof.
  intros Hserved rest Hrest. rewrite <- app_assoc. apply Hserved. by constructor.
Qed.

Lemma served_refused t c e :
  Served username t c ->
  OneAtATime username 1 (t ++ [PageRequested username c 100; PageFailed c e]).
Proof. intros Hserved. apply Hserved. constructor. Qed.

(** A quiet coroutine stays quiet, and makes no request. *)
Lemma quiet_resume r :
  Quiet (coroutine r) ->
  Quiet (coroutine (move r Resume)) /\
  promises (move r Resume) = promises r /\ traffic (move r Resume) = traffic r.
Proof.
  destruct r as [co ps tr out]. cbn [coroutine]. intros Hq.
  destruct Hq; cbn; repeat split; try done; by constructor.
Qed.

Lemma settled_lookup (ps : list Promise) (i : nat) p :
  Forall settled ps -> ps !! i = Some p -> exists a, answer p = Some a.
Proof.
  intros Hall Hp. rewrite Forall_lookup in Hall. specialize (Hall i p Hp).
  unfold settled in Hall. destruct (answer p) as [a|]; [by exists a|done].
Qed.

(** An answer that comes when every promise is settled changes nothing. *)
Lemma settle_dropped r i a : Forall settled (promises r) -> move r (Settle i a) = r.
Proof.
  intros Hall. unfold move.
  destruct (promises r !! i) as [p|] eqn:Hp; [|done].
  by destruct (settled_lookup _ _ _ Hall Hp) as (a' & ->).
Qed.

Lemma lookup_last_promise (ps : list Promise) p : (ps ++ [p]) !! length ps = Some p.
Proof. by rewrite lookup_app_r, Nat.sub_diag by lia. Qed.

Lemma insert_last_promise (ps : list Promise) p q :
  <[length ps := q]> (ps ++ [p]) = ps ++ [q].
Proof.
  replace (length ps) with (length ps + 0)%nat at 1 by lia.
  by rewrite insert_app_r.
Qed.

(** Every move keeps the runtime of a paging coroutine paced. *)
Lemma move_paced r m : Paced username r -> Paced username (move r m).
Proof.
  intros [c Hall Hpaging Hserved
         |c ps K t Hps Hall Hco Hquiet Hnext Htr Hserved
         |c ps K t a Hps Hall Hco Hquiet Hnext Htr Hserved
         |Hall Hq Hone].
  - destruct m as [|i a]; [|rewrite settle_dropped by done; by eapply paced_idle].
    inversion Hpaging as [c' k Hq Hc Hk|c' line k Hk Hc Hco|c' k K Hk Hquiet Hnext Hc Hco].
    + destruct (quiet_resume r Hq) as (Hq' & Hps' & Htr').
      eapply paced_idle; [by rewrite Hps'|by apply paging_quiet|by rewrite Htr'].
    + unfold move. rewrite <- Hco. by eapply paced_idle.
    + unfold move. rewrite <- Hco.
      eapply (paced_waiting _ _ c (promises r) (K (length (promises r))) (traffic r));
        cbn [promises coroutine traffic]; first [done|apply Hk].
  - destruct m as [|i a].
    + unfold move. rewrite Hco, Hps, lookup_last_promise. cbn [answer].
      by eapply paced_waiting.
    + destruct (decide (i = length ps)) as [->|Hne].
      * unfold move. rewrite Hps, lookup_last_promise. cbn [answer askedPage].
        rewrite insert_last_promise.
        eapply (paced_answered _ _ c ps K t a); cbn [promises coroutine traffic];
          try done.
        by rewrite Htr, <- app_assoc.
      * assert (move r (Settle i a) = r) as ->; [|by eapply paced_waiting].
        unfold move. rewrite Hps.
        destruct ((ps ++ [{| askedPage := c; answer := None |}]) !! i) as [p|] eqn:Hp;
          [|done].
        apply lookup_app_Some in Hp as [Hp|[Hge Hp]].
        -- by destruct (settled_lookup _ _ _ Hall Hp) as (a' & ->).
        -- destruct (i - length ps)%nat as [|j] eqn:Hj; [lia|].
           by destruct j.
  - assert (Hall' : Forall settled (promises r)).
    { rewrite Hps. apply Forall_app. split; [done|]. by repeat constructor. }
    destruct m as [|i a']; [|rewrite settle_dropped by done; by eapply paced_answered].
    unfold move. rewrite Hco, Hps, lookup_last_promise. cbn [answer].
    destruct a as [e|resp].
    + apply paced_refused; cbn [promises coroutine traffic].
      * by rewrite <- Hps.
      * apply Hquiet.
      * rewrite Htr. by apply served_refused.
    + eapply (paced_idle _ _ (c + 1)); cbn [promises coroutine traffic].
      * by rewrite <- Hps.
      * apply Hnext.
      * rewrite Htr. by apply served_received.
  - destruct m as [|i a]; [|rewrite settle_dropped by done; by apply paced_refused].
    destruct (quiet_resume r Hq) as (Hq' & Hps' & Htr').
    apply paced_refused; [by rewrite Hps'|done|by rewrite Htr'].
Qed.

Lemma run_paced r schedule : Paced username r -> Paced username (run r schedule).
Proof.
  revert r. induction schedule as [|m ms IH]; intros r Hr; [done|].
  cbn [run fold_left]. by apply IH, move_paced.
Qed.

(** The traffic of a paced runtime is the beginning of a run of requests
    answered one at a time. *)
Lemma paced_traffic r :
  Paced username r -> exists rest, OneAtATime username 1 (traffic r ++ rest).
Proof.
  intros [c Hall Hpaging Hserved
         |c ps K t Hps Hall Hco Hquiet Hnext Htr Hserved
         |c ps K t a Hps Hall Hco Hquiet Hnext Htr Hserved
         |Hall Hq Hone].
  - exists []. apply Hserved. constructor.
  - exists [PageFailed c EmptyString]. rewrite Htr, <- app_assoc.
    by apply served_refused.
  - exists []. rewrite app_nil_r, Htr. destruct a as [e|resp].
    + by apply served_refused.
    + pose proof (served_received t c resp Hserved [] (oneAtATime_end _ _)) as Hone.
      by rewrite app_nil_r in Hone.
  - exists []. by rewrite app_nil_r.
Qed.

Variable maxPages : Z.

Lemma afterLoop_quiet st : Quiet (afterLoop maxPages st).
Proof. unfold afterLoop. destruct (wasTruncated st); repeat constructor. Qed.

Lemma pageLoop_paging fuel st (k : LoopState -> Coroutine A) :
  (forall st', Quiet (k st')) ->
  Paging username (currentPage st) (pageLoop fuel username maxPages st k).
Proof.
  intros Hk. revert st. induction fuel as [|fuel IH]; intros st.
  - apply paging_quiet. constructor.
  - cbn [pageLoop].
    apply (paging_start username (currentPage st) _
             (fun promise answer =>
                match answer with
                | inl e => Throw e
                | inr pageResult =>
                    let st' := afterPage maxPages st pageResult in
                    if decide (currentPage st' <= totalPages st')
                    then pageLoop fuel username maxPages st' k
                    else k st'
                end)).
    + done.
    + intros _ e. constructor.
    + intros _ resp. cbn zeta.
      destruct (decide _).
      * apply (IH (afterPage maxPages st resp)).
      * apply paging_quiet, Hk.
Qed.

End SchedulingFacts.

Section ClosureUnderScheduler.

Import Scheduling.

Context {U : Type}.
Variable searchCollection :
  string -> Z -> Z -> U -> (Error + DiscogsCollectionResponse) * U.
Variable username : string.
Variable maxPages : Z.

Implicit Types (w : World U) (st : LoopState).

Lemma start_is_paced :
  Paced username (start (closure username maxPages)).
Proof.
  apply (paced_idle _ _ 1); cbn [start promises coroutine traffic].
  - constructor.
  - unfold closure. apply paging_log.
    apply (pageLoop_paging username maxPages (loopFuel maxPages) initialLoopState).
    apply afterLoop_quiet.
  - apply served_nil.
Qed.

(** One round of the loop under the scheduler: the request is made, its
    answer arrives, the coroutine is resumed with it. *)
Lemma await_round {A} user p (K : nat -> Error + DiscogsCollectionResponse -> Coroutine A)
    ps tr out a :
  run {| coroutine := Start user p 100 (fun promise => Await promise (K promise));
         promises := ps; traffic := tr; output := out |}
      [Resume; Settle (length ps) a; Resume] =
    {| coroutine := K (length ps) a;
       promises := ps ++ [{| askedPage := p; answer := Some a |}];
       traffic := tr ++ [PageRequested user p 100; answerEvent p a];
       output := out |}.
Proof.
  cbn [run fold_left]. unfold move at 3. cbn [coroutine promises traffic output].
  unfold move at 2. cbn [coroutine promises traffic output].
  rewrite lookup_last_promise. cbn [answer askedPage]. rewrite insert_last_promise.
  unfold move. cbn [coroutine promises traffic output].
  rewrite lookup_last_promise. cbn [answer]. by rewrite <- app_assoc.
Qed.

Lemma run_app {A} (r : Runtime A) ms ms' : run r (ms ++ ms') = run (run r ms) ms'.
Proof. unfold run. by rewrite fold_left_app. Qed.

(** The loop of the closure is the loop of the coroutine on the schedule
    where the collaborator answers each request while it is awaited. *)
Lemma doWhile_schedule {A} fuel st w ps tr out (k : LoopState -> Coroutine A) :
  exists schedule ps' t,
    trace (doWhile searchCollection fuel username maxPages st w).2 = trace w ++ t /\
    run {| coroutine := pageLoop fuel username maxPages st k;
           promises := ps; traffic := tr; output := out |} schedule =
      {| coroutine :=
           match (doWhile searchCollection fuel username maxPages st w).1 with
           | Fulfilled st' => k st'
           | Rejected e => Throw e
           | Unsettled => StillRunning
           end;
         promises := ps ++ ps'; traffic := tr ++ t; output := out |}.
Proof.
  revert st w ps tr. induction fuel as [|fuel IH]; intros st w ps tr.
  - exists [], [], []. cbn. by rewrite !app_nil_r.
  - rewrite doWhile_unfold, loopBody_unfold. cbn [pageLoop].
    destruct (searchCollection username (currentPage st) 100 (upstream w))
      as [[e|resp] u] eqn:Hans.
    + eexists [Resume; Settle (length ps) (inl e); Resume], _, _.
      cbn [fst snd answered trace]. split; [reflexivity|].
      by rewrite await_round.
    + destruct (decide (currentPage (afterPage maxPages st resp) <=
                        totalPages (afterPage maxPages st resp))) as [Hgo|Hstop].
      * destruct (IH (afterPage maxPages st resp)
                    (answered w u [PageRequested username (currentPage st) 100;
                                   PageReceived (currentPage st) resp])
                    (ps ++ [{| askedPage := currentPage st; answer := Some (inr resp) |}])
                    (tr ++ [PageRequested username (currentPage st) 100;
                            PageReceived (currentPage st) resp]))
          as (ms & ps' & t & Ht & Hrun).
        exists ([Resume; Settle (length ps) (inr resp); Resume] ++ ms),
          ({| askedPage := currentPage st; answer := Some (inr resp) |} :: ps'),
          (PageRequested username (currentPage st) 100 ::
           PageReceived (currentPage st) resp :: t).
        split.
        { rewrite Ht. cbn [answered trace]. by rewrite <- app_assoc. }
        rewrite run_app, await_round. cbn [answerEvent].
        destruct (decide _) as [_|?]; [|done].
        rewrite Hrun. by rewrite <- !app_assoc.
      * eexists [Resume; Settle (length ps) (inr resp); Resume], _, _.
        cbn [fst snd answered trace]. split; [reflexivity|].
        rewrite await_round. cbn [answerEvent].
        by destruct (decide _) as [?|_].
Qed.

(** The closure of the state-passing model is the coroutine on one of
    its schedules: same outcome, same traffic, same console output. *)
Lemma closure_is_a_schedule w :
  exists schedule,
    let r := run (start (closure username maxPages)) schedule in
    let done := fetchAllPages searchCollection username maxPages w in
    coroutine r = ended done.1 /\
    trace done.2 = trace w ++ traffic r /\
    console done.2 = console w ++ output r.
Proof.
  rewrite fetchAllPages_unfold, fetchLoop_unfold.
  set (w0 := logged (fetchingLine username maxPages) w).
  destruct (doWhile_schedule (loopFuel maxPages) initialLoopState w0 [] []
              [fetchingLine username maxPages] (afterLoop maxPages))
    as (ms & ps' & t & Ht & Hrun).
  destruct (doWhile_frame searchCollection username maxPages (loopFuel maxPages)
              initialLoopState w0) as (t' & _ & _ & Hconsole & _).
  destruct (doWhile searchCollection (loopFuel maxPages) username maxPages
              initialLoopState w0) as [[st| |] w1] eqn:Hloop; cbn [fst snd] in *.
  - exists ([Resume] ++ ms ++ (if wasTruncated st then [Resume] else [])). cbn zeta.
    rewrite !run_app.
    change (run (start (closure username maxPages)) [Resume])
      with {| coroutine := pageLoop (loopFuel maxPages) username maxPages
                             initialLoopState (afterLoop maxPages);
              promises := []; traffic := [];
              output := [fetchingLine username maxPages] |}.
    rewrite Hrun. unfold afterLoop.
    destruct (wasTruncated st);
      cbn [run fold_left move coroutine promises traffic output ended logged trace
           console app].
    + split; [done|]. split; [done|].
      rewrite Hconsole. cbn [w0 logged console]. by rewrite <- app_assoc.
    + split; [done|]. split; [done|]. by rewrite Hconsole.
  - exists (Resume :: ms). cbn zeta.
    change (Resume :: ms) with ([Resume] ++ ms).
    rewrite !run_app.
    change (run (start (closure username maxPages)) [Resume])
      with {| coroutine := pageLoop (loopFuel maxPages) username maxPages
                             initialLoopState (afterLoop maxPages);
              promises := []; traffic := [];
              output := [fetchingLine username maxPages] |}.
    rewrite Hrun. cbn [coroutine promises traffic output ended app].
    split; [done|]. split; [done|]. by rewrite Hconsole.
  - exists (Resume :: ms). cbn zeta.
    change (Resume :: ms) with ([Resume] ++ ms).
    rewrite !run_app.
    change (run (start (closure username maxPages)) [Resume])
      with {| coroutine := pageLoop (loopFuel maxPages) username maxPages
                             initialLoopState (afterLoop maxPages);
              promises := []; traffic := [];
              output := [fetchingLine username maxPages] |}.
    rewrite Hrun. cbn [coroutine promises traffic output ended app].
    split; [done|]. split; [done|]. by rewrite Hconsole.
Qed.

(** C5. Within the page loop of getCompleteCollection pages are fetched
    strictly one after the other. The closure is run as a coroutine under
    a scheduler that may resume it and deliver answers in any order and at
    any time: on every schedule no two page requests are ever outstanding
    together, and the request for a page other than the first comes
    directly after the answer to the page before it was received. The
    closure of the state-passing model is that coroutine on one of its
    schedules, and it always settles. *)
Theorem pages_fetched_one_at_a_time :
  (forall schedule,
     let r := run (start (closure username maxPages)) schedule in
     Forall (fun n => n = 0 \/ n = 1) (inFlight 0 (traffic r)) /\
     (forall pre u p pp post,
        traffic r = pre ++ PageRequested u p pp :: post ->
        (pre = [] /\ p = 1) \/
        exists pre' resp, pre = pre' ++ [PageReceived (p - 1) resp])) /\
  (forall w,
     (fetchAllPages searchCollection username maxPages w).1 <> Unsettled /\
     exists schedule,
       let r := run (start (closure username maxPages)) schedule in
       let done := fetchAllPages searchCollection username maxPages w in
       coroutine r = ended done.1 /\
       trace done.2 = trace w ++ traffic r /\
       console done.2 = console w ++ output r).
Proof.
  split.
  - intros schedule r.
    destruct (paced_traffic username r) as (rest & Hone).
    { apply run_paced, start_is_paced. }
    split.
    + pose proof (oneAtATime_inFlight username 1 _ Hone) as Hall.
      destruct (inFlight_app 0 (traffic r) rest) as (n' & Happ).
      rewrite Happ in Hall. by apply Forall_app in Hall as [? _].
    + intros pre u p pp post Heq.
      apply (oneAtATime_request username 1 (traffic r ++ rest) pre u p pp (post ++ rest));
        [done|].
      rewrite Heq. by rewrite <- app_assoc.
  - intros w. split; [apply fetchAllPages_settles|apply closure_is_a_schedule].
Qed.

End ClosureUnderScheduler.

(** The scheduler does not serialise requests by itself: a coroutine that
    starts three requests before it awaits the first has three of them
    outstanding. *)
Lemma fan_out_overlaps :
  let r := Scheduling.run (Scheduling.start (Scheduling.fanOut "alice"))
             [Scheduling.Resume; Scheduling.Resume; Scheduling.Resume] in
  requestedPages (Scheduling.traffic r) = [1; 2; 3] /\
  inFlight 0 (Scheduling.traffic r) = [1; 2; 3].
Proof. split; vm_compute; reflexivity. Qed.

(** ** Request coalescing *)

Section SingleFlightFacts.

Import SingleFlight.

Context {V : Type}.
Variable defaultTTL : string -> Z.

Implicit Types (s : State V) (ev : Step V) (evs : list (Step V)).
Implicit Types (fk k : string) (cs : list Caller) (r : Error + V).

Lemma invokedFor_snoc fk k (inv : list string) :
  length (filter (fun x => x = fk) (inv ++ [k])) =
    (length (filter (fun x => x = fk) inv) + if decide (k = fk) then 1 else 0)%nat.
Proof.
  rewrite filter_app, length_app. f_equal.
  rewrite filter_cons, filter_nil. by destruct (decide (k = fk)).
Qed.

Lemma delivered_other fk k r cs :
  k <> fk ->
  filter (fun d : Caller * string * (Error + V) => d.1.2 = fk)
    (map (fun c => (c, k, r)) cs) = [].
Proof.
  intros Hne. induction cs as [|c cs IH]; [done|].
  cbn [map]. rewrite filter_cons. cbn. by destruct (decide (k = fk)).
Qed.

Lemma delivered_same fk r cs :
  filter (fun d : Caller * string * (Error + V) => d.1.2 = fk)
    (map (fun c => (c, fk, r)) cs) = map (fun c => (c, fk, r)) cs.
Proof.
  induction cs as [|c cs IH]; [done|].
  cbn [map]. rewrite filter_cons. cbn.
  destruct (decide (fk = fk)); [by rewrite IH|done].
Qed.

(** An event about another key, or the passing of time, leaves everything
    recorded about [fk] as it is; the clock does not go back. *)
Lemma step_other fk s ev :
  keyOf ev <> Some fk ->
  registry (step defaultTTL s ev) !! fk = registry s !! fk /\
  store (step defaultTTL s ev) !! fk = store s !! fk /\
  invokedFor fk (step defaultTTL s ev) = invokedFor fk s /\
  deliveredFor fk (step defaultTTL s ev) = deliveredFor fk s /\
  clock s <= clock (step defaultTTL s ev).
Proof.
  unfold invokedFor, deliveredFor.
  destruct ev as [c category key maxAge|k|k|k r written|dt]; cbn [keyOf step]; intros Hk.
  - cbn. rewrite lookup_insert_ne by congruence. repeat split; lia.
  - assert (k <> fk) by congruence.
    destruct (registry s !! k) as [p|] eqn:Hp; [|repeat split; lia].
    destruct (phase p); [|repeat split; lia].
    destruct (freshValue k s) as [v|]; cbn.
    + rewrite lookup_delete_ne by done.
      rewrite filter_app, delivered_other, app_nil_r by done. repeat split; lia.
    + rewrite lookup_insert_ne by done. rewrite invokedFor_snoc.
      destruct (decide (k = fk)); [done|]. repeat split; lia.
  - assert (k <> fk) by congruence.
    destruct (registry s !! k) as [p|] eqn:Hp; [|repeat split; lia].
    destruct (phase p); [|repeat split; lia].
    cbn. rewrite lookup_insert_ne by done. rewrite invokedFor_snoc.
    destruct (decide (k = fk)); [done|]. repeat split; lia.
  - assert (k <> fk) by congruence.
    destruct (registry s !! k) as [p|] eqn:Hp; [|repeat split; lia].
    destruct (phase p); [repeat split; lia|].
    cbn. rewrite lookup_delete_ne by done.
    rewrite filter_app, delivered_other, app_nil_r by done.
    destruct r as [e|v]; [|destruct (caching p && written);
                            [rewrite lookup_insert_ne by done|]];
      repeat split; lia.
  - cbn. repeat split; lia.
Qed.

Lemma windowInv_step fk n0 s ev :
  (forall r written, ev <> FetchSettles fk r written) ->
  windowInv fk n0 s -> windowInv fk n0 (step defaultTTL s ev).
Proof.
  intros Hev Hinv.
  destruct (decide (keyOf ev = Some fk)) as [Hk|Hk].
  - destruct ev as [c category key maxAge|k|k|k r written|dt]; cbn [keyOf] in Hk;
      try injection Hk as Hk; try done.
    + unfold windowInv, invokedFor in *. cbn [step]. rewrite Hk.
      cbn. rewrite lookup_insert_eq.
      by destruct (registry s !! fk) as [p|].
    + subst k. unfold windowInv, invokedFor in *. cbn [step].
      destruct (registry s !! fk) as [p|] eqn:Hp; [|by rewrite Hp].
      destruct (phase p) eqn:Hph; [|by rewrite Hp, Hph].
      destruct (freshValue fk s) as [v|]; cbn.
      * by rewrite lookup_delete_eq.
      * rewrite lookup_insert_eq. cbn. rewrite invokedFor_snoc.
        destruct (decide (fk = fk)); [lia|done].
    + subst k. unfold windowInv, invokedFor in *. cbn [step].
      destruct (registry s !! fk) as [p|] eqn:Hp; [|by rewrite Hp].
      destruct (phase p) eqn:Hph; [|by rewrite Hp, Hph].
      cbn. rewrite lookup_insert_eq. cbn. rewrite invokedFor_snoc.
      destruct (decide (fk = fk)); [lia|done].
    + subst k. by destruct (Hev r written).
  - destruct (step_other fk s ev Hk) as (Hreg & _ & Hinvk & _).
    unfold windowInv. by rewrite Hreg, Hinvk.
Qed.

Lemma settleFree_cons fk ev evs :
  settleFree fk (ev :: evs) <->
  (forall r written, ev <> FetchSettles fk r written) /\ settleFree fk evs.
Proof.
  unfold settleFree. rewrite Forall_cons. split; intros [Hev Hevs]; split; try done.
  - intros r written ->. by apply Hev.
  - destruct ev as [| | |k r written|]; try done. intros ->. by apply (Hev r written).
Qed.

Lemma windowInv_exec fk n0 s evs :
  settleFree fk evs -> windowInv fk n0 s -> windowInv fk n0 (exec defaultTTL s evs).
Proof.
  revert s. induction evs as [|ev evs IH]; intros s Hfree Hinv; [done|].
  apply settleFree_cons in Hfree as [Hev Hfree].
  cbn. apply IH; [done|]. by apply windowInv_step.
Qed.

Lemma freshValue_later fk s s' :
  store s' !! fk = store s !! fk -> clock s <= clock s' ->
  freshValue fk s = None -> freshValue fk s' = None.
Proof.
  unfold freshValue. intros -> Hclock.
  destruct (store s !! fk) as [e|]; [|done].
  destruct (decide (clock s < expires e)); [done|]. intros _.
  destruct (decide (clock s' < expires e)); [lia|done].
Qed.

Lemma callersOf_cons fk ev evs :
  callersOf fk (ev :: evs) = callersOf fk [ev] ++ callersOf fk evs.
Proof.
  unfold callersOf. cbn [omap list_omap].
  by destruct ev as [c category key maxAge| | | |];
    try destruct (decide (fullKeyOf category key = fk)).
Qed.

Lemma callersOf_other fk ev : keyOf ev <> Some fk -> callersOf fk [ev] = [].
Proof.
  destruct ev as [c category key maxAge| | | |]; try done.
  cbn. intros Hk. destruct (decide (fullKeyOf category key = fk)); [congruence|done].
Qed.

Lemma missWindow_step fk n0 d0 cs s ev :
  (forall r written, ev <> FetchSettles fk r written) ->
  missWindow fk n0 d0 cs s ->
  missWindow fk n0 d0 (cs ++ callersOf fk [ev]) (step defaultTTL s ev).
Proof.
  intros Hev (Hmiss & Hdel & Hreg).
  destruct (decide (keyOf ev = Some fk)) as [Hk|Hk].
  - destruct ev as [c category key maxAge|k|k|k r written|dt]; cbn [keyOf] in Hk;
      try injection Hk as Hk; try done.
    + unfold missWindow, freshValue, deliveredFor, invokedFor in *.
      cbn [callersOf omap list_omap]. rewrite Hk.
      destruct (decide (fk = fk)); [|done].
      cbn [step]. rewrite Hk. cbn. rewrite lookup_insert_eq.
      split; [done|]. split; [done|].
      destruct (registry s !! fk) as [p|]; cbn.
      * destruct Hreg as [<- Hn]. by split.
      * destruct Hreg as [-> Hn]. by split.
    + subst k. cbn [callersOf omap list_omap]. rewrite app_nil_r.
      unfold missWindow, deliveredFor, invokedFor in *. cbn [step].
      destruct (registry s !! fk) as [p|] eqn:Hp; [|by rewrite Hp].
      destruct (phase p) eqn:Hph; [|by rewrite Hp, Hph].
      rewrite Hmiss. cbn. rewrite lookup_insert_eq. cbn.
      split; [exact Hmiss|]. split; [done|].
      destruct Hreg as [Hcs Hn]. split; [done|].
      rewrite invokedFor_snoc. destruct (decide (fk = fk)); [lia|done].
    + subst k. cbn [callersOf omap list_omap]. rewrite app_nil_r.
      unfold missWindow, deliveredFor, invokedFor in *. cbn [step].
      destruct (registry s !! fk) as [p|] eqn:Hp; [|by rewrite Hp].
      destruct (phase p) eqn:Hph; [|by rewrite Hp, Hph].
      cbn. rewrite lookup_insert_eq. cbn.
      split; [exact Hmiss|]. split; [done|].
      destruct Hreg as [Hcs Hn]. split; [done|].
      rewrite invokedFor_snoc. destruct (decide (fk = fk)); [lia|done].
    + subst k. by destruct (Hev r written).
  - destruct (step_other fk s ev Hk) as (Hreg' & Hst & Hinvk & Hdel' & Hclock).
    rewrite callersOf_other, app_nil_r by done.
    unfold missWindow. rewrite Hreg', Hinvk, Hdel'.
    split; [by eapply freshValue_later|]. by split.
Qed.

Lemma missWindow_exec fk n0 d0 cs s evs :
  settleFree fk evs ->
  missWindow fk n0 d0 cs s ->
  missWindow fk n0 d0 (cs ++ callersOf fk evs) (exec defaultTTL s evs).
Proof.
  revert s cs. induction evs as [|ev evs IH]; intros s cs Hfree Hinv.
  - cbn. by rewrite app_nil_r.
  - apply settleFree_cons in Hfree as [Hev Hfree].
    rewrite callersOf_cons, app_assoc. cbn [exec fold_left].
    apply IH; [done|]. by apply missWindow_step.
Qed.

Lemma exec_snoc s evs ev :
  exec defaultTTL s (evs ++ [ev]) = step defaultTTL (exec defaultTTL s evs) ev.
Proof. unfold exec. by rewrite fold_left_app. Qed.

Lemma lookupFree_cons fk ev evs :
  lookupFree fk (ev :: evs) <->
  (ev <> StoreAnswers fk /\ ev <> StoreFails fk) /\ lookupFree fk evs.
Proof.
  unfold lookupFree. rewrite Forall_cons. split; intros [Hev Hevs]; split; try done.
  - split; intros ->; by apply Hev.
  - destruct Hev as [Ha Hf]. destruct ev as [|k|k| |]; try done; intros ->; done.
Qed.

Lemma lookupWindow_step fk s0 cs s ev :
  ev <> StoreAnswers fk -> ev <> StoreFails fk ->
  lookupWindow fk s0 cs s ->
  lookupWindow fk s0 (cs ++ callersOf fk [ev]) (step defaultTTL s ev).
Proof.
  intros Ha Hf (Hst & Hclock & Hdel & Hinvk & Hreg).
  destruct (decide (keyOf ev = Some fk)) as [Hk|Hk].
  - destruct ev as [c category key maxAge|k|k|k r written|dt]; cbn [keyOf] in Hk;
      try injection Hk as Hk; try congruence.
    + unfold lookupWindow, deliveredFor, invokedFor in *.
      cbn [callersOf omap list_omap]. rewrite Hk.
      destruct (decide (fk = fk)); [|done].
      cbn [step]. rewrite Hk. cbn. rewrite lookup_insert_eq.
      split; [done|]. split; [done|]. split; [done|]. split; [done|].
      destruct (registry s !! fk) as [p|]; cbn.
      * destruct Hreg as [<- Hph]. by split.
      * by subst cs.
    + subst k. cbn [callersOf omap list_omap]. rewrite app_nil_r.
      unfold lookupWindow in *. cbn [step].
      destruct (registry s !! fk) as [p|] eqn:Hp.
      * destruct Hreg as [Hcs Hph]. rewrite Hph, Hp. by rewrite Hph.
      * by rewrite Hp.
  - destruct (step_other fk s ev Hk) as (Hreg' & Hst' & Hinvk' & Hdel' & Hclock').
    rewrite callersOf_other, app_nil_r by done.
    unfold lookupWindow. rewrite Hreg', Hst', Hinvk', Hdel'.
    split; [done|]. split; [lia|]. by split.
Qed.

Lemma lookupWindow_exec fk s0 cs s evs :
  lookupFree fk evs ->
  lookupWindow fk s0 cs s ->
  lookupWindow fk s0 (cs ++ callersOf fk evs) (exec defaultTTL s evs).
Proof.
  revert s cs. induction evs as [|ev evs IH]; intros s cs Hfree Hinv.
  - cbn. by rewrite app_nil_r.
  - apply lookupFree_cons in Hfree as [[Ha Hf] Hfree].
    rewrite callersOf_cons, app_assoc. cbn [exec fold_left].
    apply IH; [done|]. by apply lookupWindow_step.
Qed.

(** C1, amended. For every category and key, in one process instance:
    if the key is not pending when the first of any number of concurrent
    callers arrives, then for as long as no fetch for the key settles the
    fetch function is invoked at most once for it, whatever the store
    does. If moreover the store holds no fresh entry for the key, then at
    the moment the fetch in flight settles the fetch function has been
    invoked exactly once, every caller that entered in the meantime
    receives that fetch's result, and the pending entry is gone. If
    instead the store answers the lookup while the entry it held when the
    first caller arrived is fresh, every caller that entered up to then is
    served that entry's value, the fetch function is not invoked, and the
    pending entry is gone. *)
Theorem single_flight fk s evs :
  registry s !! fk = None ->
  settleFree fk evs ->
  (invokedFor fk (exec defaultTTL s evs) <= S (invokedFor fk s))%nat /\
  (freshValue fk s = None ->
   fetchInFlight fk (exec defaultTTL s evs) ->
   forall r written,
     let s' := exec defaultTTL s (evs ++ [FetchSettles fk r written]) in
     invokedFor fk s' = S (invokedFor fk s) /\
     deliveredFor fk s' =
       deliveredFor fk s ++ map (fun c => (c, fk, r)) (callersOf fk evs) /\
     registry s' !! fk = None) /\
  (lookupFree fk evs ->
   forall v,
     freshValue fk (exec defaultTTL s evs) = Some v ->
     let s' := exec defaultTTL s (evs ++ [StoreAnswers fk]) in
     (exists e, store s !! fk = Some e /\ value e = v) /\
     invokedFor fk s' = invokedFor fk s /\
     deliveredFor fk s' =
       deliveredFor fk s ++ map (fun c => (c, fk, inr v)) (callersOf fk evs) /\
     registry s' !! fk = None).
Proof.
  intros Hreg Hfree. split; [|split].
  - assert (Hinv : windowInv fk (invokedFor fk s) (exec defaultTTL s evs)).
    { apply windowInv_exec; [done|]. unfold windowInv. by rewrite Hreg. }
    unfold windowInv in Hinv.
    destruct (registry (exec defaultTTL s evs) !! fk) as [p|]; [destruct (phase p)|]; lia.
  - intros Hmiss Hflight r written s'. subst s'. rewrite exec_snoc.
    assert (Hinv : missWindow fk (invokedFor fk s) (deliveredFor fk s)
                     ([] ++ callersOf fk evs) (exec defaultTTL s evs)).
    { apply missWindow_exec; [done|]. unfold missWindow. by rewrite Hreg. }
    destruct Hinv as (_ & Hdel & Hpend). unfold fetchInFlight in Hflight.
    unfold invokedFor, deliveredFor in *. cbn [step].
    destruct (registry (exec defaultTTL s evs) !! fk) as [p|]; [|done].
    cbn in Hflight. injection Hflight as Hph. rewrite Hph in *.
    destruct Hpend as [Hcs Hn]. cbn.
    rewrite filter_app, delivered_same, Hdel, Hcs, lookup_delete_eq.
    destruct r as [e|v]; [done|]. by destruct (caching p && written).
  - intros Hlook v Hfresh s'. subst s'. rewrite exec_snoc.
    assert (Hinv : lookupWindow fk s ([] ++ callersOf fk evs) (exec defaultTTL s evs)).
    { apply lookupWindow_exec; [done|]. unfold lookupWindow. by rewrite Hreg. }
    destruct Hinv as (Hst & _ & Hdel & Hinvk & Hpend). cbn [app] in Hpend.
    split.
    { unfold freshValue in Hfresh. rewrite Hst in Hfresh.
      destruct (store s !! fk) as [e|]; [|done]. exists e. split; [done|].
      destruct (decide _); [|done]. by injection Hfresh. }
    unfold invokedFor, deliveredFor in *. cbn [step].
    destruct (registry (exec defaultTTL s evs) !! fk) as [p|] eqn:Hp.
    + destruct Hpend as [Hcs Hph]. rewrite Hph, Hfresh. cbn.
      rewrite filter_app, delivered_same, Hdel, Hcs, lookup_delete_eq. by split.
    + rewrite Hpend. cbn [map]. rewrite app_nil_r. by split.
Qed.

End SingleFlightFacts.

(** C1, as stated, fails when the store already holds a fresh entry: two
    callers ask for the same key before the first is answered, both
    receive the cached value, and the fetch function is not invoked. *)
Lemma warm_store_answers_without_fetch :
  let fk := "collections:alice:complete:25"%string in
  let s := SingleFlight.exec Samples.noTTL SingleFlight.warmState SingleFlight.twoCallers in
  SingleFlight.registry SingleFlight.warmState !! fk = None /\
  SingleFlight.settleFree fk SingleFlight.twoCallers /\
  SingleFlight.callersOf fk SingleFlight.twoCallers = [0%nat; 1%nat] /\
  SingleFlight.deliveries s = [(0%nat, fk, inr "cached"%string); (1%nat, fk, inr "cached"%string)] /\
  SingleFlight.registry s !! fk = None /\
  SingleFlight.invokedFor fk s = 0%nat.
Proof.
  cbn zeta. split; [done|]. split; [repeat constructor|].
  split; [vm_compute; reflexivity|]. split; [vm_compute; reflexivity|].
  split; vm_compute; reflexivity.
Qed.

Lemma single_flight_witness :
  let fk := "collections:alice:complete:25"%string in
  let s' := SingleFlight.exec Samples.noTTL SingleFlight.coldState
              (SingleFlight.threeCallers ++
               [SingleFlight.FetchSettles fk (inr "fresh"%string) true]) in
  let s2 := SingleFlight.exec Samples.noTTL SingleFlight.warmState
              (SingleFlight.firstTwoCallers ++ [SingleFlight.StoreAnswers fk]) in
  (SingleFlight.invokedFor fk s' = 1%nat /\
   SingleFlight.deliveredFor fk s' =
     [(0%nat, fk, inr "fresh"%string); (1%nat, fk, inr "fresh"%string);
      (2%nat, fk, inr "fresh"%string)] /\
   SingleFlight.registry s' !! fk = None) /\
  (SingleFlight.invokedFor fk s2 = 0%nat /\
   SingleFlight.deliveredFor fk s2 =
     [(0%nat, fk, inr "cached"%string); (1%nat, fk, inr "cached"%string)] /\
   SingleFlight.registry s2 !! fk = None).
Proof.
  cbn zeta. split.
  - destruct (single_flight Samples.noTTL "collections:alice:complete:25"
                SingleFlight.coldState SingleFlight.threeCallers)
      as (_ & Hexact & _).
    + reflexivity.
    + repeat constructor.
    + apply (Hexact eq_refl eq_refl (inr "fresh"%string) true).
  - destruct (single_flight Samples.noTTL "collections:alice:complete:25"
                SingleFlight.warmState SingleFlight.firstTwoCallers)
      as (_ & _ & Hhit).
    + reflexivity.
    + repeat constructor.
    + destruct (Hhit ltac:(repeat constructor) "cached"%string eq_refl)
        as (_ & Hn & Hd & Hr).
      split; [exact Hn|]. split; [exact Hd|exact Hr].
Defined.

(** ** More on the statistics pass *)

Section StatsMoreFacts.

Import Stats StatsMore.

Implicit Types (o : JsObject) (k : string) (ks : list string) (v : JsValue).
Implicit Types (rs : list DiscogsCollectionItem).

(** The pass in closed form: what each field holds once the loop is
    over. *)
Lemma computeStats_closed rs :
  computeStatsFromReleases rs =
    {| totalReleases := Z.of_nat (length rs);
       totalValue := 0;
       genreBreakdown := fold_left bump (genreTags rs) [];
       decadeBreakdown := fold_left bump (map decadeKey (datedYears rs)) [];
       formatBreakdown := fold_left bump (formatTags rs) [];
       labelBreakdown := fold_left bump (labelTags rs) [];
       averageRating :=
         if decide (0 < Z.of_nat (length (positiveRatings rs)))
         then (inject_Z (sumZ (positiveRatings rs)) /
               inject_Z (Z.of_nat (length (positiveRatings rs))))%Q
         else 0%Q;
       ratedReleases := Z.of_nat (length (positiveRatings rs)) |}.
Proof.
  unfold computeStatsFromReleases.
  rewrite visit_all_genres, visit_all_formats, visit_all_labels, visit_all_decades.
  destruct (visit_all_fixed rs
              {| stats := initialStats rs; totalRating := 0; ratedCount := 0 |})
    as [-> ->].
  destruct (visit_all_ratings rs
              {| stats := initialStats rs; totalRating := 0; ratedCount := 0 |})
    as [-> ->].
  cbn [stats initialStats totalRating ratedCount totalReleases totalValue
       genreBreakdown decadeBreakdown formatBreakdown labelBreakdown].
  by rewrite !Z.add_0_l.
Qed.

Lemma occurrences_perm k ks ks' : ks ≡ₚ ks' -> occurrences k ks = occurrences k ks'.
Proof. unfold occurrences. by intros ->. Qed.

(** An object whose keys are all different holds a pair exactly when the
    key reads as the value. *)
Lemma ownProperty_elem o k v :
  NoDup (map fst o) -> (k, v) ∈ o <-> ownProperty o k = Some v.
Proof.
  induction o as [|[k0 v0] o IH]; cbn [map fst ownProperty]; intros Hnd.
  - split; [intros Hin; by apply elem_of_nil in Hin|done].
  - apply NoDup_cons in Hnd as [Hk0 Hnd].
    destruct (decide (k0 = k)) as [->|Hne].
    + split.
      * intros Hin. apply elem_of_cons in Hin as [[= <-]|Hin]; [done|].
        destruct Hk0. by apply (list_elem_of_fmap_2 fst) in Hin.
      * intros [= <-]. apply list_elem_of_here.
    + rewrite <- IH by done. split.
      * intros Hin. apply elem_of_cons in Hin as [[= ? ?]|Hin]; [congruence|done].
      * intros Hin. by apply list_elem_of_further.
Qed.

Lemma entries_perm o o' :
  NoDup (map fst o) -> NoDup (map fst o') ->
  (forall k, ownProperty o k = ownProperty o' k) -> o ≡ₚ o'.
Proof.
  intros Hnd Hnd' Hsame. apply NoDup_Permutation.
  - by eapply NoDup_fmap_1.
  - by eapply NoDup_fmap_1.
  - intros [k v]. by rewrite !ownProperty_elem, Hsame.
Qed.

Lemma keys_bump_NoDup o k : NoDup (map fst o) -> NoDup (map fst (bump o k)).
Proof.
  intros Hnd. rewrite keys_bump. destruct (decide _) as [_|Hn]; [done|].
  apply NoDup_app. split; [done|]. split.
  - intros x Hx Hx'. apply list_elem_of_singleton in Hx'. subst x.
    apply Hn. by right.
  - apply NoDup_singleton.
Qed.

Lemma keys_fold_NoDup ks o :
  NoDup (map fst o) -> NoDup (map fst (fold_left bump ks o)).
Proof.
  revert o. induction ks as [|k ks IH]; intros o Hnd; [done|].
  cbn [fold_left]. by apply IH, keys_bump_NoDup.
Qed.

(** Counting the same tags in another order gives the same properties. *)
Lemma fold_bump_perm ks ks' :
  ks ≡ₚ ks' -> sameProperties (fold_left bump ks []) (fold_left bump ks' []).
Proof.
  intros Hp.
  assert (Hsame : forall k,
            ownProperty (fold_left bump ks []) k = ownProperty (fold_left bump ks' []) k).
  { intros k. rewrite !fold_bump_own.
    assert (Hlen : length (filter (fun x => x = k) ks) =
                   length (filter (fun x => x = k) ks')) by (by rewrite Hp).
    by rewrite Hlen. }
  split; [|done].
  apply entries_perm; [apply keys_fold_NoDup, NoDup_nil_2..|done].
Qed.

Lemma concat_map_perm {A B} (f : A -> list B) (l l' : list A) :
  l ≡ₚ l' -> concat (map f l) ≡ₚ concat (map f l').
Proof.
  induction 1 as [|x l l' _ IH|x y l|l1 l2 l3 _ IH1 _ IH2]; cbn.
  - done.
  - by rewrite IH.
  - rewrite !app_assoc. f_equiv. apply Permutation_app_comm.
  - by rewrite IH1.
Qed.

Lemma omap_perm {A B} (f : A -> option B) (l l' : list A) :
  l ≡ₚ l' -> omap f l ≡ₚ omap f l'.
Proof.
  induction 1 as [|x l l' _ IH|x y l|l1 l2 l3 _ IH1 _ IH2]; cbn.
  - done.
  - destruct (f x); by rewrite IH.
  - destruct (f x), (f y); try done. apply perm_swap.
  - by rewrite IH1.
Qed.

Lemma sumZ_perm (xs ys : list Z) : xs ≡ₚ ys -> sumZ xs = sumZ ys.
Proof.
  unfold sumZ. induction 1 as [|x l l' _ IH|x y l|l1 l2 l3 _ IH1 _ IH2]; cbn; lia.
Qed.

Lemma positiveRatings_perm rs rs' :
  rs ≡ₚ rs' -> positiveRatings rs ≡ₚ positiveRatings rs'.
Proof. unfold positiveRatings. by intros ->. Qed.

(** X1. Reordering the items changes nothing but the order in which the
    keys of the breakdowns were inserted: the totals, the rated count and
    the average are the same, and each breakdown holds the same properties
    with the same values. *)
Theorem computeStats_order_irrelevant rs rs' :
  rs ≡ₚ rs' ->
  let s := computeStatsFromReleases rs in
  let s' := computeStatsFromReleases rs' in
  totalReleases s = totalReleases s' /\
  totalValue s = totalValue s' /\
  ratedReleases s = ratedReleases s' /\
  averageRating s = averageRating s' /\
  sameProperties (genreBreakdown s) (genreBreakdown s') /\
  sameProperties (decadeBreakdown s) (decadeBreakdown s') /\
  sameProperties (formatBreakdown s) (formatBreakdown s') /\
  sameProperties (labelBreakdown s) (labelBreakdown s').
Proof.
  intros Hp. cbn zeta. rewrite !computeStats_closed.
  cbn [totalReleases totalValue ratedReleases averageRating genreBreakdown
       decadeBreakdown formatBreakdown labelBreakdown].
  pose proof (positiveRatings_perm rs rs' Hp) as Hr.
  rewrite (sumZ_perm _ _ Hr), (Permutation_length Hp), (Permutation_length Hr).
  split; [done|]. split; [done|]. split; [done|]. split; [done|].
  split; [by apply fold_bump_perm, concat_map_perm|].
  split; [by apply fold_bump_perm, fmap_Permutation, omap_perm|].
  split; by apply fold_bump_perm, concat_map_perm.
Qed.

Lemma computeStats_order_irrelevant_witness :
  decadeBreakdown (computeStatsFromReleases [exampleItem 1969 5; exampleItem 1973 4]) =
    [("1960s", JsNumber 1); ("1970s", JsNumber 1)]%string /\
  decadeBreakdown (computeStatsFromReleases [exampleItem 1973 4; exampleItem 1969 5]) =
    [("1970s", JsNumber 1); ("1960s", JsNumber 1)]%string /\
  sameProperties
    (decadeBreakdown (computeStatsFromReleases [exampleItem 1969 5; exampleItem 1973 4]))
    (decadeBreakdown (computeStatsFromReleases [exampleItem 1973 4; exampleItem 1969 5])).
Proof.
  split; [vm_compute; reflexivity|]. split; [vm_compute; reflexivity|].
  destruct (computeStats_order_irrelevant
              [exampleItem 1969 5; exampleItem 1973 4]
              [exampleItem 1973 4; exampleItem 1969 5])
    as (_ & _ & _ & _ & _ & Hd & _).
  - apply perm_swap.
  - exact Hd.
Defined.

(** For a key that [Object.prototype] does not know, the property read
    as a count is the number of occurrences. *)
Lemma count_lookup ks k :
  inheritedText k = None -> countOf (fold_left bump ks []) k = occurrences k ks.
Proof.
  intros Hk. unfold countOf. rewrite fold_bump_empty by done.
  destruct (decide (k ∈ ks)); [done|]. by rewrite occurrences_absent.
Qed.

Lemma count_lookup_decade ys k :
  countOf (fold_left bump (map decadeKey ys) []) k = occurrences k (map decadeKey ys).
Proof.
  destruct (decide (k ∈ map decadeKey ys)) as [Hin|Hnin].
  - apply list_elem_of_fmap in Hin as (y & -> & _).
    apply count_lookup, inheritedText_decadeKey.
  - rewrite occurrences_absent by done. unfold countOf. rewrite fold_bump_own.
    cbn [ownProperty].
    destruct (filter (fun x => x = k) (map decadeKey ys)) as [|x l] eqn:Hf; [done|].
    assert (x ∈ filter (fun x => x = k) (map decadeKey ys)) as Hin
      by (rewrite Hf; apply list_elem_of_here).
    apply list_elem_of_filter in Hin as [-> Hin]. done.
Qed.







Lemma sumZ_app (xs ys : list Z) : sumZ (xs ++ ys) = sumZ xs + sumZ ys.
Proof. unfold sumZ. induction xs as [|x xs IH]; cbn; lia. Qed.


Lemma sumZ_bounds (lo hi : Z) (xs : list Z) :
  Forall (fun x => lo <= x /\ x <= hi) xs ->
  lo * Z.of_nat (length xs) <= sumZ xs /\ sumZ xs <= hi * Z.of_nat (length xs).
Proof.
  unfold sumZ. induction 1 as [|x xs [Hlo Hhi] _ IH]; cbn [fold_right length]; lia.
Qed.

(** X3. The rated count is between 0 and the total, and the average
    rating is 0 when nothing is rated and otherwise lies between 1 and the
    largest rating an item may carry: between 1 and 5 for ratings of 0 to
    5. *)
Theorem computeStats_rating_bounds rs (hi : Z) :
  Forall (fun item => rating item <= hi) rs ->
  let s := computeStatsFromReleases rs in
  0 <= ratedReleases s /\ ratedReleases s <= totalReleases s /\
  (ratedReleases s = 0 -> averageRating s = 0%Q) /\
  (0 < ratedReleases s ->
   (1 <= averageRating s)%Q /\ (averageRating s <= inject_Z hi)%Q).
Proof.
  intros Hhi. cbn zeta. rewrite computeStats_closed.
  cbn [ratedReleases totalReleases averageRating].
  assert (Hpos : Forall (fun x => 1 <= x /\ x <= hi) (positiveRatings rs)).
  { unfold positiveRatings. apply Forall_forall. intros x Hx.
    apply list_elem_of_filter in Hx as [Hx0 Hx].
    apply list_elem_of_fmap in Hx as (item & -> & Hitem).
    rewrite Forall_forall in Hhi. specialize (Hhi item Hitem). lia. }
  destruct (sumZ_bounds 1 hi _ Hpos) as [Hlo Hup].
  assert (Hlen : (length (positiveRatings rs) <= length rs)%nat).
  { unfold positiveRatings. etrans; [apply length_filter|]. by rewrite length_map. }
  split; [lia|]. split; [lia|]. split.
  - intros H0. destruct (decide _); [lia|done].
  - intros Hn. destruct (decide _); [|lia]. split.
    + apply Qle_shift_div_l.
      * rewrite <- (Zlt_Qlt 0). lia.
      * rewrite Qmult_1_l. rewrite <- Zle_Qle. lia.
    + apply Qle_shift_div_r.
      * rewrite <- (Zlt_Qlt 0). lia.
      * rewrite <- inject_Z_mult, <- Zle_Qle. lia.
Qed.

Lemma computeStats_rating_bounds_witness :
  (1 <= averageRating (computeStatsFromReleases exampleItems))%Q /\
  (averageRating (computeStatsFromReleases exampleItems) <= inject_Z 5)%Q.
Proof.
  destruct (computeStats_rating_bounds exampleItems 5) as (_ & _ & _ & Hb).
  - repeat constructor; cbn; lia.
  - apply Hb. vm_compute. reflexivity.
Defined.

Lemma string_app_not_empty (s t : string) : t <> "" -> s +:+ t <> "".
Proof. intros Ht. destruct s; [done|]. discriminate. Qed.

(** For a key that names a function of [Object.prototype], the property
    is the text of the function with a "1" for each occurrence. *)
Lemma afterBump_inherited k text (n : nat) :
  k <> "__proto__" -> inheritedText k = Some text ->
  Nat.iter (S n) (afterBump k) None =
    Some (JsString (Nat.iter (S n) (fun s => s +:+ "1") text)).
Proof.
  intros Hne Hk. induction n as [|n IH].
  - cbn [Nat.iter]. unfold afterBump.
    destruct (decide (k = "__proto__")); [done|]. by rewrite Hk.
  - change (Nat.iter (S (S n)) (afterBump k) None)
      with (afterBump k (Nat.iter (S n) (afterBump k) None)).
    rewrite IH. unfold afterBump.
    destruct (decide (k = "__proto__")); [done|].
    cbn [orZero Nat.iter].
    destruct (decide _) as [He|_]; [|done].
    exfalso. revert He. by apply string_app_not_empty.
Qed.

Lemma fold_bump_inherited ks k text :
  k <> "__proto__" -> inheritedText k = Some text ->
  ownProperty (fold_left bump ks []) k =
    match length (filter (fun x => x = k) ks) with
    | O => None
    | S n => Some (JsString (Nat.iter (S n) (fun s => s +:+ "1") text))
    end.
Proof.
  intros Hne Hk. rewrite fold_bump_own. cbn [ownProperty].
  destruct (length (filter (fun x => x = k) ks)) as [|n]; [done|].
  by apply afterBump_inherited.
Qed.

Lemma fold_bump_proto ks o : ownProperty (fold_left bump ks o) "__proto__" =
                             ownProperty o "__proto__".
Proof.
  rewrite fold_bump_own.
  induction (length (filter (fun x => x = "__proto__"%string) ks)) as [|n IH]; [done|].
  change (Nat.iter (S n) ?f ?x) with (f (Nat.iter n f x)). by rewrite IH.
Qed.

(** X20. A genre, format name or label name that is the name of a
    function of Object.prototype is not counted: its property holds the
    text of that function followed by one "1" for each occurrence, a
    string and never a number; and a tag "__proto__" never becomes a
    property at all. *)
Theorem prototype_named_tags_become_strings rs k text :
  k <> "__proto__"%string -> inheritedText k = Some text ->
  let s := computeStatsFromReleases rs in
  let held (tags : list string) :=
    match length (filter (fun x => x = k) tags) with
    | O => None
    | S n => Some (JsString (Nat.iter (S n) (fun s => s +:+ "1") text))
    end in
  ownProperty (genreBreakdown s) k = held (genreTags rs) /\
  ownProperty (formatBreakdown s) k = held (formatTags rs) /\
  ownProperty (labelBreakdown s) k = held (labelTags rs) /\
  ownProperty (genreBreakdown s) "__proto__" = None /\
  ownProperty (formatBreakdown s) "__proto__" = None /\
  ownProperty (labelBreakdown s) "__proto__" = None.
Proof.
  intros Hne Hk. cbn zeta. rewrite computeStats_closed.
  cbn [genreBreakdown formatBreakdown labelBreakdown].
  rewrite !fold_bump_proto. cbn [ownProperty].
  repeat split; by apply fold_bump_inherited.
Qed.

Lemma prototype_named_tags_become_strings_witness :
  let item :=
    {| basic_information :=
         {| genres := Some ["constructor"; "Rock"; "constructor"]%string;
            year := None; formats := None; labels := None |};
       rating := 0 |} in
  ownProperty (genreBreakdown (computeStatsFromReleases [item])) "constructor" =
    Some (JsString "function Object() { [native code] }11").
Proof.
  cbn zeta.
  destruct (prototype_named_tags_become_strings
              [{| basic_information :=
                    {| genres := Some ["constructor"; "Rock"; "constructor"]%string;
                       year := None; formats := None; labels := None |};
                  rating := 0 |}]
              "constructor" "function Object() { [native code] }")
    as (Hg & _); [done|reflexivity|].
  exact Hg.
Defined.

Lemma ownProperty_in o k v : ownProperty o k = Some v -> (k, v) ∈ o.
Proof.
  induction o as [|[k0 v0] o IH]; cbn [ownProperty]; [done|].
  destruct (decide (k0 = k)) as [->|_].
  - intros [= ->]. apply list_elem_of_here.
  - intros H. by apply list_elem_of_further, IH.
Qed.

Lemma sumValues_set o k v :
  sumValues (setProperty o k v) = sumValues o - countOf o k + numberOf v.
Proof.
  unfold sumValues, countOf, sumZ.
  induction o as [|[k0 v0] o IH]; cbn [setProperty ownProperty map fold_right snd].
  - lia.
  - destruct (decide (k0 = k)) as [->|Hne]; cbn [map fold_right snd]; lia.
Qed.

Lemma allCounts_set o k n :
  1 <= n -> allCounts o -> allCounts (setProperty o k (JsNumber n)).
Proof.
  intros Hn. unfold allCounts.
  induction o as [|[k0 v0] o IH]; cbn [setProperty]; intros Ho.
  - repeat constructor. by exists n.
  - apply Forall_cons in Ho as [Hv Ho].
    destruct (decide (k0 = k)) as [->|_].
    + constructor; [by exists n|done].
    + constructor; [done|by apply IH].
Qed.

(** One more tag that [Object.prototype] does not know adds 1 to the sum
    of an object of counts, and leaves an object of counts. *)
Lemma bump_counts o k :
  inheritedText k = None -> allCounts o ->
  allCounts (bump o k) /\ sumValues (bump o k) = sumValues o + 1.
Proof.
  intros Hk Ho.
  assert (Hne : k <> "__proto__"%string).
  { intros ->. by vm_compute in Hk. }
  assert (Hb : bumped o k = JsNumber (countOf o k + 1) /\ 0 <= countOf o k).
  { unfold bumped, countOf. destruct (ownProperty o k) as [v|] eqn:Hv.
    - apply ownProperty_in in Hv. unfold allCounts in Ho.
      rewrite Forall_forall in Ho. destruct (Ho _ Hv) as (n & Hn & Hn1).
      cbn [snd] in Hn. subst v. cbn [orZero numberOf].
      destruct (decide (n = 0)); [lia|]. split; [done|lia].
    - rewrite Hk. split; [done|]. lia. }
  destruct Hb as [Hb Hc]. unfold bump.
  destruct (decide (k = "__proto__")); [done|].
  rewrite Hb. split.
  - apply allCounts_set; [lia|done].
  - rewrite sumValues_set. cbn [numberOf]. lia.
Qed.

Lemma fold_bump_counts ks o :
  Forall (fun k => inheritedText k = None) ks -> allCounts o ->
  allCounts (fold_left bump ks o) /\
  sumValues (fold_left bump ks o) = sumValues o + Z.of_nat (length ks).
Proof.
  revert o. induction ks as [|k ks IH]; intros o Hks Ho.
  - cbn [fold_left length]. split; [done|lia].
  - apply Forall_cons in Hks as [Hk Hks].
    destruct (bump_counts o k Hk Ho) as [Ho' Hsum].
    destruct (IH (bump o k) Hks Ho') as [Hall Hsum'].
    cbn [fold_left length]. split; [done|]. lia.
Qed.

Lemma length_omap_le {A B} (f : A -> option B) (l : list A) :
  (length (omap f l) <= length l)%nat.
Proof. induction l as [|x l IH]; cbn; [lia|]. destruct (f x); cbn; lia. Qed.

(** X4. When no genre, format name or label name is the name of a member
    of Object.prototype, every property of every breakdown is a count of
    at least 1, and the counts add up to the number of tags counted: all
    genre tags, all format names, all label names, and for the decades
    the number of items with a usable year, which is at most the number
    of items. *)
Theorem breakdown_counts_add_up rs :
  Forall (fun k => inheritedText k = None) (genreTags rs ++ formatTags rs ++ labelTags rs) ->
  let s := computeStatsFromReleases rs in
  sumValues (genreBreakdown s) = Z.of_nat (length (genreTags rs)) /\
  sumValues (formatBreakdown s) = Z.of_nat (length (formatTags rs)) /\
  sumValues (labelBreakdown s) = Z.of_nat (length (labelTags rs)) /\
  sumValues (decadeBreakdown s) = Z.of_nat (length (datedYears rs)) /\
  sumValues (decadeBreakdown s) <= totalReleases s /\
  allCounts (genreBreakdown s) /\ allCounts (formatBreakdown s) /\
  allCounts (labelBreakdown s) /\ allCounts (decadeBreakdown s).
Proof.
  intros Hplain. apply Forall_app in Hplain as [Hg Hplain].
  apply Forall_app in Hplain as [Hf Hl].
  assert (Hd : Forall (fun k => inheritedText k = None) (map decadeKey (datedYears rs))).
  { apply Forall_forall. intros k Hk. apply list_elem_of_fmap in Hk as (y & -> & _).
    apply inheritedText_decadeKey. }
  assert (Hnil : allCounts []) by constructor.
  destruct (fold_bump_counts _ [] Hg Hnil) as [Hg1 Hg2].
  destruct (fold_bump_counts _ [] Hf Hnil) as [Hf1 Hf2].
  destruct (fold_bump_counts _ [] Hl Hnil) as [Hl1 Hl2].
  destruct (fold_bump_counts _ [] Hd Hnil) as [Hd1 Hd2].
  rewrite length_map in Hd2.
  cbn zeta. rewrite computeStats_closed.
  cbn [genreBreakdown formatBreakdown labelBreakdown decadeBreakdown totalReleases].
  change (sumValues []) with 0 in *.
  pose proof (length_omap_le (fun i => truthyYear (year (basic_information i))) rs) as Hlen.
  fold (datedYears rs) in Hlen.
  repeat split; try done; lia.
Qed.

Lemma breakdown_counts_add_up_witness :
  sumValues (genreBreakdown (computeStatsFromReleases exampleItems)) = 2 /\
  sumValues (decadeBreakdown (computeStatsFromReleases exampleItems)) = 2 /\
  allCounts (decadeBreakdown (computeStatsFromReleases exampleItems)).
Proof.
  destruct (breakdown_counts_add_up exampleItems) as (Hg & _ & _ & Hd & _ & _ & _ & _ & Hc).
  - repeat constructor.
  - split; [exact Hg|]. split; [exact Hd|exact Hc].
Defined.

Lemma decadeOf_multiple (d y : Z) :
  d mod 10 = 0 -> decadeOf y = d <-> d <= y /\ y < d + 10.
Proof.
  unfold decadeOf. intros Hd.
  pose proof (Z.div_mod y 10 ltac:(lia)). pose proof (Z.mod_pos_bound y 10 ltac:(lia)).
  pose proof (Z.div_mod d 10 ltac:(lia)). lia.
Qed.

Lemma filterByDecade_length d rs :
  d mod 10 = 0 ->
  length (filterByDecade d rs) =
    length (filter (fun y => decadeOf y = decadeOf d) (datedYears rs)).
Proof.
  intros Hd.
  assert (Hdd : decadeOf d = d) by (apply decadeOf_multiple; [done|lia]).
  rewrite Hdd. unfold filterByDecade, datedYears, inDecade.
  induction rs as [|r rs IH]; [done|].
  rewrite filter_cons. cbn [omap list_omap].
  destruct (truthyYear (year (basic_information r))) as [y|].
  - rewrite filter_cons.
    destruct (decide (decadeOf y = d)) as [Hy|Hy].
    + destruct (decide (bool_decide (d <= y /\ y < d + 10) = true)) as [_|Hf].
      * cbn [length]. by rewrite IH.
      * exfalso. apply Hf, bool_decide_eq_true_2. by apply decadeOf_multiple.
    + destruct (decide (bool_decide (d <= y /\ y < d + 10) = true)) as [Ht|_]; [|done].
      apply bool_decide_eq_true in Ht. by apply decadeOf_multiple in Ht.
  - destruct (decide (false = true)); [done|]. exact IH.
Qed.

(** X5. For a decade given as a multiple of 10, the releases the decade
    filter of the recommendations tool keeps are as many as the statistics
    count in that decade's bucket: filter and breakdown agree on which
    releases belong to a decade, a release without a year or with year 0
    belonging to none. The bucket is a number, and it is there exactly
    when the filter keeps a release. *)
Theorem decade_filter_agrees_with_breakdown (d : Z) rs :
  d mod 10 = 0 ->
  let kept := Z.of_nat (length (filterByDecade d rs)) in
  kept = countOf (decadeBreakdown (computeStatsFromReleases rs)) (pretty d +:+ "s") /\
  ownProperty (decadeBreakdown (computeStatsFromReleases rs)) (pretty d +:+ "s") =
    if decide (kept = 0) then None else Some (JsNumber kept).
Proof.
  intros Hd. cbn zeta. rewrite computeStats_closed. cbn [decadeBreakdown].
  assert (Hkey : pretty d +:+ "s" = decadeKey d).
  { unfold decadeKey. f_equal. f_equal. symmetry. apply decadeOf_multiple; [done|lia]. }
  rewrite Hkey, count_lookup_decade, occurrences_decadeKey, filterByDecade_length by done.
  split; [done|].
  rewrite fold_bump_empty by apply inheritedText_decadeKey.
  rewrite occurrences_decadeKey.
  destruct (decide (decadeKey d ∈ map decadeKey (datedYears rs))) as [Hin|Hnin].
  - pose proof (occurrences_pos _ _ Hin) as Hpos.
    rewrite occurrences_decadeKey in Hpos.
    destruct (decide _); [lia|done].
  - pose proof (occurrences_absent _ _ Hnin) as Hzero.
    rewrite occurrences_decadeKey in Hzero.
    destruct (decide _); [done|lia].
Qed.

Lemma decade_filter_agrees_with_breakdown_witness :
  Z.of_nat (length (filterByDecade 1970 exampleItems)) =
    countOf (decadeBreakdown (computeStatsFromReleases exampleItems)) "1970s" /\
  ownProperty (decadeBreakdown (computeStatsFromReleases exampleItems)) "1970s" =
    Some (JsNumber 1).
Proof.
  apply (decade_filter_agrees_with_breakdown 1970 exampleItems). reflexivity.
Defined.

End StatsMoreFacts.

(** ** Cache keys *)

Section KeyFacts.

Import Stdlib.Strings.Ascii.
Import Keys.

Implicit Types (s t : string) (c : ascii).

Lemma string_app_nil s : "" +:+ s = s.
Proof. reflexivity. Qed.

Lemma string_app_cons (a : ascii) s1 s2 : String a s1 +:+ s2 = String a (s1 +:+ s2).
Proof. reflexivity. Qed.

Lemma string_length_cons (a : ascii) s : String.length (String a s) = S (String.length s).
Proof. reflexivity. Qed.

Lemma hasChar_cons c (a : ascii) s :
  hasChar c (String a s) = if decide (a = c) then true else hasChar c s.
Proof. reflexivity. Qed.

Lemma string_app_assoc s1 s2 s3 : (s1 +:+ s2) +:+ s3 = s1 +:+ (s2 +:+ s3).
Proof.
  induction s1 as [|a s1 IH]; [done|]. by rewrite !string_app_cons, IH.
Qed.

Lemma string_length_app s1 s2 :
  String.length (s1 +:+ s2) = (String.length s1 + String.length s2)%nat.
Proof.
  induction s1 as [|a s1 IH]; [done|].
  by rewrite string_app_cons, !string_length_cons, IH.
Qed.

Lemma string_app_inj_r s1 s2 t : s1 +:+ t = s2 +:+ t -> s1 = s2.
Proof.
  revert s2. induction s1 as [|a s1 IH]; intros [|b s2] H.
  - done.
  - apply (f_equal String.length) in H.
    rewrite string_app_nil, string_app_cons, string_length_cons, string_length_app in H.
    lia.
  - apply (f_equal String.length) in H.
    rewrite string_app_nil, string_app_cons, string_length_cons, string_length_app in H.
    lia.
  - rewrite !string_app_cons in H. injection H as -> H. f_equal. by apply IH.
Qed.

Lemma hasChar_app c s1 s2 : hasChar c (s1 +:+ s2) = hasChar c s1 || hasChar c s2.
Proof.
  induction s1 as [|a s1 IH]; [done|].
  rewrite string_app_cons, !hasChar_cons, IH. by destruct (decide (a = c)).
Qed.

Lemma hasChar_here c s t : hasChar c (s +:+ String c t) = true.
Proof.
  rewrite hasChar_app, hasChar_cons. destruct (decide (c = c)); [|done].
  by destruct (hasChar c s).
Qed.

(** Two strings cut at their last occurrence of [c] are equal only if
    both halves are. *)
Lemma split_at_last c s1 t1 s2 t2 :
  hasChar c t1 = false -> hasChar c t2 = false ->
  s1 +:+ String c t1 = s2 +:+ String c t2 -> s1 = s2 /\ t1 = t2.
Proof.
  intros H1 H2. revert s2. induction s1 as [|a s1 IH]; intros [|b s2] H;
    rewrite ?string_app_nil, ?string_app_cons in H.
  - by injection H.
  - injection H as _ H. rewrite H, hasChar_here in H1. done.
  - injection H as _ H. rewrite <- H, hasChar_here in H2. done.
  - injection H as -> H. destruct (IH _ H) as [-> ->]. done.
Qed.

Lemma pretty_N_go_hasChar c (x : N) s :
  (forall d, pretty_N_char d <> c) ->
  hasChar c (pretty_N_go x s) = hasChar c s.
Proof.
  intros Hc. revert s. induction (N.lt_wf_0 x) as [x _ IH]; intros s.
  assert (x = 0 \/ 0 < x)%N as [->|Hx] by lia.
  - by rewrite pretty_N_go_0.
  - rewrite pretty_N_go_step by done. rewrite IH by (by apply N.div_lt).
    rewrite hasChar_cons.
    destruct (decide (pretty_N_char (x `mod` 10) = c)) as [He|_]; [|done].
    by destruct (Hc _ He).
Qed.

Lemma pretty_N_hasChar c (x : N) :
  (forall d, pretty_N_char d <> c) -> hasChar c (pretty x) = false.
Proof.
  intros Hc. unfold pretty, pretty_N. destruct (decide (x = 0)%N).
  - change (pretty_N_go 0 "0") with (String "0" ""). rewrite hasChar_cons.
    destruct (decide ("0"%char = c)) as [He|_]; [|done].
    by destruct (Hc 0%N).
  - by rewrite pretty_N_go_hasChar.
Qed.

Lemma digit_not_colon (d : N) : pretty_N_char d <> ":"%char.
Proof. unfold pretty_N_char. by repeat case_match. Qed.

Lemma digit_not_dash (d : N) : pretty_N_char d <> "-"%char.
Proof. unfold pretty_N_char. by repeat case_match. Qed.

(** A printed integer holds no colon, and no dash unless it is negative. *)
Lemma pretty_Z_no_colon (z : Z) : hasChar ":" (pretty z) = false.
Proof.
  destruct z as [|p|p]; [done| |].
  - apply (pretty_N_hasChar ":" (N.pos p)), digit_not_colon.
  - change (pretty (Z.neg p)) with ("-" +:+ pretty (N.pos p)).
    rewrite hasChar_app, (pretty_N_hasChar ":" (N.pos p)) by apply digit_not_colon.
    done.
Qed.

Lemma pretty_Z_no_dash (z : Z) : 0 <= z -> hasChar "-" (pretty z) = false.
Proof.
  destruct z as [|p|p]; [done| |lia]. intros _.
  apply (pretty_N_hasChar "-" (N.pos p)), digit_not_dash.
Qed.

Lemma searchTypeName_no_colon (o : DatabaseOptions) : hasChar ":" (effectiveType o) = false.
Proof. unfold effectiveType. by destruct (db_type o) as [[]|]. Qed.

Lemma effectiveType_inj (o o' : DatabaseOptions) :
  effectiveType o = effectiveType o' -> db_type o = db_type o'.
Proof. unfold effectiveType. by destruct (db_type o) as [[]|], (db_type o') as [[]|]. Qed.

Lemma searchDatabaseKey_shape q (o : DatabaseOptions) :
  searchDatabaseKey q o =
    ((q +:+ String ":" (effectiveType o)) +:+
     String ":" (pretty (orNumber (db_page o) 1))) +:+
    String ":" (pretty (orNumber (db_per_page o) 50)).
Proof.
  unfold searchDatabaseKey.
  by rewrite !string_app_assoc, !string_app_cons, !string_app_nil.
Qed.

(** X6. Two database searches are cached under the same key exactly when
    they have the same query text, the same type, and the same page and
    page size once the defaults are filled in (page 1 and 50 per page for
    an absent or zero value). Different searches never share a key, even
    when the query text holds colons. *)
Theorem searchDatabaseKey_identifies_the_search q q' (o o' : DatabaseOptions) :
  searchDatabaseKey q o = searchDatabaseKey q' o' <->
  q = q' /\ db_type o = db_type o' /\
  orNumber (db_page o) 1 = orNumber (db_page o') 1 /\
  orNumber (db_per_page o) 50 = orNumber (db_per_page o') 50.
Proof.
  split.
  - rewrite !searchDatabaseKey_shape. intros H.
    apply split_at_last in H as [H Hpp]; [|apply pretty_Z_no_colon..].
    apply split_at_last in H as [H Hp]; [|apply pretty_Z_no_colon..].
    apply split_at_last in H as [Hq Ht]; [|apply searchTypeName_no_colon..].
    apply (inj pretty) in Hpp, Hp. by apply effectiveType_inj in Ht.
  - intros (-> & Ht & Hp & Hpp). unfold searchDatabaseKey, effectiveType.
    by rewrite Ht, Hp, Hpp.
Qed.

(** X7. The key of a complete collection names its user and its cap: two
    aggregates share a key only if both the user name and [maxPages] are
    the same, so an aggregate fetched under one cap is never served for
    another, even for user names that hold colons. *)
Theorem completeKey_identifies_user_and_cap (u u' : string) (m m' : Z) :
  completeKey u m = completeKey u' m' <-> u = u' /\ m = m'.
Proof.
  split; [|by intros [-> ->]].
  assert (Hshape : forall v n,
            completeKey v n = (v +:+ ":complete") +:+ String ":" (pretty n)).
  { intros v n. unfold completeKey.
    by rewrite !string_app_assoc, !string_app_cons, !string_app_nil. }
  rewrite !Hshape. intros H.
  apply split_at_last in H as [Hu Hm]; [|apply pretty_Z_no_colon..].
  apply string_app_inj_r in Hu. by apply (inj pretty) in Hm.
Qed.

(** X8. For releases with identifiers that are not negative, the key the
    search tool deduplicates on is the same for two releases exactly when
    both the release id and the instance id are. *)
Theorem releaseKey_identifies_the_instance (r r' : Tools.CollectionRelease) :
  0 <= Tools.instance_id r -> 0 <= Tools.instance_id r' ->
  Tools.releaseKey r = Tools.releaseKey r' <->
  Tools.release_id r = Tools.release_id r' /\ Tools.instance_id r = Tools.instance_id r'.
Proof.
  intros Hr Hr'. unfold Tools.releaseKey. split; [|by intros [-> ->]].
  rewrite !string_app_cons, !string_app_nil. intros H.
  apply split_at_last in H as [Hid Hinst]; [|by apply pretty_Z_no_dash..].
  by apply (inj pretty) in Hid, Hinst.
Qed.

End KeyFacts.

(** ** Merging search results in the tools *)

Section ToolFacts.

Import Tools.

Implicit Types (acc : Merge) (r : CollectionRelease) (l : list CollectionRelease).

Lemma addUnique_seen acc r :
  releaseKey r ∈ seenReleaseIds acc -> addUnique acc r = acc.
Proof. intros H. unfold addUnique. by destruct (decide _). Qed.

Lemma addUnique_fresh acc r :
  releaseKey r ∉ seenReleaseIds acc ->
  addUnique acc r =
    {| seenReleaseIds := {[releaseKey r]} ∪ seenReleaseIds acc;
       allResults := allResults acc ++ [r] |}.
Proof. intros H. unfold addUnique. by destruct (decide _). Qed.

Lemma addUnique_inv acc r : mergeInv acc -> mergeInv (addUnique acc r).
Proof.
  intros [Hseen Hnd]. unfold addUnique.
  destruct (decide (releaseKey r ∈ seenReleaseIds acc)) as [Hin|Hnin]; [done|].
  split; cbn [seenReleaseIds allResults].
  - intros k. rewrite map_app, elem_of_app, elem_of_union, elem_of_singleton, Hseen.
    cbn. rewrite list_elem_of_singleton. tauto.
  - rewrite map_app. apply NoDup_app. split; [done|]. split.
    + intros k Hk. cbn. rewrite list_elem_of_singleton. intros ->.
      by apply Hnin, Hseen.
    + cbn. apply NoDup_singleton.
Qed.

Lemma merge_flatten (results : list (list CollectionRelease)) acc :
  fold_left (fun a rs => fold_left addUnique rs a) results acc =
  fold_left addUnique (concat results) acc.
Proof.
  revert acc. induction results as [|rs results IH]; intros acc; [done|].
  cbn. by rewrite fold_left_app, IH.
Qed.

Lemma addUnique_all l acc :
  mergeInv acc ->
  mergeInv (fold_left addUnique l acc) /\
  (exists new, allResults (fold_left addUnique l acc) = allResults acc ++ new /\
               sublist new l) /\
  (forall r, r ∈ l -> releaseKey r ∈ seenReleaseIds (fold_left addUnique l acc)) /\
  (forall k, k ∈ seenReleaseIds acc -> k ∈ seenReleaseIds (fold_left addUnique l acc)) /\
  (forall pre r post,
     l = pre ++ r :: post ->
     releaseKey r ∉ seenReleaseIds acc ->
     releaseKey r ∉ map releaseKey pre ->
     r ∈ allResults (fold_left addUnique l acc)).
Proof.
  revert acc. induction l as [|x l IH]; intros acc Hinv.
  - cbn. split; [done|]. split; [exists []; by rewrite app_nil_r|].
    split; [by intros r Hr%elem_of_nil|]. split; [done|].
    intros pre r post H. by destruct pre.
  - cbn [fold_left].
    destruct (IH (addUnique acc x) (addUnique_inv acc x Hinv))
      as (Hinv' & (new & Hnew & Hsub) & Hcov & Hmono & Hfirst).
    split; [done|].
    destruct (decide (releaseKey x ∈ seenReleaseIds acc)) as [Hin|Hnin].
    + rewrite (addUnique_seen acc x Hin) in *.
      split; [exists new; split; [done|by apply sublist_cons]|].
      split; [intros r [->|Hr]%elem_of_cons; [by apply Hmono|by apply Hcov]|].
      split; [done|].
      intros [|y pre] r post Heq Hfresh Hpre; cbn in Heq; injection Heq as <- ->.
      * done.
      * apply (Hfirst pre r post); [done|done|].
        intros Hr. apply Hpre. cbn. by right.
    + rewrite (addUnique_fresh acc x Hnin) in *. cbn [seenReleaseIds allResults] in *.
      rewrite <- app_assoc in Hnew.
      split; [exists (x :: new); split; [done|by apply sublist_skip]|].
      split.
      { intros r [->|Hr]%elem_of_cons; [|by apply Hcov].
        apply Hmono, elem_of_union_l. by apply elem_of_singleton. }
      split; [intros k Hk; by apply Hmono, elem_of_union_r|].
      intros [|y pre] r post Heq Hfresh Hpre; cbn in Heq; injection Heq as <- ->.
      * rewrite Hnew. apply elem_of_app. right. by left.
      * apply (Hfirst pre r post); [done| |].
        -- rewrite elem_of_union, elem_of_singleton. intros [Heq|?]; [|done].
           apply Hpre. cbn. rewrite Heq. by left.
        -- intros Hr. apply Hpre. cbn. by right.
Qed.

(** X9. What the search tool keeps of the results of its queries: no two
    kept releases have the same key, the kept releases come from the
    results in their order, every key of the results is kept once, and
    the release kept for a key is the first that carries it. *)
Theorem merge_keeps_first_of_each_key (results : list (list CollectionRelease)) :
  let kept := mergeSearchResults results in
  NoDup (map releaseKey kept) /\
  sublist kept (concat results) /\
  (forall r, r ∈ concat results -> releaseKey r ∈ map releaseKey kept) /\
  (forall pre r post,
     concat results = pre ++ r :: post ->
     releaseKey r ∉ map releaseKey pre -> r ∈ kept).
Proof.
  cbn zeta. unfold mergeSearchResults. rewrite merge_flatten.
  set (init := {| seenReleaseIds := ∅; allResults := [] |}).
  assert (Hinit : mergeInv init).
  { split; [|constructor]. intros k. cbn. split; [set_solver|by intros ?%elem_of_nil]. }
  destruct (addUnique_all (concat results) init Hinit)
    as ((Hseen & Hnd) & (new & Hnew & Hsub) & Hcov & _ & Hfirst).
  split; [done|]. split; [|split].
  - rewrite Hnew. done.
  - intros r Hr. by apply Hseen, Hcov.
  - intros pre r post Heq Hpre. apply (Hfirst pre r post); [done| |done].
    cbn. set_solver.
Qed.

End ToolFacts.

(** ** The singleton *)

Section SingletonFacts.

Import Singleton.

Context {KV : Type}.

Lemma callsReturn_bound (kvs : list KV) (c : CachedDiscogsClient KV) :
  callsReturn kvs (Some c) = replicate (length kvs) c.
Proof. induction kvs as [|kv kvs IH]; cbn; [done|]. by rewrite IH. Qed.

(** X11. Whatever namespaces later calls pass, every call of
    [getCachedDiscogsClient] in one process returns the client built over
    the namespace of the first call. *)
Theorem singleton_keeps_first_namespace (kv : KV) (kvs : list KV) :
  callsReturn (kv :: kvs) None =
    replicate (S (length kvs)) (createCachedDiscogsClient kv).
Proof. cbn. by rewrite callsReturn_bound. Qed.

End SingletonFacts.

(** ** More on the page loop and the cache around it *)

Section CapFacts.

Context {U : Type}.
Variable searchCollection :
  string -> Z -> Z -> U -> (Error + DiscogsCollectionResponse) * U.
Variable username : string.
Variable maxPages : Z.
Variable defaultTTL : string -> Z.

Implicit Types (w : World U) (st : LoopState) (t : list Event).

(** However the loop ends, it has asked for consecutive pages and has not
    gone past the cap. *)
Lemma doWhile_requests fuel st w :
  exists t,
    trace (doWhile searchCollection fuel username maxPages st w).2 = trace w ++ t /\
    requestedPages t =
      seqZ (currentPage st) (Z.of_nat (length (requestedPages t))) /\
    ((0 < fuel)%nat -> (1 <= length (requestedPages t))%nat) /\
    currentPage st + Z.of_nat (length (requestedPages t)) - 1 <=
      Z.max (currentPage st) maxPages.
Proof.
  revert st w. induction fuel as [|fuel IH]; intros st w.
  - exists []. cbn. rewrite app_nil_r. split; [done|]. split; [done|]. split; lia.
  - rewrite doWhile_unfold, loopBody_unfold.
    destruct (searchCollection username (currentPage st) 100 (upstream w)) as [[e|r] u].
    + eexists. cbn [snd answered trace]. split; [done|]. cbn.
      split; [done|]. split; lia.
    + destruct (decide (currentPage (afterPage maxPages st r) <=
                        totalPages (afterPage maxPages st r))) as [Hgo|Hstop].
      * destruct (IH (afterPage maxPages st r)
                    (answered w u [PageRequested username (currentPage st) 100;
                                   PageReceived (currentPage st) r]))
          as (t & Ht & Hreq & _ & Hcap).
        exists (PageRequested username (currentPage st) 100 ::
                PageReceived (currentPage st) r :: t).
        cbn [afterPage currentPage totalPages] in *.
        rewrite Ht. cbn [answered trace]. rewrite <- app_assoc.
        split; [done|].
        cbn [requestedPages omap list_omap length]. fold (requestedPages t).
        split; [|split; lia].
        rewrite Hreq at 1. rewrite Nat2Z.inj_succ, <- Z.add_1_r.
        by rewrite seqZ_step by lia.
      * eexists. cbn [snd answered trace]. split; [done|]. cbn.
        split; [done|]. split; lia.
Qed.

Lemma length_concat_le (got : list DiscogsCollectionResponse) :
  Forall (fun r => (length (releases r) <= 100)%nat) got ->
  (length (concat (map releases got)) <= 100 * length got)%nat.
Proof. induction 1 as [|r l Hr _ IH]; cbn; [lia|]. rewrite length_app. lia. Qed.

(** X12. The cap bounds the cost of every run, whatever the collaborator
    answers: the closure asks for pages 1, 2, ... without a gap, for at
    least one and for no more than [maxPages] of them (one when the cap is
    below 1); and when no page holds more than the 100 items asked for, an
    aggregate holds at most 100 items per page of the cap. *)
Theorem page_cap_bounds_every_run w :
  exists t,
    trace (fetchAllPages searchCollection username maxPages w).2 = trace w ++ t /\
    requestedPages t = seqZ 1 (Z.of_nat (length (requestedPages t))) /\
    (1 <= length (requestedPages t))%nat /\
    Z.of_nat (length (requestedPages t)) <= Z.max 1 maxPages /\
    ((forall p u r u',
        searchCollection username p 100 u = (inr r, u') ->
        (length (releases r) <= 100)%nat) ->
     forall agg,
       (fetchAllPages searchCollection username maxPages w).1 = Fulfilled agg ->
       Z.of_nat (length (releases agg)) <= 100 * Z.max 1 maxPages).
Proof.
  rewrite fetchAllPages_unfold, fetchLoop_unfold.
  set (w0 := logged (fetchingLine username maxPages) w).
  destruct (doWhile_requests (loopFuel maxPages) initialLoopState w0)
    as (t & Ht & Hreq & Hone & Hcap).
  cbn [initialLoopState currentPage] in *.
  exists t.
  destruct (doWhile searchCollection (loopFuel maxPages) username maxPages
              initialLoopState w0) as [[st| |] w1] eqn:Hrun; cbn [fst snd] in *.
  - split; [by destruct (wasTruncated st)|]. split; [done|].
    split; [apply Hone; unfold loopFuel; lia|]. split; [lia|].
    intros Hsmall agg [= <-].
    destruct (doWhile_fulfilled _ _ _ _ _ _ _ _ Hrun)
      as (t' & _ & Ht' & _ & _ & Hall & _ & Hlen & _ & _ & _ & Hans).
    cbn zeta in *. cbn [initialLoopState allReleases app] in Hall.
    assert (t' = t) as -> by (rewrite Ht in Ht'; by apply app_inv_head in Ht').
    cbn [aggregateOf releases]. rewrite Hall.
    assert (Hle : (length (concat (map releases (receivedPages t))) <=
                   100 * length (receivedPages t))%nat).
    { apply length_concat_le. eapply Forall_impl; [exact Hans|].
      cbn. intros r (p & u & u' & Hr). by eapply Hsmall. }
    lia.
  - split; [done|]. split; [done|].
    split; [apply Hone; unfold loopFuel; lia|]. split; [lia|]. by intros _ agg.
  - split; [done|]. split; [done|].
    split; [apply Hone; unfold loopFuel; lia|]. split; [lia|]. by intros _ agg.
Qed.

(** X13. Against a source that answers every request, reports [P] pages
    on each answer and never returns more than the 100 items asked for,
    the closure logs its first line and nothing else, and returns
    pages = min(P, maxPages): however far [P] exceeds the cap, no
    truncation line is logged. *)
Theorem truncation_is_never_logged P w :
  1 <= maxPages -> 1 <= P ->
  (forall p u, exists r u',
     searchCollection username p 100 u = (inr r, u') /\ pages (pagination r) = P /\
     (length (releases r) <= 100)%nat) ->
  exists agg w',
    fetchAllPages searchCollection username maxPages w = (Fulfilled agg, w') /\
    console w' = console w ++ [fetchingLine username maxPages] /\
    pages (pagination agg) = Z.min P maxPages.
Proof.
  intros Hmax HP Hsteady.
  destruct (truncation_test_never_fires searchCollection username maxPages P w
              Hmax HP Hsteady) as (st & w1 & Hrun & Hflag).
  destruct (fetchLoop_steady searchCollection username maxPages P w Hmax HP)
    as (st2 & w2 & t & Hrun2 & _ & _ & _ & _ & _ & _ & Htot).
  { intros p u. destruct (Hsteady p u) as (r & u' & ? & ? & _). eauto. }
  rewrite Hrun in Hrun2. injection Hrun2 as <- <-.
  rewrite fetchAllPages_unfold, Hrun, Hflag.
  eexists _, _. split; [reflexivity|]. split; [|exact Htot].
  rewrite fetchLoop_unfold in Hrun.
  destruct (doWhile_frame searchCollection username maxPages (loopFuel maxPages)
              initialLoopState (logged (fetchingLine username maxPages) w))
    as (t' & _ & _ & Hconsole & _).
  rewrite Hrun in Hconsole. exact Hconsole.
Qed.

End CapFacts.

Lemma page_cap_bounds_every_run_witness :
  exists agg,
    (fetchAllPages (Samples.steadySource 100 5) "alice" 2 (Samples.freshWorld tt)).1 =
      Fulfilled agg /\
    Z.of_nat (length (releases agg)) <= 100 * Z.max 1 2.
Proof.
  destruct (page_cap_bounds_every_run (Samples.steadySource 100 5) "alice" 2
              (Samples.freshWorld tt)) as (t & _ & _ & _ & _ & Hitems).
  eexists. split; [vm_compute; reflexivity|].
  apply Hitems; [|vm_compute; reflexivity].
  intros p u r u' [= <- _].
  unfold Samples.pageOf. cbn [releases]. by rewrite length_replicate.
Defined.

Section CacheFacts.

Context {U : Type}.
Variable defaultTTL : string -> Z.

Implicit Types (w : World U) (v : DiscogsCollectionResponse).
Implicit Types (fetchFn : M U DiscogsCollectionResponse).

(** With a store that works, a fresh entry is served as it is: the fetch
    function is not run and the world is as before. *)
Lemma getOrFetch_hit category key fetchFn maxAge w v :
  storeFailures w = [] ->
  fullKeyOf category key ∉ pendingRequests w ->
  lookupFresh (fullKeyOf category key) w = Some v ->
  exists w',
    getOrFetch defaultTTL category key fetchFn maxAge w = (Fulfilled v, w') /\
    upstream w' = upstream w /\ trace w' = trace w /\ entries w' = entries w /\
    pendingRequests w' = pendingRequests w /\ now w' = now w.
Proof.
  intros Hstore Hpending Hhit. unfold getOrFetch.
  destruct (decide (fullKeyOf category key ∈ pendingRequests w)) as [?|_]; [done|].
  unfold storeGet, storeOperation. cbn [setPending storeFailures]. rewrite Hstore.
  change (lookupFresh (fullKeyOf category key)
             (setPending ({[fullKeyOf category key]} ∪ pendingRequests w) w))
    with (lookupFresh (fullKeyOf category key) w).
  rewrite Hhit. eexists. split; [reflexivity|].
  cbn [unregister setPending upstream trace entries pendingRequests now].
  repeat split. by apply registry_restored.
Qed.

(** With a store that works, a miss filled by a fetch that leaves the
    clock, the registry and the store alone: the value is returned, and
    for [ttl] seconds from then on the key is fresh and not pending. *)
Lemma getOrFetch_fills category key fetchFn maxAge w v w2 :
  let fullKey := fullKeyOf category key in
  let ttl := default (defaultTTL category) maxAge in
  storeFailures w = [] ->
  fullKey ∉ pendingRequests w ->
  lookupFresh fullKey w = None ->
  fetchFn (setPending ({[fullKey]} ∪ pendingRequests w) w) = (Fulfilled v, w2) ->
  now w2 = now w ->
  pendingRequests w2 = {[fullKey]} ∪ pendingRequests w ->
  storeFailures w2 = [] ->
  exists w1,
    getOrFetch defaultTTL category key fetchFn maxAge w = (Fulfilled v, w1) /\
    upstream w1 = upstream w2 /\ trace w1 = trace w2 /\
    pendingRequests w1 = pendingRequests w /\
    storeFailures w1 = [] /\
    forall dt, 0 <= dt ->
      lookupFresh fullKey (elapse dt w1) = if decide (dt < ttl) then Some v else None.
Proof.
  intros fullKey ttl Hstore Hpending Hmiss Hfetch Hnow Hreg Hstore2.
  unfold getOrFetch. fold fullKey.
  destruct (decide (fullKey ∈ pendingRequests w)) as [?|_]; [done|].
  unfold storeGet, storeOperation. cbn [setPending storeFailures]. rewrite Hstore.
  change (lookupFresh fullKey (setPending ({[fullKey]} ∪ pendingRequests w) w))
    with (lookupFresh fullKey w).
  rewrite Hmiss, Hfetch. unfold storePut, storeOperation. rewrite Hstore2.
  eexists. split; [reflexivity|].
  cbn [unregister setPending persist upstream trace entries pendingRequests now
       storeFailures].
  split; [done|]. split; [done|].
  split; [rewrite Hreg; by apply registry_restored|]. split; [done|].
  intros dt Hdt. unfold lookupFresh.
  cbn [elapse unregister setPending persist entries now]. rewrite lookup_insert_eq.
  cbn [expiresAt payload]. fold ttl.
  destruct (decide (now w2 + dt < now w2 + ttl)), (decide (dt < ttl)); try done; lia.
Qed.

Lemma awaitUpstream_frame {A} (f : U -> (Error + A) * U) w :
  trace (awaitUpstream f w).2 = trace w /\
  console (awaitUpstream f w).2 = console w /\
  entries (awaitUpstream f w).2 = entries w /\
  pendingRequests (awaitUpstream f w).2 = pendingRequests w /\
  now (awaitUpstream f w).2 = now w /\
  storeFailures (awaitUpstream f w).2 = storeFailures w /\
  (awaitUpstream f w).1 <> Unsettled.
Proof. unfold awaitUpstream. by destruct (f (upstream w)) as [[e|a] u]. Qed.

Variable searchCollection searchCollection' :
  string -> Z -> Z -> U -> (Error + DiscogsCollectionResponse) * U.

(** X14. With the cache taken as the specification describes it and a
    store that works: once getCompleteCollection has fetched an aggregate
    on a miss, every call for the same user and cap made less than 45
    minutes later returns that aggregate without asking for any page,
    whatever the collaborator would answer by then; a call made 45 minutes
    later or more asks for page 1 again. *)
Theorem aggregate_reused_for_45_minutes username maxPages w agg w1 :
  let fullKey := fullKeyOf "collections" (completeKey username maxPages) in
  storeFailures w = [] ->
  fullKey ∉ pendingRequests w ->
  lookupFresh fullKey w = None ->
  getCompleteCollection searchCollection defaultTTL username maxPages w =
    (Fulfilled agg, w1) ->
  (forall dt, 0 <= dt -> dt < 45 * 60 ->
     exists w2,
       getCompleteCollection searchCollection' defaultTTL username maxPages
         (elapse dt w1) = (Fulfilled agg, w2) /\
       trace w2 = trace w1 /\ upstream w2 = upstream w1) /\
  (forall dt, 45 * 60 <= dt ->
     exists rest,
       trace (getCompleteCollection searchCollection' defaultTTL username maxPages
                (elapse dt w1)).2 =
         trace w1 ++ PageRequested username 1 100 :: rest).
Proof.
  intros fullKey Hstore Hpending Hmiss Hcall.
  unfold getCompleteCollection in Hcall.
  set (w0 := setPending ({[fullKey]} ∪ pendingRequests w) w) in *.
  destruct (fetchAllPages_frame searchCollection username maxPages w0)
    as (t & _ & _ & _ & Hreg & Hnow).
  pose proof (fetchAllPages_storeFailures searchCollection username maxPages w0) as Hfs.
  pose proof (fetchAllPages_settles searchCollection username maxPages w0) as Hsettles.
  destruct (fetchAllPages searchCollection username maxPages w0)
    as [[v| |] w2] eqn:Hrun; cbn [fst snd] in Hreg, Hnow, Hfs, Hsettles; [| |done].
  - destruct (getOrFetch_fills "collections" (completeKey username maxPages)
                (fetchAllPages searchCollection username maxPages) (Some (45 * 60))
                w v w2 Hstore Hpending Hmiss Hrun Hnow Hreg)
      as (w1' & Hcall' & _ & _ & Hreg1 & Hstore1 & Hfresh).
    { by rewrite Hfs. }
    rewrite Hcall in Hcall'. injection Hcall' as <- <-.
    cbn [default] in Hfresh. unfold id in Hfresh. split.
    + intros dt Hdt0 Hdt.
      destruct (getOrFetch_hit "collections" (completeKey username maxPages)
                  (fetchAllPages searchCollection' username maxPages) (Some (45 * 60))
                  (elapse dt w1) agg)
        as (w2' & Hhit & Hup & Htr & _);
        [done|cbn [elapse pendingRequests]; by rewrite Hreg1| |].
      { rewrite Hfresh by done. destruct (decide (dt < 45 * 60)); [done|lia]. }
      exists w2'. split; [done|]. split; [by rewrite Htr|by rewrite Hup].
    + intros dt Hdt.
      assert (Hmiss' : lookupFresh fullKey (elapse dt w1) = None).
      { rewrite Hfresh by lia. destruct (decide (dt < 45 * 60)); [lia|done]. }
      assert (Hpending' : fullKey ∉ pendingRequests (elapse dt w1)).
      { cbn [elapse pendingRequests]. by rewrite Hreg1. }
      destruct (getOrFetch_miss defaultTTL "collections" (completeKey username maxPages)
                  (fetchAllPages searchCollection' username maxPages) (Some (45 * 60))
                  (elapse dt w1) Hpending' Hmiss')
        as (w4 & _ & Htr4 & _ & _ & _ & _ & Htr' & _).
      destruct (fetchAllPages_first_request searchCollection' username maxPages w4)
        as (rest & Hrest).
      exists rest. unfold getCompleteCollection. by rewrite Htr', Hrest, Htr4.
  - exfalso. revert Hcall. unfold getOrFetch. fold fullKey.
    destruct (decide (fullKey ∈ pendingRequests w)); [done|].
    unfold storeGet, storeOperation. cbn [setPending storeFailures]. rewrite Hstore.
    change (lookupFresh fullKey (setPending ({[fullKey]} ∪ pendingRequests w) w))
      with (lookupFresh fullKey w).
    fold w0. by rewrite Hmiss, Hrun.
Qed.

(** X19. A store that fails does not fail the call. On a miss, when the
    read of the store fails, or the read works and the write after the
    fetch fails, getCompleteCollection ends as its closure ends, with the
    closure's traffic; it always settles; nothing is stored; and a later
    call asks for page 1 again. *)
Theorem unstored_aggregate_is_fetched_again username maxPages w fs :
  let fullKey := fullKeyOf "collections" (completeKey username maxPages) in
  let call := getCompleteCollection searchCollection defaultTTL username maxPages in
  fullKey ∉ pendingRequests w ->
  lookupFresh fullKey w = None ->
  storeFailures w = true :: fs \/ storeFailures w = false :: true :: fs ->
  (exists w0,
     upstream w0 = upstream w /\ trace w0 = trace w /\
     (call w).1 = (fetchAllPages searchCollection username maxPages w0).1 /\
     trace (call w).2 = trace (fetchAllPages searchCollection username maxPages w0).2) /\
  (call w).1 <> Unsettled /\
  entries (call w).2 = entries w /\
  forall dt, 0 <= dt ->
    exists rest,
      trace (call (elapse dt (call w).2)).2 =
        trace (call w).2 ++ PageRequested username 1 100 :: rest.
Proof.
  intros fullKey call Hpending Hmiss Hfail.
  assert (Hshape : exists w0,
    upstream w0 = upstream w /\ trace w0 = trace w /\ entries w0 = entries w /\
    now w0 = now w /\ pendingRequests w0 = {[fullKey]} ∪ pendingRequests w /\
    (call w).1 = (fetchAllPages searchCollection username maxPages w0).1 /\
    trace (call w).2 = trace (fetchAllPages searchCollection username maxPages w0).2 /\
    now (call w).2 = now (fetchAllPages searchCollection username maxPages w0).2 /\
    entries (call w).2 = entries (fetchAllPages searchCollection username maxPages w0).2 /\
    pendingRequests (call w).2 =
      pendingRequests (fetchAllPages searchCollection username maxPages w0).2
        ∖ {[fullKey]}).
  { subst call. unfold getCompleteCollection, getOrFetch. fold fullKey.
    destruct (decide (fullKey ∈ pendingRequests w)) as [?|_]; [done|].
    unfold storeGet, storeOperation. cbn [setPending storeFailures].
    set (w0 := setPending ({[fullKey]} ∪ pendingRequests w) w).
    destruct Hfail as [-> | ->].
    - exists (logged (degradedLine fullKey) (setFailures fs w0)).
      do 5 (split; [reflexivity|]).
      pose proof (fetchAllPages_settles searchCollection username maxPages
                    (logged (degradedLine fullKey) (setFailures fs w0))) as Hsettles.
      destruct (fetchAllPages searchCollection username maxPages _) as [[v| |] w2];
        cbn [fst snd] in *; repeat split; done.
    - change (lookupFresh fullKey (setFailures (true :: fs) w0))
        with (lookupFresh fullKey w).
      rewrite Hmiss. exists (setFailures (true :: fs) w0).
      do 5 (split; [reflexivity|]).
      pose proof (fetchAllPages_storeFailures searchCollection username maxPages
                    (setFailures (true :: fs) w0)) as Hfs.
      pose proof (fetchAllPages_settles searchCollection username maxPages
                    (setFailures (true :: fs) w0)) as Hsettles.
      destruct (fetchAllPages searchCollection username maxPages _) as [[v| |] w2];
        cbn [fst snd] in *; [| |done].
      + unfold storePut, storeOperation. rewrite Hfs. repeat split; done.
      + repeat split; done. }
  destruct Hshape
    as (w0 & Hup0 & Htr0 & Hen0 & Hnow0 & Hreg0 & Hout & Htr & Hnow & Hen & Hreg).
  destruct (fetchAllPages_frame searchCollection username maxPages w0)
    as (t & Ht & _ & He & Hp & Hn).
  pose proof (fetchAllPages_settles searchCollection username maxPages w0) as Hsettles.
  split; [by exists w0|]. split; [by rewrite Hout|].
  split; [by rewrite Hen, He|].
  intros dt Hdt.
  assert (Hpending' : fullKey ∉ pendingRequests (elapse dt (call w).2)).
  { cbn [elapse pendingRequests]. rewrite Hreg, Hp, Hreg0.
    by rewrite registry_restored. }
  assert (Hmiss' : lookupFresh fullKey (elapse dt (call w).2) = None).
  { apply lookupFresh_elapse; [done|].
    unfold lookupFresh in *. by rewrite Hen, He, Hen0, Hnow, Hn, Hnow0. }
  destruct (getOrFetch_miss defaultTTL "collections" (completeKey username maxPages)
              (fetchAllPages searchCollection username maxPages) (Some (45 * 60))
              (elapse dt (call w).2) Hpending' Hmiss')
    as (w4 & _ & Htr4 & _ & _ & _ & _ & Htr' & _).
  destruct (fetchAllPages_first_request searchCollection username maxPages w4)
    as (rest & Hrest).
  exists rest. subst call. unfold getCompleteCollection in *.
  by rewrite Htr', Hrest, Htr4.
Qed.

End CacheFacts.

Section WrapperFacts.

Context {U : Type}.
Variable collectionSearchKey : string -> string -> option Z -> string.
Variable collectionKey : string -> option Z -> string -> string.
Variable defaultTTL : string -> Z.

Implicit Types (w : World U) (o : CollectionOptions).

(** X15. With the cache taken as the specification describes it and a
    store that works: browsing is cached under a key made of the user, the
    page and the sort order only. Once a browse request has been answered
    by the client, a request for the same page and sort order made less
    than 20 minutes later gets that same answer back whatever page size it
    asks for, and whatever the client would answer: the client is not
    called. *)
Theorem browse_cache_ignores_page_size
    (client client' :
       string -> CollectionOptions -> U -> (Error + DiscogsCollectionResponse) * U)
    username o o' w r w1 dt :
  let fullKey :=
    fullKeyOf "collections" (collectionKey username (o_page o) (sortLabel o)) in
  storeFailures w = [] ->
  truthyQuery (o_query o) = None ->
  truthyQuery (o_query o') = None ->
  o_page o' = o_page o ->
  sortLabel o' = sortLabel o ->
  fullKey ∉ pendingRequests w ->
  lookupFresh fullKey w = None ->
  cachedSearchCollection client collectionSearchKey collectionKey defaultTTL
    username o w = (Fulfilled r, w1) ->
  0 <= dt -> dt < 20 * 60 ->
  (client username o (upstream w)).1 = inr r /\
  exists w2,
    cachedSearchCollection client' collectionSearchKey collectionKey defaultTTL
      username o' (elapse dt w1) = (Fulfilled r, w2) /\
    upstream w2 = upstream w1.
Proof.
  intros fullKey Hstore Hq Hq' Hpage Hsort Hpending Hmiss Hcall Hdt0 Hdt.
  unfold cachedSearchCollection in *. rewrite Hq in Hcall. rewrite Hq', Hpage, Hsort.
  set (w0 := setPending ({[fullKey]} ∪ pendingRequests w) w).
  destruct (awaitUpstream_frame (client username o) w0)
    as (_ & _ & _ & Hreg & Hnow & Hfs & Hsettles).
  destruct (awaitUpstream (client username o) w0) as [[v| |] w2] eqn:Hrun;
    cbn [fst snd] in Hreg, Hnow, Hfs, Hsettles; [| |done].
  - destruct (getOrFetch_fills defaultTTL "collections"
                (collectionKey username (o_page o) (sortLabel o))
                (awaitUpstream (client username o)) (Some (20 * 60))
                w v w2 Hstore Hpending Hmiss Hrun Hnow Hreg)
      as (w1' & Hcall' & _ & _ & Hreg1 & Hstore1 & Hfresh).
    { by rewrite Hfs. }
    rewrite Hcall in Hcall'. injection Hcall' as <- <-.
    cbn [default] in Hfresh. unfold id in Hfresh. split.
    + unfold awaitUpstream in Hrun. cbn [w0 setPending upstream] in Hrun.
      destruct (client username o (upstream w)) as [[e|a] u]; [done|].
      by injection Hrun as <- _.
    + destruct (getOrFetch_hit defaultTTL "collections"
                  (collectionKey username (o_page o) (sortLabel o))
                  (awaitUpstream (client' username o')) (Some (20 * 60))
                  (elapse dt w1) r)
        as (w2' & Hhit & Hup & _);
        [done|cbn [elapse pendingRequests]; by rewrite Hreg1| |].
      { rewrite Hfresh by done. destruct (decide (dt < 20 * 60)); [done|lia]. }
      exists w2'. split; [done|]. by rewrite Hup.
  - exfalso. revert Hcall. unfold getOrFetch. fold fullKey.
    destruct (decide (fullKey ∈ pendingRequests w)); [done|].
    unfold storeGet, storeOperation. cbn [setPending storeFailures]. rewrite Hstore.
    change (lookupFresh fullKey (setPending ({[fullKey]} ∪ pendingRequests w) w))
      with (lookupFresh fullKey w).
    fold w0. by rewrite Hmiss, Hrun.
Qed.

Lemma prefix_app (s t : string) : String.prefix s (s +:+ t) = true.
Proof.
  induction s as [|a s IH]; [by destruct t|].
  rewrite string_app_cons. cbn [String.prefix].
  by destruct (Ascii.ascii_dec a a).
Qed.

Lemma invalidate_lookup prefix w k :
  entries (invalidate prefix w).2 !! k =
    if String.prefix prefix k then None else entries w !! k.
Proof.
  unfold invalidate. cbn [snd setEntries entries].
  rewrite map_lookup_filter. destruct (entries w !! k) as [e|]; cbn.
  - destruct (String.prefix prefix k); [by rewrite option_guard_False|].
    by rewrite option_guard_True.
  - by destruct (String.prefix prefix k).
Qed.

Lemma invalidateUserCache_lookup username w k :
  entries (invalidateUserCache username w).2 !! k =
    if String.prefix ("collections:" +:+ username) k then None
    else if String.prefix ("searches:" +:+ username) k then None
    else if String.prefix ("stats:" +:+ username) k then None
    else entries w !! k.
Proof.
  unfold invalidateUserCache, bind. cbn [invalidate fst snd].
  change (setEntries ?es ?w0) with (invalidate ("stats:" +:+ username) w0).2 at 1.
  rewrite invalidate_lookup.
  destruct (String.prefix ("stats:" +:+ username) k);
    [by repeat destruct (String.prefix _ k)|].
  change (setEntries ?es ?w0) with (invalidate ("searches:" +:+ username) w0).2 at 1.
  rewrite invalidate_lookup.
  destruct (String.prefix ("searches:" +:+ username) k);
    [by repeat destruct (String.prefix _ k)|].
  change (setEntries ?es ?w0) with (invalidate ("collections:" +:+ username) w0).2 at 1.
  rewrite invalidate_lookup. by destruct (String.prefix _ k).
Qed.

End WrapperFacts.

Section MaintenanceFacts.

Context {U : Type}.

Implicit Types (w : World U).

Lemma complete_key_under_user_prefix (username suffix : string) (maxPages : Z) :
  fullKeyOf "collections" (completeKey (username +:+ suffix) maxPages) =
    ("collections:" +:+ username) +:+ (suffix +:+ ":complete:" +:+ pretty maxPages).
Proof.
  unfold fullKeyOf, completeKey. by rewrite !string_app_assoc.
Qed.

(** X16. With [invalidate] taken as modelled: invalidateUserCache always
    succeeds, touches neither the registry nor the clock, and leaves no
    entry for a complete collection of the user, whatever the cap, nor
    for one of any user whose name begins with the user's name; entries
    of the [releases] and [userProfiles] categories are all kept. *)
Theorem invalidateUserCache_reach (username : string) w :
  let w' := (invalidateUserCache username w).2 in
  (invalidateUserCache username w).1 = Fulfilled tt /\
  pendingRequests w' = pendingRequests w /\
  trace w' = trace w /\
  now w' = now w /\
  (forall suffix maxPages,
     lookupFresh (fullKeyOf "collections" (completeKey (username +:+ suffix) maxPages)) w'
       = None) /\
  (forall key,
     entries w' !! fullKeyOf "releases" key = entries w !! fullKeyOf "releases" key) /\
  (forall key,
     entries w' !! fullKeyOf "userProfiles" key =
       entries w !! fullKeyOf "userProfiles" key).
Proof.
  cbn zeta. split; [done|]. split; [done|]. split; [done|]. split; [done|].
  split; [|split].
  - intros suffix maxPages. unfold lookupFresh.
    rewrite invalidateUserCache_lookup, complete_key_under_user_prefix.
    by rewrite prefix_app.
  - intros key. by rewrite invalidateUserCache_lookup.
  - intros key. by rewrite invalidateUserCache_lookup.
Qed.

Variable searchCollection :
  string -> Z -> Z -> U -> (Error + DiscogsCollectionResponse) * U.

(** X17. warmUserCache never fails. It asks for page 1 with 50 items a page;
    when that is refused it logs the failure and does not ask for the
    profile at all, so that the outcome is the same whatever the profile
    collaborator is; when page and profile are both answered it logs
    completion. *)
Theorem warmUserCache_swallows_failures
    (getUserProfile : U -> (Error + UserProfile) * U) (username : string) w :
  let run := warmUserCache searchCollection getUserProfile username w in
  run.1 = Fulfilled tt /\
  (exists answer,
     trace run.2 = trace w ++ [PageRequested username 1 50; answer]) /\
  (forall e u,
     searchCollection username 1 50 (upstream w) = (inl e, u) ->
     console run.2 =
       console w ++ ["Warming cache for user: " +:+ username;
                     "Cache warming failed for user: " +:+ username +:+ ": " +:+ e] /\
     forall getUserProfile',
       warmUserCache searchCollection getUserProfile' username w = run) /\
  (forall r u p u',
     searchCollection username 1 50 (upstream w) = (inr r, u) ->
     getUserProfile u = (inr p, u') ->
     console run.2 =
       console w ++ ["Warming cache for user: " +:+ username;
                     "Cache warming completed for user: " +:+ username]) /\
  (forall r u e u',
     searchCollection username 1 50 (upstream w) = (inr r, u) ->
     getUserProfile u = (inl e, u') ->
     console run.2 =
       console w ++ ["Warming cache for user: " +:+ username;
                     "Cache warming failed for user: " +:+ username +:+ ": " +:+ e]).
Proof.
  cbn zeta. unfold warmUserCache, bind, awaitSearchCollection, awaitUpstream, log.
  cbn [record logged setUpstream upstream trace console].
  destruct (searchCollection username 1 50 (upstream w)) as [[e|r] u] eqn:Hpage.
  - cbn [fst snd record logged setUpstream upstream trace console].
    split; [done|]. split; [eexists; by rewrite <- app_assoc|].
    split; [|split; intros; discriminate].
    intros e' u' [= <- <-]. split; [by rewrite <- app_assoc|]. done.
  - cbn [fst snd record logged setUpstream upstream trace console].
    destruct (getUserProfile u) as [[e|p] u'] eqn:Hprofile;
      cbn [fst snd record logged setUpstream upstream trace console].
    + split; [done|]. split; [eexists; by rewrite <- app_assoc|].
      split; [intros; discriminate|]. split; [intros ? ? ? ? [= <- <-] ?; congruence|].
      intros ? ? e' ? [= <- <-] He. rewrite Hprofile in He. injection He as <- <-.
      by rewrite <- app_assoc.
    + split; [done|]. split; [eexists; by rewrite <- app_assoc|].
      split; [intros; discriminate|]. split.
      * intros ? ? ? ? _ _. by rewrite <- !app_assoc.
      * intros ? ? e' ? [= <- <-] He. congruence.
Qed.

End MaintenanceFacts.

Section RecommendationFacts.

Context {U : Type}.
Variable searchWith :
  string -> CollectionOptions -> U -> (Error + DiscogsCollectionResponse) * U.
Variable username : string.
Variable maxPages : Z.

(** The pages of a source that answers from a fixed book of pages and
    keeps no state. *)
Variable book : Z -> DiscogsCollectionResponse.
Variable P : Z.

Hypothesis named_page :
  forall p s, searchWith username (pageOptions (Some p) 100) s = (inr (book p), s).
Hypothesis first_page :
  forall s, searchWith username (pageOptions None 100) s = (inr (book 1), s).
Hypothesis total : forall p, pages (pagination (book p)) = P.

Implicit Types (w : World U).

Lemma fetchRemaining_book k page all w :
  (fetchRemaining searchWith username k page all w).1 =
    Fulfilled (all ++ concat (map (fun p => releases (book p)) (seqZ page (Z.of_nat k)))).
Proof.
  revert page all w. induction k as [|k IH]; intros page all w.
  - cbn. by rewrite app_nil_r.
  - cbn [fetchRemaining]. unfold bind. unfold awaitUpstream at 1. rewrite named_page.
    rewrite IH. rewrite Nat2Z.inj_succ, <- Z.add_1_r, seqZ_step by lia.
    cbn [map concat]. by rewrite <- app_assoc.
Qed.

Lemma doWhile_book fuel st w :
  Z.min P maxPages - currentPage st < Z.of_nat fuel -> (0 < fuel)%nat ->
  exists st' w',
    doWhile (pagesOf searchWith) fuel username maxPages st w = (Fulfilled st', w') /\
    allReleases st' =
      allReleases st ++
      concat (map (fun p => releases (book p))
                (seqZ (currentPage st)
                   (Z.max 1 (Z.min P maxPages - currentPage st + 1)))).
Proof.
  revert st w. induction fuel as [|fuel IH]; intros st w Hfuel Hpos; [lia|].
  rewrite doWhile_unfold, loopBody_unfold. unfold pagesOf at 1. rewrite named_page.
  destruct (decide (currentPage (afterPage maxPages st (book (currentPage st))) <=
                    totalPages (afterPage maxPages st (book (currentPage st)))))
    as [Hgo|Hstop]; cbn [afterPage currentPage totalPages] in *; rewrite total in *.
  - edestruct (IH (afterPage maxPages st (book (currentPage st)))) as (st' & w' & Hrun & Hall);
      [cbn [afterPage currentPage]; lia..|].
    exists st', w'. split; [exact Hrun|]. rewrite Hall.
    cbn [afterPage currentPage allReleases].
    replace (Z.max 1 (Z.min P maxPages - currentPage st + 1))
      with ((Z.min P maxPages - currentPage st) + 1) by lia.
    rewrite seqZ_step by lia. cbn [map concat]. rewrite <- app_assoc.
    replace (Z.max 1 (Z.min P maxPages - (currentPage st + 1) + 1))
      with (Z.min P maxPages - currentPage st) by lia.
    done.
  - eexists _, _. split; [reflexivity|]. cbn [afterPage allReleases].
    replace (Z.max 1 (Z.min P maxPages - currentPage st + 1)) with (0 + 1) by lia.
    rewrite seqZ_step by lia. cbn. by rewrite app_nil_r.
Qed.

(** X18. Against a source that keeps no state, reports [P] pages throughout
    and answers a request without a page number with page 1, the
    recommendations tool gathers all [P] pages, capped by nothing, and the
    page loop of getCompleteCollection gathers the first
    min(P, maxPages) of them: the uncapped collection extends the
    capped one, and the two are the same when the cap does not cut. *)
Theorem recommendations_paging_is_uncapped w :
  1 <= P -> 1 <= maxPages ->
  let whole := concat (map (fun p => releases (book p)) (seqZ 1 P)) in
  let capped := concat (map (fun p => releases (book p)) (seqZ 1 (Z.min P maxPages))) in
  (fetchWholeCollection searchWith username w).1 = Fulfilled whole /\
  (exists agg,
     (fetchAllPages (pagesOf searchWith) username maxPages w).1 = Fulfilled agg /\
     releases agg = capped) /\
  (exists rest, whole = capped ++ rest) /\
  (P <= maxPages -> whole = capped).
Proof.
  intros HP Hmax whole capped.
  split; [|split; [|split]].
  - unfold fetchWholeCollection, bind. unfold awaitUpstream at 1. rewrite first_page.
    rewrite fetchRemaining_book, total. subst whole.
    rewrite Z2Nat.id by lia.
    replace (seqZ 1 P) with (seqZ 1 ((P - 1) + 1)) by (f_equal; lia).
    rewrite seqZ_step by lia. done.
  - rewrite fetchAllPages_unfold, fetchLoop_unfold.
    destruct (doWhile_book (loopFuel maxPages) initialLoopState
                (logged (fetchingLine username maxPages) w))
      as (st' & w' & Hrun & Hall).
    { unfold loopFuel. cbn [initialLoopState currentPage]. lia. }
    { unfold loopFuel. lia. }
    rewrite Hrun. eexists. split; [reflexivity|].
    cbn [aggregateOf releases]. rewrite Hall.
    cbn [initialLoopState allReleases currentPage app]. subst capped.
    replace (Z.max 1 (Z.min P maxPages - 1 + 1)) with (Z.min P maxPages) by lia.
    done.
  - subst whole capped.
    exists (concat (map (fun p => releases (book p))
                      (seqZ (1 + Z.min P maxPages) (P - Z.min P maxPages)))).
    rewrite <- concat_app, <- map_app. do 2 f_equal.
    replace P with (Z.min P maxPages + (P - Z.min P maxPages)) at 1 by lia.
    rewrite seqZ_app by lia. done.
  - intros Hle. subst whole capped. by rewrite Z.min_l.
Qed.

End RecommendationFacts.

(** ** Concrete instances of the facts above *)

Section MoreRuns.

Import Samples MoreSamples.

Lemma releaseKey_identifies_the_instance_witness :
  Tools.releaseKey (releaseWith 249504 17 "Kind of Blue") =
    Tools.releaseKey (releaseWith 249504 17 "Kind Of Blue (reissue)") /\
  Tools.releaseKey (releaseWith 24950 417 "Kind of Blue") <>
    Tools.releaseKey (releaseWith 249504 17 "Kind of Blue").
Proof.
  split.
  - apply (releaseKey_identifies_the_instance
             (releaseWith 249504 17 "Kind of Blue")
             (releaseWith 249504 17 "Kind Of Blue (reissue)")); cbn; [lia|lia|done].
  - intros H.
    apply (releaseKey_identifies_the_instance
             (releaseWith 24950 417 "Kind of Blue")
             (releaseWith 249504 17 "Kind of Blue")) in H; cbn; [|lia|lia].
    cbn in H. lia.
Defined.

Lemma aggregate_reused_for_45_minutes_witness :
  let first := getCompleteCollection (steadySource 100 3) noTTL "alice" 25 (freshWorld tt) in
  exists agg w1,
    first = (Fulfilled agg, w1) /\
    (exists w2,
       getCompleteCollection (steadySource 0 0) noTTL "alice" 25 (elapse 2699 w1) =
         (Fulfilled agg, w2) /\
       trace w2 = trace w1 /\ upstream w2 = upstream w1) /\
    exists rest,
      trace (getCompleteCollection (steadySource 0 0) noTTL "alice" 25
               (elapse 2700 w1)).2 =
        trace w1 ++ PageRequested "alice" 1 100 :: rest.
Proof.
  cbn zeta.
  destruct (getCompleteCollection (steadySource 100 3) noTTL "alice" 25 (freshWorld tt))
    as [[agg| |] w1] eqn:Hfirst; try (vm_compute in Hfirst; discriminate).
  exists agg, w1. split; [reflexivity|].
  destruct (aggregate_reused_for_45_minutes noTTL (steadySource 100 3) (steadySource 0 0)
              "alice" 25 (freshWorld tt) agg w1) as [Hfresh Hstale].
  - reflexivity.
  - cbn. apply not_elem_of_empty.
  - reflexivity.
  - exact Hfirst.
  - split; [apply Hfresh; lia|apply Hstale; lia].
Defined.

Lemma unstored_aggregate_is_fetched_again_witness :
  let call := getCompleteCollection (steadySource 100 3) noTTL "alice" 25 in
  let w := worldWithFailures tt [false; true] in
  (call w).1 <> Unsettled /\
  entries (call w).2 = ∅ /\
  exists rest,
    trace (call (elapse 60 (call w).2)).2 =
      trace (call w).2 ++ PageRequested "alice" 1 100 :: rest.
Proof.
  cbn zeta.
  destruct (unstored_aggregate_is_fetched_again noTTL (steadySource 100 3)
              "alice" 25 (worldWithFailures tt [false; true]) [])
    as (_ & Hsettles & Hentries & Hagain).
  - cbn. apply not_elem_of_empty.
  - reflexivity.
  - by right.
  - split; [exact Hsettles|]. split; [exact Hentries|]. apply Hagain. lia.
Defined.

Lemma browse_cache_ignores_page_size_witness :
  let first :=
    cachedSearchCollection obligingClient plainSearchKeys plainKeys noTTL
      "alice" (browse 50) (freshWorld tt) in
  exists r w1,
    first = (Fulfilled r, w1) /\
    length (releases r) = 50%nat /\
    exists w2,
      cachedSearchCollection deadClient plainSearchKeys plainKeys noTTL
        "alice" (browse 100) (elapse 600 w1) = (Fulfilled r, w2) /\
      upstream w2 = upstream w1.
Proof.
  cbn zeta.
  destruct (cachedSearchCollection obligingClient plainSearchKeys plainKeys noTTL
              "alice" (browse 50) (freshWorld tt)) as [[r| |] w1] eqn:Hfirst;
    try (vm_compute in Hfirst; discriminate).
  exists r, w1. split; [reflexivity|].
  destruct (browse_cache_ignores_page_size plainSearchKeys plainKeys noTTL
              obligingClient deadClient "alice" (browse 50) (browse 100)
              (freshWorld tt) r w1 600) as [Hanswer Hsecond];
    try reflexivity; try lia.
  - cbn. apply not_elem_of_empty.
  - exact Hfirst.
  - split; [|exact Hsecond].
    cbn in Hanswer. injection Hanswer as <-. cbn. by rewrite length_replicate.
Defined.

Lemma recommendations_paging_is_uncapped_witness :
  (fetchWholeCollection (bookSource 100 3) "alice" (freshWorld tt)).1 =
    Fulfilled (concat (map (fun p => releases (pageOf 100 3 p 100)) (seqZ 1 3))) /\
  exists agg,
    (fetchAllPages (pagesOf (bookSource 100 3)) "alice" 2 (freshWorld tt)).1 =
      Fulfilled agg /\
    releases agg =
      concat (map (fun p => releases (pageOf 100 3 p 100)) (seqZ 1 (Z.min 3 2))).
Proof.
  destruct (recommendations_paging_is_uncapped (bookSource 100 3) "alice" 2
              (fun p => pageOf 100 3 p 100) 3) with (w := freshWorld tt)
    as (Hwhole & Hcapped & _); try done; try lia.
Defined.

Lemma truncation_is_never_logged_witness :
  exists agg w',
    fetchAllPages (steadySource 100 5) "alice" 2 (freshWorld tt) = (Fulfilled agg, w') /\
    console w' = console (freshWorld tt) ++ [fetchingLine "alice" 2] /\
    pages (pagination agg) = Z.min 5 2.
Proof.
  apply (truncation_is_never_logged (steadySource 100 5) "alice" 2 5 (freshWorld tt));
    [lia|lia|].
  intros p u. eexists _, _. split; [reflexivity|]. split; [reflexivity|].
  unfold pageOf. cbn [releases]. by rewrite length_replicate.
Defined.

End MoreRuns.
